(** * Camel Up rules engine: a shallow embedding of board.py, game.py and
    main.py, and the properties of the move resolver, the ranking function,
    the round ledger and the leg simulator.

    Python values are modelled as follows.
    - [int] is [Z]; list subscripts keep Python's meaning, negative
      subscripts included ([getitem], [setitem]).
    - a [dict] is an association list in insertion order; assigning to an
      existing key keeps its place, a new key goes to the end.
    - an exception is a value of [Exn]; code that can raise lives in the
      [result] monad.
    - [copy_board] and [copy_game] are the identity: the model has no
      sharing, every update returns a new value.
    - the [float] accumulators of the simulator are exact rationals. *)

From Stdlib Require Import String ZArith List Bool Lia Permutation Sorted.
From Stdlib Require Import QArith Arith Lqa.
Import ListNotations.
Open Scope Z_scope.

(* ================================================================= *)
(** ** Python runtime: exceptions, lists, dicts                        *)
(* ================================================================= *)

Module py.

Inductive Exn : Type :=
| IndexError
| KeyError
| ValueError
| AttributeError
| TypeError
| NameError
| AssertionError (msg : string)
| ParseError (msg : string).

Inductive result (A : Type) : Type :=
| Ok (a : A)
| Raise (e : Exn).
Arguments Ok {A} a.
Arguments Raise {A} e.

Definition bind {A B : Type} (c : result A) (k : A -> result B) : result B :=
  match c with
  | Ok a => k a
  | Raise e => Raise e
  end.

(** [l[i]] with [i] possibly negative: the offset of the cell, if any. *)
Definition norm_index (len : nat) (i : Z) : option nat :=
  if (0 <=? i) && (i <? Z.of_nat len) then Some (Z.to_nat i)
  else if (- Z.of_nat len <=? i) && (i <? 0) then Some (Z.to_nat (i + Z.of_nat len))
  else None.

Definition getitem {A : Type} (l : list A) (i : Z) : result A :=
  match norm_index (length l) i with
  | Some n =>
      match nth_error l n with
      | Some x => Ok x
      | None => Raise IndexError
      end
  | None => Raise IndexError
  end.

Fixpoint set_nth {A : Type} (l : list A) (n : nat) (x : A) : list A :=
  match l, n with
  | [], _ => []
  | _ :: t, O => x :: t
  | h :: t, S n' => h :: set_nth t n' x
  end.

(** [l[i] = x] *)
Definition setitem {A : Type} (l : list A) (i : Z) (x : A) : result (list A) :=
  match norm_index (length l) i with
  | Some n => Ok (set_nth l n x)
  | None => Raise IndexError
  end.

Section ListIndex.
Context {A : Type} (eq_dec : forall x y : A, {x = y} + {x <> y}).

Fixpoint find_index (l : list A) (x : A) : option nat :=
  match l with
  | [] => None
  | y :: t =>
      if eq_dec y x then Some O
      else option_map S (find_index t x)
  end.

(** [l.index(x)] *)
Definition list_index (l : list A) (x : A) : result nat :=
  match find_index l x with
  | Some n => Ok n
  | None => Raise ValueError
  end.
End ListIndex.

Section Dict.
Context {K V : Type} (eq_dec : forall x y : K, {x = y} + {x <> y}).

Fixpoint dict_get (d : list (K * V)) (k : K) : option V :=
  match d with
  | [] => None
  | (k', v) :: t => if eq_dec k' k then Some v else dict_get t k
  end.

(** [d[k] = v] *)
Fixpoint dict_set (d : list (K * V)) (k : K) (v : V) : list (K * V) :=
  match d with
  | [] => [(k, v)]
  | (k', v') :: t =>
      if eq_dec k' k then (k', v) :: t else (k', v') :: dict_set t k v
  end.

Definition keys (d : list (K * V)) : list K := map fst d.
End Dict.

Fixpoint mapM {A B : Type} (f : A -> result B) (l : list A) : result (list B) :=
  match l with
  | [] => Ok []
  | x :: t =>
      bind (f x) (fun y => bind (mapM f t) (fun ys => Ok (y :: ys)))
  end.

End py.

Import py.

Notation "x <- c ;; k" := (bind c (fun x => k))
  (at level 61, c at next level, right associativity).
Notation "' p <- c ;; k" := (bind c (fun p => k))
  (at level 61, p pattern, c at next level, right associativity).

(* ================================================================= *)
(** ** board.py                                                        *)
(* ================================================================= *)

Inductive Camel : Type := Yellow | White | Blue | Orange | Green.

(** [list(Camel)], the enumeration in definition order. *)
Definition all_camels : list Camel := [Yellow; White; Blue; Orange; Green].

Definition Camel_eq_dec (x y : Camel) : {x = y} + {x <> y}.
Proof. decide equality. Defined.

Inductive Jump : Type := Forward | Backwards.

Definition jump_value (j : Jump) : Z :=
  match j with
  | Forward => 1
  | Backwards => -1
  end.

Record Move : Type := mkMove { camel : Camel; steps : Z }.

(** The owner of a jump and the name of a player are of type [Any] in the
    source; the shell uses player names and [None]. *)
Definition Owner : Type := option string.

Definition Owner_eq_dec (x y : Owner) : {x = y} + {x <> y}.
Proof. decide equality. apply string_dec. Defined.

Inductive BoardField : Type :=
| EmptyField
| CamelStack (s : list Camel)
| JumpField (jtype : Jump) (owner : Owner).

Definition CamelIndex : Type := list (Camel * Z).

Record Board : Type := mkBoard { fields : list BoardField; index : CamelIndex }.

Definition BOARD_SIZE : Z := 16.

Definition create_empty_board : Board :=
  mkBoard (repeat EmptyField (Z.to_nat BOARD_SIZE)) [].

Definition mem_camel (c : Camel) (s : list Camel) : bool :=
  if in_dec Camel_eq_dec c s then true else false.

(** [validate_board]: the two assertions, for each item of the index. *)
Fixpoint validate_items (fs : list BoardField) (items : CamelIndex) : result unit :=
  match items with
  | [] => Ok tt
  | (c, pos) :: rest =>
      if BOARD_SIZE <=? pos then validate_items fs rest
      else
        f <- getitem fs pos ;;
        match f with
        | CamelStack s =>
            if mem_camel c s then validate_items fs rest
            else Raise (AssertionError "Camel not on position")
        | _ => Raise (AssertionError "Board position is not a camel stack")
        end
  end.

Definition validate_board (b : Board) : result unit :=
  validate_items (fields b) (index b).

(** [field.index(camel)]: [None] has no such method, a [JumpField] is a
    tuple of a [Jump] and an owner, neither of which equals a camel. *)
Definition field_index (f : BoardField) (c : Camel) : result nat :=
  match f with
  | EmptyField => Raise AttributeError
  | CamelStack s => list_index Camel_eq_dec s c
  | JumpField _ _ => Raise ValueError
  end.

Definition winners_index (winners : option (list Camel)) (c : Camel) : result nat :=
  match winners with
  | None => Raise AttributeError
  | Some l => list_index Camel_eq_dec l c
  end.

(** The sort key of [get_rankings]: a pair compared as Python compares
    tuples. *)
Definition RankKey : Type := (Z * nat)%type.

Definition key_ltb (a b : RankKey) : bool :=
  (fst a <? fst b) || ((fst a =? fst b) && (snd a <? snd b)%nat).

Definition rank_key (b : Board) (winners : option (list Camel))
    (c : Camel) (i : Z) : result RankKey :=
  if i <? BOARD_SIZE then
    f <- getitem (fields b) i ;;
    h <- field_index f c ;;
    Ok (i, h)
  else
    h <- winners_index winners c ;;
    Ok (i, h).

(** [sorted(l, key=lambda v: v[1], reverse=True)]: descending and stable. *)
Fixpoint insert_desc (x : Camel * RankKey) (l : list (Camel * RankKey))
    : list (Camel * RankKey) :=
  match l with
  | [] => [x]
  | y :: t =>
      if key_ltb (snd x) (snd y) then y :: insert_desc x t
      else x :: y :: t
  end.

Fixpoint sorted_desc (l : list (Camel * RankKey)) : list (Camel * RankKey) :=
  match l with
  | [] => []
  | x :: t => insert_desc x (sorted_desc t)
  end.

Definition unsorted_camels (b : Board) (winners : option (list Camel))
    : result (list (Camel * RankKey)) :=
  mapM (fun '(c, i) => k <- rank_key b winners c i ;; Ok (c, k)) (index b).

Definition get_rankings (b : Board) (winners : option (list Camel))
    : result (list Camel) :=
  unsorted <- unsorted_camels b winners ;;
  Ok (map fst (sorted_desc unsorted)).

(** [board.index[camel] += k] *)
Definition add_to_index (idx : CamelIndex) (c : Camel) (k : Z) : result CamelIndex :=
  match dict_get Camel_eq_dec idx c with
  | Some v => Ok (dict_set Camel_eq_dec idx c (v + k))
  | None => Raise KeyError
  end.

(** [for camel in move_stack: board.index[camel] += k] *)
Fixpoint shift_index (idx : CamelIndex) (cs : list Camel) (k : Z) : result CamelIndex :=
  match cs with
  | [] => Ok idx
  | c :: cs' =>
      idx' <- add_to_index idx c k ;;
      shift_index idx' cs' k
  end.

(** [sliced_stack or None] *)
Definition stack_or_none (s : list Camel) : BoardField :=
  match s with
  | [] => EmptyField
  | _ => CamelStack s
  end.

(** Lines 147-150: the carried group goes on top. *)
Definition merge_top (fs : list BoardField) (end_pos : Z) (move_stack : list Camel)
    : result (list BoardField) :=
  f <- getitem fs end_pos ;;
  match f with
  | EmptyField => setitem fs end_pos (CamelStack move_stack)
  | CamelStack s => setitem fs end_pos (CamelStack (s ++ move_stack))
  | JumpField _ _ => Raise TypeError
  end.

(** Lines 141-144: the carried group goes underneath. *)
Definition merge_beneath (fs : list BoardField) (end_pos : Z) (move_stack : list Camel)
    : result (list BoardField) :=
  f <- getitem fs end_pos ;;
  match f with
  | EmptyField => setitem fs end_pos (CamelStack move_stack)
  | CamelStack s => setitem fs end_pos (CamelStack (move_stack ++ s))
  | JumpField _ _ => Raise TypeError
  end.

Definition MoveResult : Type := (Board * Owner * option (list Camel))%type.

(** Lines 109-118: the camel is not yet on the board. *)
Definition first_move (b : Board) (m : Move) : result MoveResult :=
  let pos := steps m - 1 in
  let idx := dict_set Camel_eq_dec (index b) (camel m) pos in
  field <- getitem (fields b) pos ;;
  match field with
  | JumpField _ _ => Raise (AssertionError "Jump at start")
  | CamelStack s =>
      fs <- setitem (fields b) pos (CamelStack (s ++ [camel m])) ;;
      Ok (mkBoard fs idx, None, None)
  | EmptyField =>
      fs <- setitem (fields b) pos (CamelStack [camel m]) ;;
      Ok (mkBoard fs idx, None, None)
  end.

(** Lines 127-151: where the carried group comes down. *)
Definition land (fs : list BoardField) (idx : CamelIndex) (move_stack : list Camel)
    (end_pos : Z) : result MoveResult :=
  if BOARD_SIZE <=? end_pos then Ok (mkBoard fs idx, None, Some move_stack)
  else
    dest_field <- getitem fs end_pos ;;
    match dest_field with
    | JumpField jt owner =>
        let shift := jump_value jt in
        let end_pos := end_pos + shift in
        idx <- shift_index idx move_stack shift ;;
        if BOARD_SIZE <=? end_pos then Ok (mkBoard fs idx, owner, Some move_stack)
        else if shift =? -1 then
          fs <- merge_beneath fs end_pos move_stack ;;
          Ok (mkBoard fs idx, owner, None)
        else
          fs <- merge_top fs end_pos move_stack ;;
          Ok (mkBoard fs idx, owner, None)
    | _ =>
        fs <- merge_top fs end_pos move_stack ;;
        Ok (mkBoard fs idx, None, None)
    end.

(** Lines 120-127: the camel and all above it leave their field. *)
Definition later_move (b : Board) (m : Move) (start_pos : Z) : result MoveResult :=
  f <- getitem (fields b) start_pos ;;
  height <- field_index f (camel m) ;;
  match f with
  | CamelStack s =>
      let move_stack := skipn height s in
      let sliced_stack := firstn height s in
      fs <- setitem (fields b) start_pos (stack_or_none sliced_stack) ;;
      idx <- shift_index (index b) move_stack (steps m) ;;
      land fs idx move_stack (start_pos + steps m)
  | _ => Raise ValueError
  end.

Definition apply_move_body (b : Board) (m : Move) : result MoveResult :=
  match dict_get Camel_eq_dec (index b) (camel m) with
  | None => first_move b m
  | Some start_pos => later_move b m start_pos
  end.

(** [@validates_board(0)]: the returned board is validated before it is
    handed back. *)
Definition apply_move (b : Board) (m : Move) : result MoveResult :=
  res <- apply_move_body b m ;;
  _ <- validate_board (fst (fst res)) ;;
  Ok res.

(* ================================================================= *)
(** ** game.py                                                         *)
(* ================================================================= *)

Inductive BetSize : Type := Low | Med | High.

Definition bet_value (s : BetSize) : Z :=
  match s with
  | Low => 2
  | Med => 3
  | High => 5
  end.

(** [list(BetSize)] *)
Definition all_bet_sizes : list BetSize := [Low; Med; High].

Record Bet : Type := mkBet { size : BetSize; bet_camel : Camel }.

Definition Bet_eq_dec (x y : Bet) : {x = y} + {x <> y}.
Proof. decide equality; [apply Camel_eq_dec | decide equality]. Defined.

(** [owned_bets] is a Python set: a list without repetition. *)
Record Player : Type := mkPlayer { balance : Z; owned_bets : list Bet }.

Definition Players : Type := list (Owner * Player).
Definition Bets : Type := list (Camel * list BetSize).

(** [camels_left] is a Python set: a list, in whatever order the set is
    iterated. *)
Record Game : Type := mkGame {
  board : Board;
  players : Players;
  bets : Bets;
  camels_left : list Camel
}.

Inductive Action : Type :=
| Roll (m : Move)
| Place (position : Z) (jump : Jump)
| BetOn (c : Camel).

Record OwnedAction : Type := mkOwnedAction { owner : Owner; action : Action }.

Definition reset_bets : Bets := map (fun c => (c, all_bet_sizes)) all_camels.

Definition init_game (names : list string) : Game :=
  mkGame create_empty_board
         (fold_left (fun d n => dict_set Owner_eq_dec d (Some n) (mkPlayer 3 []))
                    names [])
         reset_bets
         all_camels.

Definition change_balance (ps : Players) (name : Owner) (delta : Z) : result Players :=
  match dict_get Owner_eq_dec ps name with
  | Some p => Ok (dict_set Owner_eq_dec ps name
                    (mkPlayer (Z.max (balance p + delta) 0) (owned_bets p)))
  | None => Raise KeyError
  end.

(** The inner loop of [evaluate_bets] over one player's wagers. *)
Definition net_win (fst_c snd_c : Camel) (owned : list Bet) : Z :=
  fold_left
    (fun acc b =>
       if Camel_eq_dec fst_c (bet_camel b) then acc + bet_value (size b)
       else if Camel_eq_dec snd_c (bet_camel b) then acc + 1
       else acc - 1)
    owned 0.

(** The outer loop of [evaluate_bets]: the items of the dict are visited
    in order and each visit reassigns the visited key. *)
Fixpoint settle (fst_c snd_c : Camel) (items : Players) (ps : Players) : result Players :=
  match items with
  | [] => Ok ps
  | (name, player) :: rest =>
      ps' <- change_balance ps name (net_win fst_c snd_c (owned_bets player)) ;;
      settle fst_c snd_c rest ps'
  end.

Definition clear_jump (f : BoardField) : BoardField :=
  match f with
  | JumpField _ _ => EmptyField
  | _ => f
  end.

Definition evaluate_bets (g : Game) (b : Board) : result Game :=
  ranking <- get_rankings b None ;;
  match ranking with
  | fst_c :: snd_c :: _ =>
      ps <- settle fst_c snd_c (players g) (players g) ;;
      Ok (mkGame
            (mkBoard (map clear_jump (fields b)) (index b))
            (map (fun '(name, p) => (name, mkPlayer (balance p) [])) ps)
            reset_bets
            all_camels)
  | _ => Raise ValueError
  end.

Definition set_add_bet (b : Bet) (s : list Bet) : list Bet :=
  if in_dec Bet_eq_dec b s then s else s ++ [b].

(** [bets[camel].pop()]: the last element leaves the list. *)
Definition pop_bet (bs : Bets) (c : Camel) : result (BetSize * Bets) :=
  match dict_get Camel_eq_dec bs c with
  | None => Raise KeyError
  | Some l =>
      match rev l with
      | [] => Raise IndexError
      | x :: r => Ok (x, dict_set Camel_eq_dec bs c (rev r))
      end
  end.

Definition apply_action (g : Game) (a : OwnedAction)
    : result (Game * option (list Camel)) :=
  match action a with
  | Roll m =>
      ps <- (match owner a with
             | None =>
                 if mem_camel (camel m) (camels_left g) then Ok (players g)
                 else change_balance (players g) (owner a) 1
             | Some _ => change_balance (players g) (owner a) 1
             end) ;;
      '(b, shifter, winner) <- apply_move (board g) m ;;
      ps <- (match shifter with
             | None => Ok ps
             | Some _ => change_balance ps shifter 1
             end) ;;
      let left := remove Camel_eq_dec (camel m) (camels_left g) in
      match left with
      | _ :: _ => Ok (mkGame b ps (bets g) left, winner)
      | [] =>
          g' <- evaluate_bets (mkGame (board g) ps (bets g) (camels_left g)) b ;;
          Ok (g', winner)
      end
  | Place position jump =>
      fs <- setitem (fields (board g)) position (JumpField jump (owner a)) ;;
      Ok (mkGame (mkBoard fs (index (board g))) (players g) (bets g) (camels_left g),
          None)
  | BetOn c =>
      match dict_get Owner_eq_dec (players g) (owner a) with
      | None => Raise KeyError
      | Some p =>
          '(sz, bs) <- pop_bet (bets g) c ;;
          Ok (mkGame (board g)
                     (dict_set Owner_eq_dec (players g) (owner a)
                        (mkPlayer (balance p) (set_add_bet (mkBet sz c) (owned_bets p))))
                     bs
                     (camels_left g),
              None)
      end
  end.

(* ================================================================= *)
(** ** main.py                                                         *)
(* ================================================================= *)

Definition is_jump (f : BoardField) : bool :=
  match f with
  | JumpField _ _ => true
  | _ => false
  end.

Definition is_none (f : BoardField) : bool :=
  match f with
  | EmptyField => true
  | _ => false
  end.

(** [parse_place] after the regular expression has matched: [number] is
    the integer read from the one or two digits, [sign] the jump read from
    the [+] or [-]. *)
Definition parse_place (g : Game) (number : Z) (sign : Jump) : result Action :=
  let pos := number - 1 in
  if pos =? 0 then Raise (ParseError "Cannot place jump on position #1")
  else if negb ((0 <=? pos) && (pos <? 16)) then Raise (ParseError "Nonexistent position")
  else
    f <- getitem (fields (board g)) pos ;;
    if negb (is_none f) then Raise (ParseError "Destination position not empty")
    else
      l <- getitem (fields (board g)) (pos - 1) ;;
      if is_jump l then Raise (ParseError "Cannot place new jump next to adjacent jumps")
      else if negb (pos =? 15) then
        r <- getitem (fields (board g)) (pos + 1) ;;
        if is_jump r then Raise (ParseError "Cannot place new jump next to adjacent jumps")
        else Ok (Place pos sign)
      else Ok (Place pos sign).

(** The [rank] command of [parse_action]: the ranking it prints, one line
    per camel. *)
Definition rank_command (g : Game) : result (list Camel) :=
  get_rankings (board g) None.

(** [itertools.permutations]: every way of taking the elements one after
    the other, in the order of their places. *)
Fixpoint selections {A : Type} (l : list A) : list (A * list A) :=
  match l with
  | [] => []
  | x :: t => (x, t) :: map (fun '(y, r) => (y, x :: r)) (selections t)
  end.

Fixpoint permutations_upto {A : Type} (n : nat) (l : list A) : list (list A) :=
  match n with
  | O => [[]]
  | S n' =>
      flat_map (fun '(x, r) => map (cons x) (permutations_upto n' r)) (selections l)
  end.

Definition permutations {A : Type} (l : list A) : list (list A) :=
  permutations_upto (length l) l.

(** [itertools.product] of [n] copies of [range(1, 4)] *)
Fixpoint step_products (n : nat) : list (list Z) :=
  match n with
  | O => [[]]
  | S n' => flat_map (fun s => map (cons s) (step_products n')) [1; 2; 3]
  end.

(** [total_paths], as the loop computes it. *)
Definition total_paths (n : nat) : Z :=
  fold_left (fun t i => t * (3 * Z.of_nat i)) (seq 1 n) 1.

(** A [defaultdict(float)]: absent keys read as zero.  The floats are
    taken as exact rationals, so the statements about tallies are about
    the sums the code forms and not about their binary64 roundings. *)
Definition Tally (K : Type) : Type := K -> Q.

Definition tally_zero {K : Type} : Tally K := fun _ => 0%Q.

Definition tally_add {K : Type} (eq_dec : forall x y : K, {x = y} + {x <> y})
    (t : Tally K) (k : K) (w : Q) : Tally K :=
  fun k' => if eq_dec k' k then (t k' + w)%Q else t k'.

(** The loop over the moves of one combination.  [winner_stack] is the
    variable of that name: unbound until a move has been applied. *)
Fixpoint replay (w : Q) (sub_board : Board) (winner_stack : result (option (list Camel)))
    (shifts : Tally Owner) (moves : list Move)
    : result (Board * option (list Camel) * Tally Owner) :=
  match moves with
  | [] =>
      ws <- winner_stack ;;
      Ok (sub_board, ws, shifts)
  | move :: rest =>
      '(sub_board, shifter, ws) <- apply_move sub_board move ;;
      let shifts :=
        match shifter with
        | Some _ => tally_add Owner_eq_dec shifts shifter w
        | None => shifts
        end in
      match ws with
      | Some _ => Ok (sub_board, ws, shifts)
      | None => replay w sub_board (Ok None) shifts rest
      end
  end.

Record Probs : Type := mkProbs {
  fst_p : Tally Camel;
  snd_p : Tally Camel;
  winners : Tally Camel;
  losers : Tally Camel;
  shifts : Tally Owner
}.

Definition zip_moves (camel_order : list Camel) (move_steps : list Z) : list Move :=
  map (fun '(c, s) => mkMove c s) (combine camel_order move_steps).

(** The body of the two nested loops of [simulate_probs]. *)
Definition simulate_one (g : Game) (w : Q) (acc : Probs)
    (winner_stack : result (option (list Camel)))
    (combo : list Camel * list Z) : result (Probs * option (list Camel)) :=
  '(sub_board, ws, sh) <-
     replay w (board g) winner_stack (shifts acc) (zip_moves (fst combo) (snd combo)) ;;
  ranking <- get_rankings sub_board ws ;;
  match ranking with
  | [fst_camel; snd_camel; _; _; lst_camel] =>
      let '(wi, lo) :=
        match ws with
        | Some _ => (tally_add Camel_eq_dec (winners acc) fst_camel w,
                     tally_add Camel_eq_dec (losers acc) lst_camel w)
        | None => (winners acc, losers acc)
        end in
      Ok (mkProbs (tally_add Camel_eq_dec (fst_p acc) fst_camel w)
                  (tally_add Camel_eq_dec (snd_p acc) snd_camel w)
                  wi lo sh,
          ws)
  | _ => Raise ValueError
  end.

Fixpoint simulate_all (g : Game) (w : Q) (acc : Probs)
    (winner_stack : result (option (list Camel)))
    (combos : list (list Camel * list Z)) : result Probs :=
  match combos with
  | [] => Ok acc
  | combo :: rest =>
      '(acc, ws) <- simulate_one g w acc winner_stack combo ;;
      simulate_all g w acc (Ok ws) rest
  end.

(** The combinations in the order the two [for] loops visit them. *)
Definition combinations (left : list Camel) : list (list Camel * list Z) :=
  flat_map (fun camel_order =>
              map (fun move_steps => (camel_order, move_steps))
                  (step_products (length left)))
           (permutations left).

Definition path_weight (left : list Camel) : Q :=
  (1 / inject_Z (total_paths (length left)))%Q.

Definition simulate_probs (g : Game) : result Probs :=
  simulate_all g (path_weight (camels_left g))
    (mkProbs tally_zero tally_zero tally_zero tally_zero tally_zero)
    (Raise NameError)
    (combinations (camels_left g)).

Definition tally_total (t : Tally Camel) : Q :=
  fold_right (fun c acc => (t c + acc)%Q) 0%Q all_camels.

(* ================================================================= *)
(** ** Board invariants and the vocabulary of the statements           *)
(* ================================================================= *)

(** The stack held by the field at offset [q], if that field holds one. *)
Definition stack_at (fs : list BoardField) (q : nat) : option (list Camel) :=
  match nth_error fs q with
  | Some (CamelStack s) => Some s
  | _ => None
  end.

(** The camels of a field that can receive a group: none on an empty
    field, the stack on a stack; a jump receives nothing. *)
Definition occupants (f : BoardField) : option (list Camel) :=
  match f with
  | EmptyField => Some []
  | CamelStack s => Some s
  | JumpField _ _ => None
  end.

Definition jump_at (fs : list BoardField) (q : nat) : bool :=
  match nth_error fs q with
  | Some (JumpField _ _) => true
  | _ => false
  end.

(** The recorded position of a camel: [board.index.get(camel)]. *)
Definition pos_of (b : Board) (c : Camel) : option Z :=
  dict_get Camel_eq_dec (index b) c.

(** The condition the specification gives for a well-formed board: every
    camel of the index with a position below 16 occurs in exactly one
    stack, the one at its position. *)
Definition index_in_stacks (b : Board) : Prop :=
  forall c p, pos_of b c = Some p -> p < BOARD_SIZE ->
    exists q s, p = Z.of_nat q /\ stack_at (fields b) q = Some s /\ In c s /\
      forall q' s', stack_at (fields b) q' = Some s' -> In c s' -> q' = q.

(** What [validate_board] checks: membership in the stack at the recorded
    position. *)
Definition on_its_field (b : Board) : Prop :=
  forall c p, pos_of b c = Some p -> p < BOARD_SIZE ->
    exists q s, p = Z.of_nat q /\ stack_at (fields b) q = Some s /\ In c s.

(** Every camel standing in a stack is recorded at that field. *)
Definition stacks_indexed (b : Board) : Prop :=
  forall q s c, stack_at (fields b) q = Some s -> In c s ->
    pos_of b c = Some (Z.of_nat q).

(** No stack holds a camel twice. *)
Definition stacks_nodup (b : Board) : Prop :=
  forall q s, stack_at (fields b) q = Some s -> NoDup s.

(** The agreement of track and index that a move keeps. *)
Record board_ok (b : Board) : Prop := mk_board_ok {
  ok_size : length (fields b) = 16%nat;
  ok_dict : NoDup (keys (index b));
  ok_on_field : on_its_field b;
  ok_indexed : stacks_indexed b;
  ok_nodup : stacks_nodup b
}.

(** No two jumps on neighbouring fields. *)
Definition no_adjacent_jumps (b : Board) : Prop :=
  forall q, jump_at (fields b) q = true -> jump_at (fields b) (S q) = false.

Definition well_formed (b : Board) : Prop :=
  board_ok b /\ no_adjacent_jumps b.

(** All five camels are on the track. *)
Definition all_on_track (b : Board) : Prop :=
  forall c, exists p, pos_of b c = Some p /\ p < BOARD_SIZE.

(** Decision procedures for the invariants. *)
Fixpoint nodupb (s : list Camel) : bool :=
  match s with
  | [] => true
  | c :: t => negb (mem_camel c t) && nodupb t
  end.

Definition check_item (fs : list BoardField) (it : Camel * Z) : bool :=
  (BOARD_SIZE <=? snd it) ||
  ((0 <=? snd it) &&
   match stack_at fs (Z.to_nat (snd it)) with
   | Some s => mem_camel (fst it) s
   | None => false
   end).

Definition check_field (idx : CamelIndex) (qf : nat * BoardField) : bool :=
  match snd qf with
  | CamelStack s =>
      nodupb s &&
      forallb (fun c => match dict_get Camel_eq_dec idx c with
                        | Some p => p =? Z.of_nat (fst qf)
                        | None => false
                        end) s
  | _ => true
  end.

Definition numbered {A : Type} (l : list A) : list (nat * A) :=
  combine (seq 0 (length l)) l.

Definition board_okb (b : Board) : bool :=
  (length (fields b) =? 16)%nat &&
  nodupb (keys (index b)) &&
  forallb (check_item (fields b)) (index b) &&
  forallb (check_field (index b)) (numbered (fields b)).

Definition no_adjacent_jumpsb (b : Board) : bool :=
  forallb (fun q => negb (jump_at (fields b) q && jump_at (fields b) (S q)))
          (seq 0 (length (fields b))).

Definition well_formedb (b : Board) : bool :=
  board_okb b && no_adjacent_jumpsb b.

Definition all_on_trackb (b : Board) : bool :=
  forallb (fun c => match pos_of b c with
                    | Some p => p <? BOARD_SIZE
                    | None => false
                    end) all_camels.

(** The index after every camel of [cs] has advanced by [k]. *)
Definition bump (idx : CamelIndex) (cs : list Camel) (k : Z) : CamelIndex :=
  map (fun it => if mem_camel (fst it) cs then (fst it, snd it + k) else it) idx.

(** The shift of the jump on field [e], zero when there is none there. *)
Definition jump_shift (fs : list BoardField) (e : Z) : Z :=
  if (0 <=? e) && (e <? BOARD_SIZE) then
    match nth_error fs (Z.to_nat e) with
    | Some (JumpField jt _) => jump_value jt
    | _ => 0
    end
  else 0.

(** The owner of the jump on field [e], [None] when there is none there. *)
Definition jump_owner (fs : list BoardField) (e : Z) : Owner :=
  if (0 <=? e) && (e <? BOARD_SIZE) then
    match nth_error fs (Z.to_nat e) with
    | Some (JumpField _ o) => o
    | _ => None
    end
  else None.

(** The final landing position of a group leaving [origin]: origin plus
    steps, shifted by the jump found there when it is on the track. *)
Definition final_landing (b : Board) (origin st : Z) : Z :=
  origin + st + jump_shift (fields b) (origin + st).

(** The payoff of one wager at settlement. *)
Definition payoff (fst_c snd_c : Camel) (w : Bet) : Z :=
  if Camel_eq_dec (bet_camel w) fst_c then bet_value (size w)
  else if Camel_eq_dec (bet_camel w) snd_c then 1
  else -1.

Definition sumZ (l : list Z) : Z := fold_right Z.add 0 l.

(** The order of the sort keys, as Python orders pairs. *)
Definition key_lt (a b : RankKey) : Prop :=
  fst a < fst b \/ (fst a = fst b /\ (snd a < snd b)%nat).

(** [x] is not ranked below [y]. *)
Definition not_below (x y : Camel * RankKey) : Prop := ~ key_lt (snd x) (snd y).

(** [c] stands before [d] in the list [l]. *)
Definition precedes (l : list Camel) (c d : Camel) : Prop :=
  exists l1 l2 l3, l = l1 ++ c :: l2 ++ d :: l3.

(** The sort key of a camel the ranking uses, when it is defined. *)
Definition key_of (b : Board) (ws : option (list Camel)) (c : Camel) : option RankKey :=
  match pos_of b c with
  | Some p =>
      match rank_key b ws c p with
      | Ok k => Some k
      | Raise _ => None
      end
  | None => None
  end.

(* ================================================================= *)
(** ** Boards and games used as examples                               *)
(* ================================================================= *)

Definition track (front : list BoardField) : list BoardField :=
  front ++ repeat EmptyField (16 - length front).

(** Two camels on field 0, one on each of 1, 3 and 5, a backward jump on
    field 2 and a forward jump on field 4. *)
Definition demo_board : Board :=
  mkBoard
    (track [CamelStack [Yellow; White]; CamelStack [Blue];
            JumpField Backwards (Some "ann"%string); CamelStack [Orange];
            JumpField Forward (Some "bob"%string); CamelStack [Green]])
    [(Yellow, 0); (White, 0); (Blue, 1); (Orange, 3); (Green, 5)].

(** Yellow stands in a stack but is not in the index. *)
Definition stray_board : Board :=
  mkBoard
    (track [EmptyField; EmptyField; EmptyField; EmptyField; EmptyField;
            CamelStack [Yellow]])
    [].

(** Yellow has crossed the line, the others are on the track. *)
Definition finished_board : Board :=
  mkBoard
    (track [CamelStack [White]; CamelStack [Blue; Orange]; EmptyField;
            CamelStack [Green]])
    [(Yellow, 17); (White, 0); (Blue, 1); (Orange, 1); (Green, 3)].

(** Only Yellow has been placed. *)
Definition opening_board : Board :=
  mkBoard (track [CamelStack [Yellow]]) [(Yellow, 0)].

(** Green stands on field 13, two fields before a forward jump on the
    last field. *)
Definition last_field_board : Board :=
  mkBoard
    (track [CamelStack [Yellow; White]; CamelStack [Blue]; EmptyField;
            CamelStack [Orange]; EmptyField; EmptyField; EmptyField;
            EmptyField; EmptyField; EmptyField; EmptyField; EmptyField;
            EmptyField; CamelStack [Green]; EmptyField;
            JumpField Forward (Some "bob"%string)])
    [(Yellow, 0); (White, 0); (Blue, 1); (Orange, 3); (Green, 13)].

Definition demo_players : Players :=
  [(Some "ann"%string, mkPlayer 3 [mkBet High Blue; mkBet Med Green]);
   (Some "bob"%string, mkPlayer 0 [mkBet High Yellow])].

Definition demo_game : Game :=
  mkGame demo_board demo_players reset_bets [Yellow; White].

(** The example game after two placements made through [apply_action]:
    forward jumps on the empty fields 6 and 7. *)
Definition neighbouring_jumps_game : result Game :=
  '(g, _) <- apply_action demo_game
               (mkOwnedAction (Some "ann"%string) (Place 6 Forward)) ;;
  '(g, _) <- apply_action g
               (mkOwnedAction (Some "bob"%string) (Place 7 Forward)) ;;
  Ok g.

(* ================================================================= *)
(** ** The rest of main.py: bets and the command loop                  *)
(* ================================================================= *)

(** [parse_bet] once [parse_camel] has read the camel. *)
Definition parse_bet (g : Game) (c : Camel) : result Camel :=
  match dict_get Camel_eq_dec (bets g) c with
  | None => Raise KeyError
  | Some [] => Raise (ParseError "No bets remain")
  | Some (_ :: _) => Ok c
  end.

(** The expected value [show_evs] works out for a camel from the tallies
    of the simulation: [None] when the camel's pool is empty, else the
    value of the last token times the first-place tally, plus the
    second-place tally, minus the rest.  As the tallies, it is computed
    over the rationals where the code computes in floats. *)
Definition camel_ev (g : Game) (pr : Probs) (c : Camel) : result (option Q) :=
  let cfst_p := fst_p pr c in
  let csnd_p := snd_p pr c in
  match dict_get Camel_eq_dec (bets g) c with
  | None => Raise KeyError
  | Some pool =>
      match rev pool with
      | [] => Ok None
      | top :: _ =>
          let lose_p := (1 - (cfst_p + csnd_p))%Q in
          Ok (Some (inject_Z (bet_value top) * cfst_p + 1 * csnd_p - 1 * lose_p)%Q)
      end
  end.

Inductive CmdAction : Type := Undo | Save | Revert | Reset.

(** What [parse_action] hands to the loop of [main]: nothing, a command of
    the shell, or an action of the game. *)
Inductive Parsed : Type :=
| NoAction
| Command (cmd : CmdAction)
| Play (a : OwnedAction).

(** The variables of [main]: the game and the two stacks.  A Python list
    used as a stack grows and shrinks at its end. *)
Record Shell : Type := mkShell {
  live : Game;
  history_stack : list Game;
  save_stack : list Game
}.

(** [l.pop()] on a list that may be empty; the loop tests before it pops. *)
Definition list_pop {A : Type} (l : list A) : option (A * list A) :=
  match rev l with
  | [] => None
  | x :: r => Some (x, rev r)
  end.

(** One turn of the loop of [main], after [parse_action] has returned;
    an exception of [apply_action] leaves the loop. *)
Definition main_step (names : list string) (s : Shell) (p : Parsed) : result Shell :=
  match p with
  | NoAction => Ok s
  | Command Undo =>
      match list_pop (history_stack s) with
      | Some (g, h) => Ok (mkShell g h (save_stack s))
      | None => Ok s
      end
  | Command Save => Ok (mkShell (live s) (history_stack s) (save_stack s ++ [live s]))
  | Command Revert =>
      match list_pop (save_stack s) with
      | Some (g, sv) => Ok (mkShell g (history_stack s ++ [live s]) sv)
      | None => Ok s
      end
  | Command Reset =>
      Ok (mkShell (init_game names) (history_stack s ++ [live s]) (save_stack s))
  | Play a =>
      '(g, _) <- apply_action (live s) a ;;
      Ok (mkShell g (history_stack s ++ [live s]) (save_stack s))
  end.

(** The loop of [main] over the inputs it is given. *)
Fixpoint main_loop (names : list string) (s : Shell) (inputs : list Parsed)
    : result Shell :=
  match inputs with
  | [] => Ok s
  | p :: rest =>
      s' <- main_step names s p ;;
      main_loop names s' rest
  end.

(** The camels of a field and of a track. *)
Definition stack_camels (f : BoardField) : list Camel :=
  match f with
  | CamelStack s => s
  | _ => []
  end.

Definition all_stacked (fs : list BoardField) : list Camel :=
  flat_map stack_camels fs.

(** The finish group as a list. *)
Definition finishers (w : option (list Camel)) : list Camel :=
  match w with
  | Some l => l
  | None => []
  end.

(** No player is in debt. *)
Definition balances_ok (ps : Players) : Prop :=
  Forall (fun it => 0 <= balance (snd it)) ps.

(* ================================================================= *)
(** ** Lists and dicts                                                 *)
(* ================================================================= *)

Section ListFacts.
Context {A : Type}.
Implicit Types (l : list A) (q : nat) (x : A).

Lemma norm_index_nat (len q : nat) :
  (q < len)%nat -> norm_index len (Z.of_nat q) = Some q.
Proof.
  intros H. unfold norm_index.
  replace (0 <=? Z.of_nat q) with true by (symmetry; apply Z.leb_le; lia).
  replace (Z.of_nat q <? Z.of_nat len) with true by (symmetry; apply Z.ltb_lt; lia).
  simpl. now rewrite Nat2Z.id.
Qed.

Lemma norm_index_high (len : nat) (i : Z) :
  Z.of_nat len <= i -> norm_index len i = None.
Proof.
  intros H. unfold norm_index.
  replace (i <? Z.of_nat len) with false by (symmetry; apply Z.ltb_ge; lia).
  replace (i <? 0) with false by (symmetry; apply Z.ltb_ge; lia).
  now rewrite !andb_false_r.
Qed.

Lemma getitem_nat l q x :
  nth_error l q = Some x -> getitem l (Z.of_nat q) = Ok x.
Proof.
  intros H. unfold getitem.
  rewrite norm_index_nat by (apply nth_error_Some; congruence).
  now rewrite H.
Qed.

Lemma getitem_high l (i : Z) :
  Z.of_nat (length l) <= i -> getitem l i = Raise IndexError.
Proof. intros H. unfold getitem. now rewrite norm_index_high. Qed.

Lemma setitem_nat l q x :
  (q < length l)%nat -> setitem l (Z.of_nat q) x = Ok (set_nth l q x).
Proof. intros H. unfold setitem. now rewrite norm_index_nat. Qed.

Lemma length_set_nth l q x : length (set_nth l q x) = length l.
Proof.
  revert q; induction l as [|h t IH]; intros [|q]; simpl; auto.
Qed.

Lemma nth_set_nth_eq l q x :
  (q < length l)%nat -> nth_error (set_nth l q x) q = Some x.
Proof.
  revert q; induction l as [|h t IH]; intros [|q] H; simpl in *; try lia; auto.
  apply IH; lia.
Qed.

Lemma nth_set_nth_ne l q q' x :
  q <> q' -> nth_error (set_nth l q x) q' = nth_error l q'.
Proof.
  revert q q'; induction l as [|h t IH]; intros [|q] [|q'] H; simpl;
    try congruence; auto.
Qed.

Lemma NoDup_app_inv (l1 l2 : list A) :
  NoDup (l1 ++ l2) ->
  NoDup l1 /\ NoDup l2 /\ forall a, In a l1 -> In a l2 -> False.
Proof.
  induction l1 as [|y t IH]; simpl; intros H.
  - repeat split; [constructor | assumption | tauto].
  - inversion H as [|? ? Hn Ht]; subst. destruct (IH Ht) as (H1 & H2 & H3).
    repeat split; auto.
    + constructor; auto. intros F. apply Hn. apply in_or_app. now left.
    + intros a [->|I1] I2; [|eauto].
      apply Hn. apply in_or_app. now right.
Qed.

Lemma nth_error_in_range l q : (q < length l)%nat -> exists x, nth_error l q = Some x.
Proof.
  intros H. destruct (nth_error l q) eqn:E; eauto.
  apply nth_error_None in E. lia.
Qed.
End ListFacts.

Section IndexFacts.
Context {A : Type} (eq_dec : forall x y : A, {x = y} + {x <> y}).

Lemma find_index_In (l : list A) (x : A) :
  In x l -> exists h, find_index eq_dec l x = Some h.
Proof.
  induction l as [|y t IH]; simpl; [tauto|].
  intros H. destruct (eq_dec y x); eauto.
  destruct IH as [h IH]; [intuition congruence|].
  rewrite IH. simpl. eauto.
Qed.

Lemma find_index_None (l : list A) (x : A) :
  ~ In x l -> find_index eq_dec l x = None.
Proof.
  induction l as [|y t IH]; simpl; auto.
  intros H. destruct (eq_dec y x); [tauto|].
  rewrite IH; tauto.
Qed.

(** The element found heads the part from its place on, and is not in
    the part before. *)
Lemma find_index_split (l : list A) (x : A) (h : nat) :
  find_index eq_dec l x = Some h ->
  exists t, skipn h l = x :: t /\ ~ In x (firstn h l) /\ (h < length l)%nat.
Proof.
  revert h; induction l as [|y t IH]; simpl; intros h H; [discriminate|].
  destruct (eq_dec y x) as [->|N].
  - inversion H; subst. simpl. exists t. repeat split; auto. lia.
  - destruct (find_index eq_dec t x) as [h'|] eqn:E; [|discriminate].
    inversion H; subst. destruct (IH h' eq_refl) as (t' & H1 & H2 & H3).
    exists t'. simpl. repeat split; auto; [intuition congruence | lia].
Qed.

Lemma find_index_inj (l : list A) (x y : A) (h : nat) :
  find_index eq_dec l x = Some h -> find_index eq_dec l y = Some h -> x = y.
Proof.
  revert h; induction l as [|z t IH]; simpl; intros h Hx Hy; [discriminate|].
  destruct (eq_dec z x), (eq_dec z y); try congruence.
  - destruct (find_index eq_dec t y); simpl in *; congruence.
  - destruct (find_index eq_dec t x); simpl in *; congruence.
  - destruct (find_index eq_dec t x) eqn:Ex, (find_index eq_dec t y) eqn:Ey;
      simpl in *; try discriminate.
    eapply IH; eauto. congruence.
Qed.
End IndexFacts.

Section DictFacts.
Context {K V : Type} (eq_dec : forall x y : K, {x = y} + {x <> y}).
Implicit Types (d : list (K * V)) (k : K) (v : V).

Lemma dict_get_set_eq d k v : dict_get eq_dec (dict_set eq_dec d k v) k = Some v.
Proof.
  induction d as [|[k' v'] t IH]; simpl.
  - destruct (eq_dec k k); congruence.
  - destruct (eq_dec k' k) eqn:E; simpl; rewrite E; auto.
Qed.

Lemma dict_get_set_ne d k k' v :
  k <> k' -> dict_get eq_dec (dict_set eq_dec d k v) k' = dict_get eq_dec d k'.
Proof.
  intros N. induction d as [|[k0 v0] t IH]; simpl.
  - destruct (eq_dec k k'); congruence.
  - destruct (eq_dec k0 k) as [->|]; simpl.
    + destruct (eq_dec k k'); congruence.
    + destruct (eq_dec k0 k'); auto.
Qed.

Lemma dict_get_keys d k : dict_get eq_dec d k <> None <-> In k (keys d).
Proof.
  induction d as [|[k' v'] t IH]; simpl; [tauto|].
  destruct (eq_dec k' k); [intuition congruence|].
  rewrite IH. intuition congruence.
Qed.

Lemma dict_get_None d k : dict_get eq_dec d k = None <-> ~ In k (keys d).
Proof.
  rewrite <- dict_get_keys. destruct (dict_get eq_dec d k); intuition congruence.
Qed.

Lemma dict_get_Some_key d k v : dict_get eq_dec d k = Some v -> In k (keys d).
Proof. intros H. apply dict_get_keys. congruence. Qed.

Lemma keys_set_present d k v : In k (keys d) -> keys (dict_set eq_dec d k v) = keys d.
Proof.
  induction d as [|[k' v'] t IH]; simpl; [tauto|].
  intros H. destruct (eq_dec k' k); simpl; auto.
  f_equal. apply IH. intuition congruence.
Qed.

Lemma keys_set_absent d k v : ~ In k (keys d) -> keys (dict_set eq_dec d k v) = keys d ++ [k].
Proof.
  induction d as [|[k' v'] t IH]; simpl; auto.
  intros H. destruct (eq_dec k' k); [tauto|]. simpl.
  f_equal. apply IH. tauto.
Qed.

(** In a dict, an item is listed exactly when the key reads as it. *)
Lemma dict_item d k v : NoDup (keys d) -> In (k, v) d -> dict_get eq_dec d k = Some v.
Proof.
  induction d as [|[k' v'] t IH]; simpl; [tauto|].
  intros ND [E|H].
  - inversion E; subst. destruct (eq_dec k k); congruence.
  - inversion ND; subst. destruct (eq_dec k' k) as [->|]; auto.
    exfalso. apply H2. unfold keys. apply in_map_iff. exists (k, v). auto.
Qed.
End DictFacts.

(* ================================================================= *)
(** ** The index under a move                                          *)
(* ================================================================= *)

Lemma mem_camel_true c s : mem_camel c s = true <-> In c s.
Proof. unfold mem_camel. destruct (in_dec Camel_eq_dec c s); intuition congruence. Qed.

Lemma mem_camel_false c s : mem_camel c s = false <-> ~ In c s.
Proof. unfold mem_camel. destruct (in_dec Camel_eq_dec c s); intuition congruence. Qed.

Lemma keys_bump idx cs k : keys (bump idx cs k) = keys idx.
Proof.
  unfold keys, bump. rewrite map_map. apply map_ext.
  intros [c v]. simpl. now destruct (mem_camel c cs).
Qed.

Lemma get_bump idx cs k c :
  dict_get Camel_eq_dec (bump idx cs k) c =
  if mem_camel c cs then option_map (fun v => v + k) (dict_get Camel_eq_dec idx c)
  else dict_get Camel_eq_dec idx c.
Proof.
  induction idx as [|[c' v] t IH]; simpl.
  - now destruct (mem_camel c cs).
  - destruct (mem_camel c' cs) eqn:M; simpl;
      destruct (Camel_eq_dec c' c) as [->|N]; auto; now rewrite M.
Qed.

Lemma get_bump_in idx cs k c v :
  In c cs -> dict_get Camel_eq_dec idx c = Some v ->
  dict_get Camel_eq_dec (bump idx cs k) c = Some (v + k).
Proof.
  intros H E. rewrite get_bump, E.
  apply mem_camel_true in H. now rewrite H.
Qed.

Lemma get_bump_out idx cs k c :
  ~ In c cs -> dict_get Camel_eq_dec (bump idx cs k) c = dict_get Camel_eq_dec idx c.
Proof. intros H. rewrite get_bump. apply mem_camel_false in H. now rewrite H. Qed.

Lemma bump_bump idx cs k1 k2 : bump (bump idx cs k1) cs k2 = bump idx cs (k1 + k2).
Proof.
  unfold bump. rewrite map_map. apply map_ext. intros [c v]. simpl.
  destruct (mem_camel c cs) eqn:M; simpl; rewrite M; auto.
  f_equal. lia.
Qed.

Lemma bump_nil idx k : bump idx [] k = idx.
Proof. unfold bump. rewrite <- (map_id idx) at 2. apply map_ext. now intros []. Qed.

Lemma mem_camel_single c c' : mem_camel c' [c] = if Camel_eq_dec c c' then true else false.
Proof.
  destruct (Camel_eq_dec c c') as [->|N].
  - apply mem_camel_true. now left.
  - apply mem_camel_false. intros [E|[]]. congruence.
Qed.

Lemma mem_camel_cons c c' cs :
  mem_camel c' (c :: cs) = if Camel_eq_dec c c' then true else mem_camel c' cs.
Proof.
  destruct (Camel_eq_dec c c') as [->|N].
  - apply mem_camel_true. now left.
  - destruct (mem_camel c' cs) eqn:M.
    + apply mem_camel_true. apply mem_camel_true in M. now right.
    + apply mem_camel_false. apply mem_camel_false in M. intros [E|H]; congruence.
Qed.

Lemma bump_absent t c k : ~ In c (keys t) -> bump t [c] k = t.
Proof.
  intros Hn. unfold bump. rewrite <- (map_id t) at 2. apply map_ext_in.
  intros [c2 v2] Hin. cbn [fst snd]. rewrite mem_camel_single.
  destruct (Camel_eq_dec c c2) as [->|]; auto.
  exfalso. apply Hn. apply in_map_iff. exists (c2, v2). auto.
Qed.

(** One [+=] on a key of a dict is the pointwise update. *)
Lemma add_to_index_bump idx c k :
  NoDup (keys idx) -> In c (keys idx) ->
  add_to_index idx c k = Ok (bump idx [c] k).
Proof.
  unfold add_to_index. induction idx as [|[c' v] t IH]; [simpl; tauto|].
  intros ND H. inversion ND as [|? ? Hn ND']; subst.
  cbn [dict_get dict_set]. change (bump ((c', v) :: t) [c] k)
    with ((if mem_camel c' [c] then (c', v + k) else (c', v)) :: bump t [c] k).
  rewrite mem_camel_single.
  destruct (Camel_eq_dec c' c) as [->|N].
  - destruct (Camel_eq_dec c c); [|congruence].
    now rewrite bump_absent.
  - destruct (Camel_eq_dec c c'); [congruence|].
    destruct H as [H|H]; [simpl in H; congruence|].
    specialize (IH ND' H).
    destruct (dict_get Camel_eq_dec t c); [|discriminate].
    inversion IH as [E]. now rewrite E.
Qed.

Lemma bump_cons idx c cs k :
  ~ In c cs -> bump (bump idx [c] k) cs k = bump idx (c :: cs) k.
Proof.
  intros N. unfold bump. rewrite map_map. apply map_ext. intros [c' v].
  cbn [fst snd]. rewrite mem_camel_single, mem_camel_cons.
  destruct (Camel_eq_dec c c') as [->|D]; cbn [fst snd]; auto.
  apply mem_camel_false in N. now rewrite N.
Qed.

(** The loop [for camel in move_stack: board.index[camel] += k]. *)
Lemma shift_index_bump idx cs k :
  NoDup (keys idx) -> NoDup cs -> incl cs (keys idx) ->
  shift_index idx cs k = Ok (bump idx cs k).
Proof.
  revert idx. induction cs as [|c cs IH]; intros idx ND NDc I; simpl.
  - now rewrite bump_nil.
  - inversion NDc; subst.
    rewrite add_to_index_bump; auto; [|apply I; now left]. simpl.
    rewrite IH; auto.
    + now rewrite bump_cons.
    + now rewrite keys_bump.
    + rewrite keys_bump. intros x Hx. apply I. now right.
Qed.

(* ================================================================= *)
(** ** The track under a move                                          *)
(* ================================================================= *)

Lemma stack_at_nth fs q s : stack_at fs q = Some s <-> nth_error fs q = Some (CamelStack s).
Proof.
  unfold stack_at. destruct (nth_error fs q) as [[]|]; intuition congruence.
Qed.

Lemma stack_at_lt fs q s : stack_at fs q = Some s -> (q < length fs)%nat.
Proof. intros H. apply stack_at_nth in H. apply nth_error_Some. congruence. Qed.

Lemma stack_at_set_eq fs q s : (q < length fs)%nat -> stack_at (set_nth fs q (CamelStack s)) q = Some s.
Proof. intros H. apply stack_at_nth. now apply nth_set_nth_eq. Qed.

Lemma stack_at_set_ne fs q q' f : q <> q' -> stack_at (set_nth fs q f) q' = stack_at fs q'.
Proof. intros H. unfold stack_at. now rewrite nth_set_nth_ne. Qed.

Lemma stack_or_none_stack s s' : stack_or_none s = CamelStack s' -> s' = s /\ s <> [].
Proof. destruct s; simpl; intros H; inversion H; split; congruence. Qed.

Lemma stack_or_none_in s d : In d s -> stack_or_none s = CamelStack s.
Proof. destruct s; simpl; tauto. Qed.

Lemma occupants_stack_or_none s : occupants (stack_or_none s) = Some s.
Proof. now destruct s. Qed.

Lemma occupants_stack f s : f = CamelStack s -> occupants f = Some s.
Proof. now intros ->. Qed.

(** [validate_board] accepts every board whose indexed camels stand on
    their fields. *)
Lemma validate_items_ok fs items :
  (forall c p, In (c, p) items -> p < BOARD_SIZE ->
     exists q s, p = Z.of_nat q /\ stack_at fs q = Some s /\ In c s) ->
  validate_items fs items = Ok tt.
Proof.
  induction items as [|[c p] t IH]; intros H; simpl; auto.
  destruct (BOARD_SIZE <=? p) eqn:E.
  - apply IH. intros; apply H; simpl; auto.
  - apply Z.leb_gt in E.
    destruct (H c p) as (q & s & -> & Hs & Hin); [now left | assumption |].
    apply stack_at_nth in Hs. rewrite (getitem_nat _ _ _ Hs). simpl.
    apply mem_camel_true in Hin. rewrite Hin.
    apply IH. intros; apply H; simpl; auto.
Qed.

Lemma validate_board_ok b : NoDup (keys (index b)) -> on_its_field b -> validate_board b = Ok tt.
Proof.
  intros ND H. apply validate_items_ok. intros c p Hin Hp.
  apply (H c p); auto. unfold pos_of. now apply dict_item.
Qed.

(** On a board in order every camel recorded below 16 occurs in one stack
    only, the one at its position. *)
Lemma board_ok_index_in_stacks b : board_ok b -> index_in_stacks b.
Proof.
  intros [_ _ Hf Hi _] c p Hc Hp.
  destruct (Hf c p Hc Hp) as (q & s & -> & Hs & Hin).
  exists q, s. repeat split; auto.
  intros q' s' Hs' Hin'. specialize (Hi q' s' c Hs' Hin').
  rewrite Hc in Hi. inversion Hi. lia.
Qed.

Section Lift.
Variables (b : Board) (c : Camel) (p h : nat) (s : list Camel).
Hypothesis (Hok : board_ok b).
Hypothesis (Hs : stack_at (fields b) p = Some s).
Hypothesis (Hh : find_index Camel_eq_dec s c = Some h).

Let carried := skipn h s.
Let below := firstn h s.
Let fs1 := set_nth (fields b) p (stack_or_none below).

Lemma lift_p_lt : (p < 16)%nat.
Proof. rewrite <- (ok_size b Hok). eapply stack_at_lt; eauto. Qed.

Lemma lift_split : s = below ++ carried.
Proof. symmetry. apply firstn_skipn. Qed.

Lemma lift_nodup : NoDup s.
Proof. eapply ok_nodup; eauto. Qed.

Lemma lift_camel_carried : In c carried.
Proof.
  destruct (find_index_split _ _ _ _ Hh) as (t & E & _). fold carried in E.
  rewrite E. now left.
Qed.

Lemma lift_carried_in d : In d carried -> In d s.
Proof. intros H. rewrite lift_split. apply in_or_app. now right. Qed.

Lemma lift_below_in d : In d below -> In d s.
Proof. intros H. rewrite lift_split. apply in_or_app. now left. Qed.

Lemma lift_disjoint d : In d below -> In d carried -> False.
Proof.
  intros H1 H2. pose proof lift_nodup as ND. rewrite lift_split in ND.
  apply NoDup_app_inv in ND. destruct ND as (_ & _ & D). eapply D; eauto.
Qed.

Lemma lift_rest d : In d s -> ~ In d carried -> In d below.
Proof.
  intros H N. rewrite lift_split in H. apply in_app_or in H. tauto.
Qed.

Lemma lift_pos d : In d s -> pos_of b d = Some (Z.of_nat p).
Proof. intros H. eapply ok_indexed; eauto. Qed.

Lemma lift_carried_nodup : NoDup carried.
Proof.
  pose proof lift_nodup as ND. rewrite lift_split in ND.
  apply NoDup_app_inv in ND. tauto.
Qed.

Lemma lift_below_nodup : NoDup below.
Proof.
  pose proof lift_nodup as ND. rewrite lift_split in ND.
  apply NoDup_app_inv in ND. tauto.
Qed.

Lemma lift_carried_keys : incl carried (keys (index b)).
Proof.
  intros d H. eapply dict_get_Some_key. apply lift_pos. now apply lift_carried_in.
Qed.

Lemma lift_length : length fs1 = 16%nat.
Proof. unfold fs1. rewrite length_set_nth. apply Hok. Qed.

Lemma lift_nth_p : nth_error fs1 p = Some (stack_or_none below).
Proof. apply nth_set_nth_eq. rewrite (ok_size b Hok). apply lift_p_lt. Qed.

Lemma lift_nth_ne q : q <> p -> nth_error fs1 q = nth_error (fields b) q.
Proof. intros H. apply nth_set_nth_ne. congruence. Qed.

Lemma lift_stack_p s' : stack_at fs1 p = Some s' -> s' = below.
Proof.
  intros H. apply stack_at_nth in H. rewrite lift_nth_p in H.
  inversion H as [E]. now apply stack_or_none_stack in E.
Qed.

Lemma lift_stack_below d : In d below -> stack_at fs1 p = Some below.
Proof.
  intros H. apply stack_at_nth. rewrite lift_nth_p.
  f_equal. eapply stack_or_none_in; eauto.
Qed.

Lemma lift_stack_ne q : q <> p -> stack_at fs1 q = stack_at (fields b) q.
Proof. intros H. unfold stack_at. now rewrite lift_nth_ne. Qed.

Lemma lift_jump_at q : jump_at fs1 q = jump_at (fields b) q.
Proof.
  unfold jump_at. destruct (Nat.eq_dec q p) as [->|N].
  - rewrite lift_nth_p. apply stack_at_nth in Hs. rewrite Hs.
    now destruct below.
  - now rewrite lift_nth_ne.
Qed.

(** The staying camels of any field keep their stack. *)
Lemma lift_stays q s' d :
  stack_at (fields b) q = Some s' -> In d s' -> ~ In d carried ->
  exists s'', stack_at fs1 q = Some s'' /\ In d s''.
Proof.
  intros H Hin N. destruct (Nat.eq_dec q p) as [->|D].
  - rewrite Hs in H. inversion H; subst s'.
    exists below. split; [|now apply lift_rest].
    apply lift_stack_below with d. now apply lift_rest.
  - exists s'. now rewrite lift_stack_ne.
Qed.

(** The stacks left after the lift hold camels recorded there, none of
    them carried. *)
Lemma lift_left q s' d :
  stack_at fs1 q = Some s' -> In d s' ->
  pos_of b d = Some (Z.of_nat q) /\ ~ In d carried /\ NoDup s'.
Proof.
  intros H Hin. destruct (Nat.eq_dec q p) as [->|D].
  - apply lift_stack_p in H. subst s'. repeat split.
    + apply lift_pos. now apply lift_below_in.
    + intros F. eapply lift_disjoint; eauto.
    + apply lift_below_nodup.
  - rewrite lift_stack_ne in H by assumption. repeat split.
    + eapply ok_indexed; eauto.
    + intros F. apply lift_carried_in in F. apply lift_pos in F.
      pose proof (ok_indexed b Hok q s' d H Hin) as E.
      rewrite F in E. inversion E. lia.
    + eapply ok_nodup; eauto.
Qed.

(** What a field can receive after the lift. *)
Lemma lift_occupants e f old d :
  nth_error fs1 e = Some f -> occupants f = Some old -> In d old ->
  stack_at fs1 e = Some old.
Proof.
  intros Hn Ho Hin. apply stack_at_nth. rewrite Hn.
  destruct f; simpl in Ho; inversion Ho; subst; auto. contradiction.
Qed.

Lemma lift_occupants_stack e f old s' :
  nth_error fs1 e = Some f -> occupants f = Some old ->
  stack_at fs1 e = Some s' -> s' = old.
Proof.
  intros Hn Ho H. apply stack_at_nth in H. rewrite Hn in H.
  inversion H; subst. simpl in Ho. congruence.
Qed.

(** The group has left the track: the board without it. *)
Lemma lift_finished_ok k :
  BOARD_SIZE <= Z.of_nat p + k ->
  board_ok (mkBoard fs1 (bump (index b) carried k)).
Proof.
  intros Hk.
  constructor; unfold on_its_field, stacks_indexed, stacks_nodup, pos_of; simpl.
  - apply lift_length.
  - rewrite keys_bump. apply Hok.
  - intros d v Hd Hv. unfold pos_of in Hd. simpl in Hd.
    destruct (in_dec Camel_eq_dec d carried) as [I|N].
    + rewrite (get_bump_in _ _ _ _ _ I (lift_pos d (lift_carried_in d I))) in Hd.
      inversion Hd. lia.
    + rewrite get_bump_out in Hd by assumption.
      destruct (ok_on_field b Hok d v Hd Hv) as (q & s' & -> & Hq & Hin).
      destruct (lift_stays q s' d Hq Hin N) as (s'' & H1 & H2).
      exists q, s''. auto.
  - intros q s' d Hq Hin. unfold pos_of. simpl.
    destruct (lift_left q s' d Hq Hin) as (H1 & H2 & _).
    now rewrite get_bump_out.
  - intros q s' Hq. simpl in Hq.
    destruct s' as [|d t]; [constructor|].
    eapply (lift_left q (d :: t) d); eauto. now left.
Qed.

(** The group has come down on field [e]: the stack there holds it
    together with what stood there. *)
Lemma lift_landed_ok k e f old new :
  Z.of_nat e = Z.of_nat p + k ->
  nth_error fs1 e = Some f -> occupants f = Some old ->
  Permutation new (carried ++ old) ->
  board_ok (mkBoard (set_nth fs1 e (CamelStack new)) (bump (index b) carried k)).
Proof.
  intros He Hn Ho Hperm.
  assert (Hlt : (e < length fs1)%nat) by (apply nth_error_Some; congruence).
  assert (Hnew : forall d, In d new <-> In d carried \/ In d old).
  { intros d. split; intros H.
    - apply (Permutation_in _ Hperm) in H. now apply in_app_or.
    - apply (Permutation_in _ (Permutation_sym Hperm)). now apply in_or_app. }
  constructor; unfold on_its_field, stacks_indexed, stacks_nodup, pos_of; simpl.
  - rewrite length_set_nth. apply lift_length.
  - rewrite keys_bump. apply Hok.
  - intros d v Hd Hv. unfold pos_of in Hd. simpl in Hd.
    destruct (in_dec Camel_eq_dec d carried) as [I|N].
    + rewrite (get_bump_in _ _ _ _ _ I (lift_pos d (lift_carried_in d I))) in Hd.
      inversion Hd. exists e, new. repeat split; [lia | | apply Hnew; auto].
      now apply stack_at_set_eq.
    + rewrite get_bump_out in Hd by assumption.
      destruct (ok_on_field b Hok d v Hd Hv) as (q & s' & -> & Hq & Hin).
      destruct (lift_stays q s' d Hq Hin N) as (s'' & H1 & H2).
      destruct (Nat.eq_dec e q) as [->|D].
      * exists q, new. repeat split; [now apply stack_at_set_eq|].
        apply Hnew. right.
        now rewrite <- (lift_occupants_stack q f old s'' Hn Ho H1).
      * exists q, s''. repeat split; auto. now rewrite stack_at_set_ne.
  - intros q s' d Hq Hin. unfold pos_of. simpl.
    destruct (Nat.eq_dec e q) as [->|D].
    + rewrite stack_at_set_eq in Hq by assumption. inversion Hq; subst s'.
      apply Hnew in Hin. destruct Hin as [I|I].
      * rewrite (get_bump_in _ _ _ _ _ I (lift_pos d (lift_carried_in d I))).
        f_equal. lia.
      * pose proof (lift_occupants q f old d Hn Ho I) as Hst.
        destruct (lift_left q old d Hst I) as (H1 & H2 & _).
        now rewrite get_bump_out.
    + rewrite stack_at_set_ne in Hq by assumption.
      destruct (lift_left q s' d Hq Hin) as (H1 & H2 & _).
      now rewrite get_bump_out.
  - intros q s' Hq. simpl in Hq.
    destruct (Nat.eq_dec e q) as [->|D].
    + rewrite stack_at_set_eq in Hq by assumption. inversion Hq; subst s'.
      apply (Permutation_NoDup (Permutation_sym Hperm)).
      apply NoDup_app.
      * apply lift_carried_nodup.
      * destruct old as [|d t]; [constructor|].
        eapply (lift_left q (d :: t) d); [|now left].
        eapply lift_occupants; eauto. now left.
      * intros d I1 I2.
        pose proof (lift_occupants q f old d Hn Ho I2) as Hst.
        destruct (lift_left q old d Hst I2) as (_ & H2 & _). contradiction.
    + rewrite stack_at_set_ne in Hq by assumption.
      destruct s' as [|d t]; [constructor|].
      eapply (lift_left q (d :: t) d); eauto. now left.
Qed.
End Lift.

(* ================================================================= *)
(** ** The code of [apply_move], branch by branch                      *)
(* ================================================================= *)

Lemma merge_top_ok fs e f old ms :
  nth_error fs e = Some f -> occupants f = Some old ->
  merge_top fs (Z.of_nat e) ms = Ok (set_nth fs e (CamelStack (old ++ ms))).
Proof.
  intros Hn Ho. unfold merge_top. rewrite (getitem_nat _ _ _ Hn). simpl.
  assert (e < length fs)%nat by (apply nth_error_Some; congruence).
  destruct f; simpl in Ho; inversion Ho; subst; now rewrite setitem_nat.
Qed.

Lemma merge_top_jump fs e jt o ms :
  nth_error fs e = Some (JumpField jt o) ->
  merge_top fs (Z.of_nat e) ms = Raise TypeError.
Proof. intros Hn. unfold merge_top. now rewrite (getitem_nat _ _ _ Hn). Qed.

Lemma merge_beneath_ok fs e f old ms :
  nth_error fs e = Some f -> occupants f = Some old ->
  merge_beneath fs (Z.of_nat e) ms = Ok (set_nth fs e (CamelStack (ms ++ old))).
Proof.
  intros Hn Ho. unfold merge_beneath. rewrite (getitem_nat _ _ _ Hn). simpl.
  assert (e < length fs)%nat by (apply nth_error_Some; congruence).
  destruct f; simpl in Ho; inversion Ho; subst; rewrite setitem_nat; auto.
  now rewrite app_nil_r.
Qed.

Lemma merge_beneath_jump fs e jt o ms :
  nth_error fs e = Some (JumpField jt o) ->
  merge_beneath fs (Z.of_nat e) ms = Raise TypeError.
Proof. intros Hn. unfold merge_beneath. now rewrite (getitem_nat _ _ _ Hn). Qed.

Section Land.
Variables (fs : list BoardField) (idx : CamelIndex) (ms : list Camel).
Hypothesis (Hdict : NoDup (keys idx)).
Hypothesis (Hms : NoDup ms).
Hypothesis (Hkeys : incl ms (keys idx)).

Lemma land_finish (e : Z) :
  BOARD_SIZE <= e -> land fs idx ms e = Ok (mkBoard fs idx, None, Some ms).
Proof.
  intros H. unfold land.
  now replace (BOARD_SIZE <=? e) with true by (symmetry; now apply Z.leb_le).
Qed.

Lemma land_on_track (e : nat) :
  (e < 16)%nat ->
  land fs idx ms (Z.of_nat e) =
  dest_field <- getitem fs (Z.of_nat e) ;;
  match dest_field with
  | JumpField jt owner =>
      idx' <- shift_index idx ms (jump_value jt) ;;
      if BOARD_SIZE <=? Z.of_nat e + jump_value jt
      then Ok (mkBoard fs idx', owner, Some ms)
      else if jump_value jt =? -1 then
        fs' <- merge_beneath fs (Z.of_nat e + jump_value jt) ms ;;
        Ok (mkBoard fs' idx', owner, None)
      else
        fs' <- merge_top fs (Z.of_nat e + jump_value jt) ms ;;
        Ok (mkBoard fs' idx', owner, None)
  | _ =>
      fs' <- merge_top fs (Z.of_nat e) ms ;;
      Ok (mkBoard fs' idx, None, None)
  end.
Proof.
  intros H. unfold land.
  now replace (BOARD_SIZE <=? Z.of_nat e) with false
    by (symmetry; apply Z.leb_gt; unfold BOARD_SIZE; lia).
Qed.

Lemma land_plain (e : nat) f old :
  (e < 16)%nat -> nth_error fs e = Some f -> occupants f = Some old ->
  land fs idx ms (Z.of_nat e) =
  Ok (mkBoard (set_nth fs e (CamelStack (old ++ ms))) idx, None, None).
Proof.
  intros H Hn Ho. rewrite land_on_track by assumption.
  rewrite (getitem_nat _ _ _ Hn). simpl.
  destruct f; simpl in Ho; try discriminate;
    now rewrite (merge_top_ok _ _ _ _ _ Hn Ho).
Qed.

Lemma land_forward_finish o :
  nth_error fs 15 = Some (JumpField Forward o) ->
  land fs idx ms 15 = Ok (mkBoard fs (bump idx ms 1), o, Some ms).
Proof.
  intros Hn. change 15 with (Z.of_nat 15). rewrite land_on_track by lia.
  rewrite (getitem_nat _ _ _ Hn). simpl.
  now rewrite shift_index_bump.
Qed.

Lemma land_forward (e : nat) o f :
  (S e < 16)%nat -> nth_error fs e = Some (JumpField Forward o) ->
  nth_error fs (S e) = Some f ->
  land fs idx ms (Z.of_nat e) =
  match occupants f with
  | Some old =>
      Ok (mkBoard (set_nth fs (S e) (CamelStack (old ++ ms))) (bump idx ms 1), o, None)
  | None => Raise TypeError
  end.
Proof.
  intros H Hn Hf. rewrite land_on_track by lia.
  rewrite (getitem_nat _ _ _ Hn). cbn [bind jump_value].
  rewrite shift_index_bump by assumption. cbn [bind].
  replace (BOARD_SIZE <=? Z.of_nat e + 1) with false
    by (symmetry; apply Z.leb_gt; unfold BOARD_SIZE; lia).
  change (1 =? -1) with false. cbn iota.
  replace (Z.of_nat e + 1) with (Z.of_nat (S e)) by lia.
  destruct (occupants f) as [old|] eqn:Ho.
  - now rewrite (merge_top_ok _ _ _ _ _ Hf Ho).
  - destruct f; simpl in Ho; try discriminate.
    now rewrite (merge_top_jump _ _ _ _ _ Hf).
Qed.

Lemma land_backward (e : nat) o f :
  (S e < 16)%nat -> nth_error fs (S e) = Some (JumpField Backwards o) ->
  nth_error fs e = Some f ->
  land fs idx ms (Z.of_nat (S e)) =
  match occupants f with
  | Some old =>
      Ok (mkBoard (set_nth fs e (CamelStack (ms ++ old))) (bump idx ms (-1)), o, None)
  | None => Raise TypeError
  end.
Proof.
  intros H Hn Hf. rewrite land_on_track by lia.
  rewrite (getitem_nat _ _ _ Hn). cbn [bind jump_value].
  rewrite shift_index_bump by assumption. cbn [bind].
  replace (BOARD_SIZE <=? Z.of_nat (S e) + -1) with false
    by (symmetry; apply Z.leb_gt; unfold BOARD_SIZE; lia).
  change (-1 =? -1) with true. cbn iota.
  replace (Z.of_nat (S e) + -1) with (Z.of_nat e) by lia.
  destruct (occupants f) as [old|] eqn:Ho.
  - now rewrite (merge_beneath_ok _ _ _ _ _ Hf Ho).
  - destruct f; simpl in Ho; try discriminate.
    now rewrite (merge_beneath_jump _ _ _ _ _ Hf).
Qed.
End Land.

(** A camel on the track: the code up to the landing. *)
Lemma later_move_lift b c st p s h :
  board_ok b -> stack_at (fields b) p = Some s ->
  find_index Camel_eq_dec s c = Some h ->
  later_move b (mkMove c st) (Z.of_nat p) =
  land (set_nth (fields b) p (stack_or_none (firstn h s)))
       (bump (index b) (skipn h s) st) (skipn h s) (Z.of_nat p + st).
Proof.
  intros Hok Hs Hh. unfold later_move.
  pose proof Hs as Hn. apply stack_at_nth in Hn.
  rewrite (getitem_nat _ _ _ Hn). cbn [bind field_index camel steps].
  unfold list_index. rewrite Hh. cbn [bind].
  rewrite setitem_nat by (eapply stack_at_lt; eauto). cbn [bind].
  rewrite shift_index_bump.
  - reflexivity.
  - apply Hok.
  - eapply lift_carried_nodup; eauto.
  - eapply lift_carried_keys; eauto.
Qed.

Lemma apply_move_body_later b c st p :
  pos_of b c = Some p ->
  apply_move_body b (mkMove c st) = later_move b (mkMove c st) p.
Proof. unfold pos_of, apply_move_body. simpl. now intros ->. Qed.

Lemma apply_move_body_first b c st :
  pos_of b c = None ->
  apply_move_body b (mkMove c st) = first_move b (mkMove c st).
Proof. unfold pos_of, apply_move_body. simpl. now intros ->. Qed.

(** The decorator: a result whose board is in order is handed back. *)
Lemma apply_move_validated b m r :
  apply_move_body b m = Ok r -> board_ok (fst (fst r)) -> apply_move b m = Ok r.
Proof.
  intros H Hok. unfold apply_move. rewrite H. cbn [bind].
  rewrite validate_board_ok; [reflexivity | apply Hok | apply Hok].
Qed.

Lemma apply_move_inv b m r : apply_move b m = Ok r -> apply_move_body b m = Ok r.
Proof.
  unfold apply_move. destruct (apply_move_body b m) as [r'|e]; simpl; [|discriminate].
  destruct (validate_board (fst (fst r'))); simpl; congruence.
Qed.

Lemma apply_move_raise b m e : apply_move_body b m = Raise e -> apply_move b m = Raise e.
Proof. unfold apply_move. now intros ->. Qed.

Lemma jump_shift_nat fs (e : nat) :
  (e < 16)%nat ->
  jump_shift fs (Z.of_nat e) =
  match nth_error fs e with
  | Some (JumpField jt _) => jump_value jt
  | _ => 0
  end.
Proof.
  intros H. unfold jump_shift, BOARD_SIZE.
  replace (0 <=? Z.of_nat e) with true by (symmetry; apply Z.leb_le; lia).
  replace (Z.of_nat e <? 16) with true by (symmetry; apply Z.ltb_lt; lia).
  simpl. now rewrite Nat2Z.id.
Qed.

Lemma jump_owner_nat fs (e : nat) :
  (e < 16)%nat ->
  jump_owner fs (Z.of_nat e) =
  match nth_error fs e with
  | Some (JumpField _ o) => o
  | _ => None
  end.
Proof.
  intros H. unfold jump_owner, BOARD_SIZE.
  replace (0 <=? Z.of_nat e) with true by (symmetry; apply Z.leb_le; lia).
  replace (Z.of_nat e <? 16) with true by (symmetry; apply Z.ltb_lt; lia).
  simpl. now rewrite Nat2Z.id.
Qed.

Lemma jump_shift_high fs (e : Z) : BOARD_SIZE <= e -> jump_shift fs e = 0.
Proof.
  intros H. unfold jump_shift.
  replace (e <? BOARD_SIZE) with false by (symmetry; now apply Z.ltb_ge).
  now rewrite andb_false_r.
Qed.

Lemma jump_owner_high fs (e : Z) : BOARD_SIZE <= e -> jump_owner fs e = None.
Proof.
  intros H. unfold jump_owner.
  replace (e <? BOARD_SIZE) with false by (symmetry; now apply Z.ltb_ge).
  now rewrite andb_false_r.
Qed.

Lemma jump_shift_range fs (e : Z) : -1 <= jump_shift fs e <= 1.
Proof.
  unfold jump_shift. destruct (_ && _); [|lia].
  destruct (nth_error fs (Z.to_nat e)) as [[| |[|] ?]|]; simpl; lia.
Qed.

(** Every outcome of the code for a camel on the track of a board in
    order: the group leaves the track, or comes down on a field that
    receives it, or meets a second jump next to the first. *)
Lemma later_cases b c st p s h :
  board_ok b -> pos_of b c = Some (Z.of_nat p) ->
  stack_at (fields b) p = Some s ->
  find_index Camel_eq_dec s c = Some h -> 1 <= st <= 3 ->
  let carried := skipn h s in
  let fs1 := set_nth (fields b) p (stack_or_none (firstn h s)) in
  let e := final_landing b (Z.of_nat p) st in
  let sh := jump_shift (fields b) (Z.of_nat p + st) in
  let o := jump_owner (fields b) (Z.of_nat p + st) in
  let idx' := bump (index b) carried (e - Z.of_nat p) in
  (BOARD_SIZE <= e /\
   apply_move_body b (mkMove c st) = Ok (mkBoard fs1 idx', o, Some carried)) \/
  (exists q f, e = Z.of_nat q /\ (q < 16)%nat /\ nth_error fs1 q = Some f /\
     match occupants f with
     | Some old =>
         apply_move_body b (mkMove c st) =
         Ok (mkBoard (set_nth fs1 q
                        (CamelStack (if sh =? -1 then carried ++ old
                                     else old ++ carried)))
                     idx', o, None)
     | None =>
         (exists e0, (q = S e0 \/ e0 = S q) /\
            jump_at (fields b) e0 = true /\ jump_at (fields b) q = true) /\
         apply_move_body b (mkMove c st) = Raise TypeError
     end).
Proof.
  intros Hok Hp Hs Hh Hst carried fs1 e sh o idx'.
  pose proof (lift_p_lt b p s Hok Hs) as Hplt.
  pose proof (lift_length b p h s Hok) as Hlen. fold fs1 in Hlen.
  rewrite (apply_move_body_later _ _ _ _ Hp).
  rewrite (later_move_lift _ _ _ _ _ _ Hok Hs Hh). fold carried fs1.
  assert (Hd : NoDup (keys (bump (index b) carried st)))
    by (rewrite keys_bump; apply Hok).
  assert (Hms : NoDup carried) by (eapply lift_carried_nodup; eauto).
  assert (Hk : incl carried (keys (bump (index b) carried st)))
    by (rewrite keys_bump; eapply lift_carried_keys; eauto).
  set (e0 := (p + Z.to_nat st)%nat).
  assert (He0 : Z.of_nat p + st = Z.of_nat e0) by (unfold e0; lia).
  assert (Hne : e0 <> p) by (unfold e0; lia).
  unfold idx', e, sh, o, final_landing. rewrite He0.
  destruct (le_lt_dec 16 e0) as [Hge|Hlt].
  - left. rewrite jump_shift_high, jump_owner_high by (unfold BOARD_SIZE; lia).
    rewrite land_finish by (unfold BOARD_SIZE; lia).
    split; [unfold BOARD_SIZE; lia|].
    now replace (Z.of_nat e0 + 0 - Z.of_nat p) with st by lia.
  - rewrite jump_shift_nat, jump_owner_nat by assumption.
    destruct (nth_error_in_range (fields b) e0) as [f0 Hf0];
      [rewrite (ok_size b Hok); lia|].
    assert (Hf1 : nth_error fs1 e0 = Some f0).
    { unfold fs1. rewrite nth_set_nth_ne; auto. }
    rewrite Hf0.
    destruct f0 as [|s0|[|] ow].
    + right. exists e0, EmptyField. repeat split; [lia | assumption | assumption |].
      cbn [occupants]. rewrite (land_plain _ _ _ e0 EmptyField []); auto.
      change (0 =? -1) with false. cbn iota.
      now replace (Z.of_nat e0 + 0 - Z.of_nat p) with st by lia.
    + right. exists e0, (CamelStack s0). repeat split; [lia | assumption | assumption |].
      cbn [occupants]. rewrite (land_plain _ _ _ e0 (CamelStack s0) s0); auto.
      change (0 =? -1) with false. cbn iota.
      now replace (Z.of_nat e0 + 0 - Z.of_nat p) with st by lia.
    + cbn [jump_value].
      replace (Z.of_nat e0 + 1 - Z.of_nat p) with (st + 1) by lia.
      rewrite <- bump_bump.
      destruct (Nat.eq_dec e0 15) as [E15|N15].
      * left. split; [unfold BOARD_SIZE; lia|].
        rewrite E15 in *. change (Z.of_nat 15) with 15.
        now rewrite (land_forward_finish _ _ _ Hd Hms Hk ow).
      * right. destruct (nth_error_in_range fs1 (S e0)) as [f Hf]; [lia|].
        exists (S e0), f. repeat split; [lia | lia | assumption |].
        rewrite (land_forward _ _ _ Hd Hms Hk e0 ow f) by (auto; lia).
        change (1 =? -1) with false. cbn iota.
        destruct (occupants f) eqn:Ho; auto.
        split; auto. exists e0. repeat split; auto.
        -- unfold jump_at. now rewrite Hf0.
        -- rewrite <- (lift_jump_at b p h s Hok Hs). fold fs1.
           unfold jump_at. rewrite Hf. now destruct f.
    + cbn [jump_value].
      replace (Z.of_nat e0 + -1 - Z.of_nat p) with (st + -1) by lia.
      rewrite <- bump_bump.
      destruct e0 as [|e1]; [lia|].
      right. destruct (nth_error_in_range fs1 e1) as [f Hf]; [lia|].
      exists e1, f. repeat split; [lia | lia | assumption |].
      rewrite (land_backward _ _ _ Hd Hms Hk e1 ow f) by (auto; lia).
      change (-1 =? -1) with true. cbn iota.
      destruct (occupants f) eqn:Ho; auto.
      split; auto. exists (S e1). repeat split; auto.
      -- unfold jump_at. now rewrite Hf0.
      -- rewrite <- (lift_jump_at b p h s Hok Hs). fold fs1.
         unfold jump_at. rewrite Hf. now destruct f.
Qed.

Lemma jump_at_set_stack fs q f old new :
  nth_error fs q = Some f -> occupants f = Some old ->
  forall q', jump_at (set_nth fs q (CamelStack new)) q' = jump_at fs q'.
Proof.
  intros Hn Ho q'. unfold jump_at. destruct (Nat.eq_dec q q') as [<-|N].
  - rewrite nth_set_nth_eq by (apply nth_error_Some; congruence).
    rewrite Hn. now destruct f.
  - now rewrite nth_set_nth_ne.
Qed.

(** The first move of a camel: it is put on top of field [steps - 1], or
    the code stops on the jump it finds there. *)
Lemma first_cases b c st :
  board_ok b -> pos_of b c = None -> 1 <= st <= 3 ->
  exists f, nth_error (fields b) (Z.to_nat (st - 1)) = Some f /\
    match occupants f with
    | Some old =>
        apply_move_body b (mkMove c st) =
        Ok (mkBoard (set_nth (fields b) (Z.to_nat (st - 1)) (CamelStack (old ++ [c])))
                    (dict_set Camel_eq_dec (index b) c (st - 1)),
            None, None)
    | None => apply_move_body b (mkMove c st) = Raise (AssertionError "Jump at start")
    end.
Proof.
  intros Hok Hp Hst. rewrite (apply_move_body_first _ _ _ Hp).
  remember (Z.to_nat (st - 1)) as n eqn:En.
  assert (E : st - 1 = Z.of_nat n) by lia.
  destruct (nth_error_in_range (fields b) n) as [f Hf];
    [rewrite (ok_size b Hok); lia|].
  exists f. split; auto. unfold first_move. cbn [camel steps]. rewrite E.
  rewrite (getitem_nat _ _ _ Hf). cbn [bind].
  assert (n < length (fields b))%nat by (apply nth_error_Some; congruence).
  destruct f; cbn [occupants]; auto; now rewrite setitem_nat.
Qed.

Lemma first_ok b c (q : nat) f old :
  board_ok b -> pos_of b c = None ->
  nth_error (fields b) q = Some f -> occupants f = Some old ->
  board_ok (mkBoard (set_nth (fields b) q (CamelStack (old ++ [c])))
                    (dict_set Camel_eq_dec (index b) c (Z.of_nat q))).
Proof.
  intros Hok Hp Hf Ho.
  assert (Hlt : (q < length (fields b))%nat) by (apply nth_error_Some; congruence).
  assert (Hold : forall d, In d old -> stack_at (fields b) q = Some old).
  { intros d Hd. apply stack_at_nth. rewrite Hf.
    destruct f; simpl in Ho; inversion Ho; subst; auto. contradiction. }
  assert (Hc : forall q' s', stack_at (fields b) q' = Some s' -> ~ In c s').
  { intros q' s' Hs' F. pose proof (ok_indexed b Hok q' s' c Hs' F). congruence. }
  assert (Habs : ~ In c (keys (index b))) by (now apply (dict_get_None Camel_eq_dec)).
  constructor; unfold on_its_field, stacks_indexed, stacks_nodup, pos_of; simpl.
  - rewrite length_set_nth. apply Hok.
  - rewrite keys_set_absent by assumption.
    apply NoDup_app; [apply Hok | repeat constructor; tauto |].
    intros a Ha [<-|[]]. contradiction.
  - intros d v Hd Hv. destruct (Camel_eq_dec c d) as [<-|N].
    + rewrite dict_get_set_eq in Hd. inversion Hd.
      exists q, (old ++ [c]). repeat split.
      * now apply stack_at_set_eq.
      * apply in_or_app. right. now left.
    + rewrite dict_get_set_ne in Hd by assumption.
      destruct (ok_on_field b Hok d v Hd Hv) as (q' & s' & -> & Hq & Hin).
      destruct (Nat.eq_dec q q') as [<-|D].
      * exists q, (old ++ [c]). repeat split; [now apply stack_at_set_eq|].
        apply in_or_app. left. apply stack_at_nth in Hq. rewrite Hf in Hq.
        inversion Hq; subst. simpl in Ho. congruence.
      * exists q', s'. repeat split; auto. now rewrite stack_at_set_ne.
  - intros q' s' d Hq Hin. destruct (Nat.eq_dec q q') as [<-|D].
    + rewrite stack_at_set_eq in Hq by assumption. inversion Hq; subst s'.
      apply in_app_or in Hin. destruct Hin as [I|[<-|[]]].
      * rewrite dict_get_set_ne.
        -- eapply (ok_indexed b Hok); eauto.
        -- intros <-. eapply Hc; eauto.
      * apply dict_get_set_eq.
    + rewrite stack_at_set_ne in Hq by assumption.
      rewrite dict_get_set_ne.
      * eapply (ok_indexed b Hok); eauto.
      * intros <-. eapply Hc; eauto.
  - intros q' s' Hq. destruct (Nat.eq_dec q q') as [<-|D].
    + rewrite stack_at_set_eq in Hq by assumption. inversion Hq; subst s'.
      apply NoDup_app.
      * destruct old as [|d t]; [constructor|].
        eapply (ok_nodup b Hok). apply (Hold d). now left.
      * repeat constructor. tauto.
      * intros a Ha [<-|[]]. eapply Hc; eauto.
    + rewrite stack_at_set_ne in Hq by assumption.
      eapply (ok_nodup b Hok); eauto.
Qed.

(** Whatever the code hands back for a camel on the track is in order,
    and the jumps have not moved. *)
Lemma later_result_ok b c st p s h r :
  board_ok b -> pos_of b c = Some (Z.of_nat p) ->
  stack_at (fields b) p = Some s ->
  find_index Camel_eq_dec s c = Some h -> 1 <= st <= 3 ->
  apply_move_body b (mkMove c st) = Ok r ->
  board_ok (fst (fst r)) /\
  forall q, jump_at (fields (fst (fst r))) q = jump_at (fields b) q.
Proof.
  intros Hok Hp Hs Hh Hst Hr.
  destruct (later_cases b c st p s h Hok Hp Hs Hh Hst)
    as [[Hge E]|(q & f & Hq & Hlt & Hf & E)].
  - rewrite E in Hr. inversion Hr; subst r. cbn [fst fields]. split.
    + apply lift_finished_ok; auto.
      unfold final_landing in *. lia.
    + intros q. now apply lift_jump_at.
  - destruct (occupants f) as [old|] eqn:Ho.
    + rewrite E in Hr. inversion Hr; subst r. cbn [fst fields]. split.
      * eapply lift_landed_ok with (f := f) (old := old); eauto; [lia|].
        destruct (_ =? -1); [apply Permutation_refl | apply Permutation_app_comm].
      * intros q'. rewrite (jump_at_set_stack _ _ _ _ _ Hf Ho).
        now apply lift_jump_at.
    + destruct E as [_ E]. congruence.
Qed.

Lemma first_result_ok b c st r :
  board_ok b -> pos_of b c = None -> 1 <= st <= 3 ->
  apply_move_body b (mkMove c st) = Ok r ->
  board_ok (fst (fst r)) /\
  forall q, jump_at (fields (fst (fst r))) q = jump_at (fields b) q.
Proof.
  intros Hok Hp Hst Hr.
  destruct (first_cases b c st Hok Hp Hst) as (f & Hf & E).
  destruct (occupants f) as [old|] eqn:Ho; [|congruence].
  remember (Z.to_nat (st - 1)) as n eqn:En.
  assert (E' : st - 1 = Z.of_nat n) by lia. rewrite E' in E.
  rewrite E in Hr. inversion Hr; subst r. cbn [fst fields]. split.
  - eapply first_ok; eauto.
  - intros q. now rewrite (jump_at_set_stack _ _ _ _ _ Hf Ho).
Qed.

(** A camel of the index below 16 has its stack and a height in it. *)
Lemma on_track_stack b c p :
  board_ok b -> pos_of b c = Some p -> p < BOARD_SIZE ->
  exists q s h, p = Z.of_nat q /\ stack_at (fields b) q = Some s /\
    find_index Camel_eq_dec s c = Some h.
Proof.
  intros Hok Hp Hlt.
  destruct (ok_on_field b Hok c p Hp Hlt) as (q & s & -> & Hs & Hin).
  destruct (find_index_In Camel_eq_dec s c Hin) as [h Hh].
  exists q, s, h. auto.
Qed.

(** A camel recorded at 16 or beyond has no field to be lifted from. *)
Lemma finished_move_raises b c st p :
  length (fields b) = 16%nat -> pos_of b c = Some p -> BOARD_SIZE <= p ->
  apply_move b (mkMove c st) = Raise IndexError.
Proof.
  intros Hlen Hp Hge. apply apply_move_raise.
  rewrite (apply_move_body_later _ _ _ _ Hp). unfold later_move.
  rewrite getitem_high; auto. rewrite Hlen. unfold BOARD_SIZE in Hge. lia.
Qed.

(** Moves keep boards in order. *)
Lemma apply_move_keeps_ok b c st r :
  board_ok b -> 1 <= st <= 3 -> apply_move b (mkMove c st) = Ok r ->
  board_ok (fst (fst r)) /\
  forall q, jump_at (fields (fst (fst r))) q = jump_at (fields b) q.
Proof.
  intros Hok Hst Hr.
  destruct (pos_of b c) as [p|] eqn:Hp.
  - destruct (Z_lt_le_dec p BOARD_SIZE) as [Hlt|Hge].
    + destruct (on_track_stack b c p Hok Hp Hlt) as (q & s & h & -> & Hs & Hh).
      eapply later_result_ok; eauto. now apply apply_move_inv.
    + rewrite (finished_move_raises b c st p) in Hr; auto; [discriminate|apply Hok].
  - eapply first_result_ok; eauto. now apply apply_move_inv.
Qed.

(* ================================================================= *)
(** ** The decision procedures are sound                               *)
(* ================================================================= *)

Lemma nodupb_sound s : nodupb s = true -> NoDup s.
Proof.
  induction s as [|c t IH]; simpl; intros H; constructor;
    apply andb_true_iff in H; destruct H as [H1 H2]; auto.
  apply negb_true_iff in H1. now apply mem_camel_false.
Qed.

Lemma dict_get_In {K V : Type} (eq_dec : forall x y : K, {x = y} + {x <> y})
    (d : list (K * V)) k v :
  dict_get eq_dec d k = Some v -> In (k, v) d.
Proof.
  induction d as [|[k' v'] t IH]; simpl; [discriminate|].
  destruct (eq_dec k' k) as [->|]; intros H; [inversion H; auto | auto].
Qed.

Lemma numbered_from_In {A : Type} (l : list A) (a q : nat) (x : A) :
  nth_error l q = Some x -> In ((a + q)%nat, x) (combine (seq a (length l)) l).
Proof.
  revert a q. induction l as [|y t IH]; intros a [|q] H; simpl in *; try discriminate.
  - inversion H. left. f_equal. lia.
  - right. replace (a + S q)%nat with (S a + q)%nat by lia. now apply IH.
Qed.

Lemma numbered_In {A : Type} (l : list A) (q : nat) (x : A) :
  nth_error l q = Some x -> In (q, x) (numbered l).
Proof. intros H. apply (numbered_from_In l 0 q x H). Qed.

Lemma board_okb_sound b : board_okb b = true -> board_ok b.
Proof.
  unfold board_okb. rewrite !andb_true_iff. intros [[[H1 H2] H3] H4].
  rewrite forallb_forall in H3, H4.
  assert (Hi : stacks_indexed b).
  { intros q s c Hs Hin. apply stack_at_nth in Hs. apply numbered_In in Hs.
    specialize (H4 _ Hs). unfold check_field in H4. simpl in H4.
    apply andb_true_iff in H4. destruct H4 as [_ H4].
    rewrite forallb_forall in H4. specialize (H4 c Hin). unfold pos_of.
    destruct (dict_get Camel_eq_dec (index b) c); [|discriminate].
    apply Z.eqb_eq in H4. congruence. }
  constructor; auto.
  - now apply Nat.eqb_eq.
  - now apply nodupb_sound.
  - intros c p Hc Hp. apply dict_get_In in Hc. specialize (H3 _ Hc).
    unfold check_item in H3. simpl in H3.
    apply orb_true_iff in H3. destruct H3 as [H3|H3];
      [apply Z.leb_le in H3; lia|].
    apply andb_true_iff in H3. destruct H3 as [H0 H3]. apply Z.leb_le in H0.
    destruct (stack_at (fields b) (Z.to_nat p)) as [s|] eqn:Hs; [|discriminate].
    exists (Z.to_nat p), s. repeat split; auto; [lia|]. now apply mem_camel_true.
  - intros q s Hs. apply stack_at_nth in Hs. apply numbered_In in Hs.
    specialize (H4 _ Hs). unfold check_field in H4. simpl in H4.
    apply andb_true_iff in H4. apply nodupb_sound. tauto.
Qed.

Lemma no_adjacent_jumpsb_sound b : no_adjacent_jumpsb b = true -> no_adjacent_jumps b.
Proof.
  unfold no_adjacent_jumpsb. rewrite forallb_forall. intros H q Hq.
  assert (Hlt : (q < length (fields b))%nat).
  { unfold jump_at in Hq. destruct (nth_error (fields b) q) eqn:E; [|discriminate].
    apply nth_error_Some. congruence. }
  specialize (H q). rewrite in_seq in H. specialize (H ltac:(lia)).
  rewrite Hq in H. simpl in H. now apply negb_true_iff.
Qed.

Lemma well_formedb_sound b : well_formedb b = true -> well_formed b.
Proof.
  unfold well_formedb. rewrite andb_true_iff. intros [H1 H2]. split.
  - now apply board_okb_sound.
  - now apply no_adjacent_jumpsb_sound.
Qed.

Lemma all_on_trackb_sound b : all_on_trackb b = true -> all_on_track b.
Proof.
  unfold all_on_trackb. rewrite forallb_forall. intros H c.
  specialize (H c). destruct (pos_of b c) as [p|].
  - exists p. split; auto. apply Z.ltb_lt. apply H. destruct c; simpl; tauto.
  - exfalso. assert (false = true); [apply H; destruct c; simpl; tauto | discriminate].
Qed.

(* ================================================================= *)
(** ** The move resolver                                               *)
(* ================================================================= *)

Section OnTrack.
Variables (b : Board) (c : Camel) (st : Z) (p h : nat) (s : list Camel).
Hypothesis (Hok : board_ok b).
Hypothesis (Hst : 1 <= st <= 3).
Hypothesis (Hp : pos_of b c = Some (Z.of_nat p)).
Hypothesis (Hs : stack_at (fields b) p = Some s).
Hypothesis (Hh : find_index Camel_eq_dec s c = Some h).

Let carried := skipn h s.
Let lifted := set_nth (fields b) p (stack_or_none (firstn h s)).
Let e := final_landing b (Z.of_nat p) st.
Let sh := jump_shift (fields b) (Z.of_nat p + st).
Let o := jump_owner (fields b) (Z.of_nat p + st).
Let idx' := bump (index b) carried (e - Z.of_nat p).

(** The group leaves the track. *)
Lemma later_finished :
  BOARD_SIZE <= e ->
  apply_move b (mkMove c st) = Ok (mkBoard lifted idx', o, Some carried).
Proof.
  intros Hge.
  destruct (later_cases b c st p s h Hok Hp Hs Hh Hst)
    as [[_ E]|(q & f & Hq & Hlt & _)].
  - apply apply_move_validated; [exact E|].
    eapply later_result_ok; eauto.
  - fold e in Hq. unfold BOARD_SIZE in Hge. lia.
Qed.

(** The group comes down on a field that receives it. *)
Lemma later_landed q f old :
  e = Z.of_nat q -> (q < 16)%nat ->
  nth_error lifted q = Some f -> occupants f = Some old ->
  apply_move b (mkMove c st) =
  Ok (mkBoard (set_nth lifted q
                 (CamelStack (if sh =? -1 then carried ++ old else old ++ carried)))
              idx', o, None).
Proof.
  intros Hq Hlt Hf Ho.
  destruct (later_cases b c st p s h Hok Hp Hs Hh Hst)
    as [[Hge _]|(q' & f' & Hq' & _ & Hf' & E)].
  - fold e in Hge. unfold BOARD_SIZE in Hge. lia.
  - fold e in Hq'. assert (q' = q) by lia. subst q'.
    fold lifted in Hf'. rewrite Hf in Hf'. inversion Hf'; subst f'.
    rewrite Ho in E.
    apply apply_move_validated; [exact E|].
    eapply later_result_ok; eauto.
Qed.

(** On a board without neighbouring jumps one of the two happens. *)
Lemma later_total :
  no_adjacent_jumps b ->
  (BOARD_SIZE <= e /\
   apply_move b (mkMove c st) = Ok (mkBoard lifted idx', o, Some carried)) \/
  (exists q f old, e = Z.of_nat q /\ (q < 16)%nat /\
     nth_error lifted q = Some f /\ occupants f = Some old /\
     apply_move b (mkMove c st) =
     Ok (mkBoard (set_nth lifted q
                    (CamelStack (if sh =? -1 then carried ++ old else old ++ carried)))
                 idx', o, None)).
Proof.
  intros Hadj.
  destruct (later_cases b c st p s h Hok Hp Hs Hh Hst)
    as [[Hge _]|(q & f & Hq & Hlt & Hf & E)].
  - left. split; auto. now apply later_finished.
  - right. destruct (occupants f) as [old|] eqn:Ho.
    + exists q, f, old. repeat split; auto. now apply later_landed with f.
    + exfalso. destruct E as [(e0 & [-> | ->] & J0 & Jq) _].
      * rewrite (Hadj e0 J0) in Jq. discriminate.
      * rewrite (Hadj q Jq) in J0. discriminate.
Qed.
End OnTrack.

(** C1.  On a board in order, a camel on the track moves with all camels
    above it ([carried]).  If its landing field holds a backward jump and
    the field before it holds a stack once the group has left its own
    field, the group goes underneath that stack; if the landing field
    holds a forward jump and the field after it holds a stack, or if the
    landing field itself holds a stack, the group goes on top of that
    stack.  In each case the order inside the group is kept. *)
Theorem backward_jump_merges_beneath_other_landings_on_top
    (b : Board) (c : Camel) (st : Z) (p h : nat) (s : list Camel) :
  board_ok b -> 1 <= st <= 3 ->
  pos_of b c = Some (Z.of_nat p) ->
  stack_at (fields b) p = Some s ->
  find_index Camel_eq_dec s c = Some h ->
  let carried := skipn h s in
  let lifted := set_nth (fields b) p (stack_or_none (firstn h s)) in
  forall (e : nat) (o : Owner) (there : list Camel),
    Z.of_nat (S e) = Z.of_nat p + st -> (S e < 16)%nat ->
    (nth_error (fields b) (S e) = Some (JumpField Backwards o) ->
     stack_at lifted e = Some there ->
     exists b', apply_move b (mkMove c st) = Ok (b', o, None) /\
                stack_at (fields b') e = Some (carried ++ there)) /\
    (nth_error (fields b) (S e) = Some (JumpField Forward o) ->
     stack_at (fields b) (S (S e)) = Some there ->
     exists b', apply_move b (mkMove c st) = Ok (b', o, None) /\
                stack_at (fields b') (S (S e)) = Some (there ++ carried)) /\
    (stack_at (fields b) (S e) = Some there ->
     exists b', apply_move b (mkMove c st) = Ok (b', None, None) /\
                stack_at (fields b') (S e) = Some (there ++ carried)).
Proof.
  intros Hok Hst Hp Hs Hh carried lifted e o there He Hlt.
  pose proof (lift_length b p h s Hok) as Hlen. fold lifted in Hlen.
  assert (Hsh : forall jt ow, nth_error (fields b) (S e) = Some (JumpField jt ow) ->
            jump_shift (fields b) (Z.of_nat p + st) = jump_value jt /\
            jump_owner (fields b) (Z.of_nat p + st) = ow).
  { intros jt ow Hj. rewrite <- He.
    rewrite jump_shift_nat, jump_owner_nat by assumption. now rewrite Hj. }
  repeat split.
  - intros Hj Ht. destruct (Hsh _ _ Hj) as [Hv Ho]. simpl in Hv.
    apply stack_at_nth in Ht.
    pose proof (later_landed b c st p h s Hok Hst Hp Hs Hh e
                  (CamelStack there) there) as E.
    rewrite Hv, Ho in E. change (-1 =? -1) with true in E. cbn iota in E.
    eexists. split.
    + apply E; auto; [unfold final_landing; lia | lia].
    + cbn [fields]. apply stack_at_set_eq. fold lifted. lia.
  - intros Hj Ht. destruct (Hsh _ _ Hj) as [Hv Ho]. simpl in Hv.
    assert (S (S e) < 16)%nat
      by (rewrite <- (ok_size b Hok); eapply stack_at_lt; eauto).
    assert (Ht' : nth_error lifted (S (S e)) = Some (CamelStack there)).
    { unfold lifted. rewrite nth_set_nth_ne by lia. now apply stack_at_nth. }
    pose proof (later_landed b c st p h s Hok Hst Hp Hs Hh (S (S e))
                  (CamelStack there) there) as E.
    rewrite Hv, Ho in E. change (1 =? -1) with false in E. cbn iota in E.
    eexists. split.
    + apply E; auto. unfold final_landing. lia.
    + cbn [fields]. apply stack_at_set_eq. fold lifted. lia.
  - intros Ht.
    assert (Ht' : nth_error lifted (S e) = Some (CamelStack there)).
    { unfold lifted. rewrite nth_set_nth_ne by lia. now apply stack_at_nth. }
    assert (Hv : jump_shift (fields b) (Z.of_nat p + st) = 0 /\
                 jump_owner (fields b) (Z.of_nat p + st) = None).
    { rewrite <- He. rewrite jump_shift_nat, jump_owner_nat by assumption.
      apply stack_at_nth in Ht. now rewrite Ht. }
    destruct Hv as [Hv Ho].
    pose proof (later_landed b c st p h s Hok Hst Hp Hs Hh (S e)
                  (CamelStack there) there) as E.
    rewrite Hv, Ho in E. change (0 =? -1) with false in E. cbn iota in E.
    eexists. split.
    + apply E; auto. unfold final_landing. lia.
    + cbn [fields]. apply stack_at_set_eq. fold lifted. lia.
Qed.

Lemma backward_jump_merges_beneath_other_landings_on_top_witness :
  (exists b', apply_move demo_board (mkMove White 2) = Ok (b', Some "ann"%string, None) /\
              stack_at (fields b') 1 = Some ([White] ++ [Blue])) /\
  (exists b', apply_move demo_board (mkMove Orange 1) = Ok (b', Some "bob"%string, None) /\
              stack_at (fields b') 5 = Some ([Green] ++ [Orange])) /\
  (exists b', apply_move demo_board (mkMove Yellow 1) = Ok (b', None, None) /\
              stack_at (fields b') 1 = Some ([Blue] ++ [Yellow; White])).
Proof.
  assert (Hok : board_ok demo_board) by (apply board_okb_sound; vm_compute; reflexivity).
  split; [|split].
  - apply (backward_jump_merges_beneath_other_landings_on_top
             demo_board White 2 0 1 [Yellow; White] Hok ltac:(lia)
             eq_refl eq_refl eq_refl 1%nat (Some "ann"%string) [Blue]
             eq_refl ltac:(lia)); reflexivity.
  - apply (backward_jump_merges_beneath_other_landings_on_top
             demo_board Orange 1 3 0 [Orange] Hok ltac:(lia)
             eq_refl eq_refl eq_refl 3%nat (Some "bob"%string) [Green]
             eq_refl ltac:(lia)); reflexivity.
  - apply (backward_jump_merges_beneath_other_landings_on_top
             demo_board Yellow 1 0 0 [Yellow; White] Hok ltac:(lia)
             eq_refl eq_refl eq_refl 0%nat None [Blue]
             eq_refl ltac:(lia)); reflexivity.
Defined.

(** C2, as stated, fails: the condition "every camel of the index below 16
    occurs in exactly one stack, the one at its position" holds of a board
    where Yellow stands on field 5 without being in the index, and the
    first move of Yellow then puts it in a second stack. *)
Lemma index_in_stacks_not_kept_with_stray_camel :
  index_in_stacks stray_board /\
  exists b', apply_move stray_board (mkMove Yellow 1) = Ok (b', None, None) /\
             ~ index_in_stacks b'.
Proof.
  split.
  - intros c p H. destruct c; discriminate.
  - eexists. split; [vm_compute; reflexivity|].
    intros H. destruct (H Yellow 0 eq_refl ltac:(unfold BOARD_SIZE; lia))
      as (q & s & Hq & _ & _ & Hu).
    specialize (Hu 5%nat [Yellow] eq_refl (or_introl eq_refl)). lia.
Qed.

(** C2, amended.  A board is in order when it has sixteen fields, every
    camel of the index below 16 stands in the stack at its position, every
    camel standing in a stack is recorded at that field, and no stack
    holds a camel twice.  A move with steps in 1..3 that does not fail
    hands back a board in order; on it every camel recorded below 16
    occurs in exactly one stack, the one at its recorded position. *)
Theorem apply_move_keeps_board_in_order
    (b b' : Board) (m : Move) (o : Owner) (w : option (list Camel)) :
  board_ok b -> 1 <= steps m <= 3 ->
  apply_move b m = Ok (b', o, w) ->
  board_ok b' /\ index_in_stacks b'.
Proof.
  intros Hok Hst H. destruct m as [c st]. simpl in Hst.
  destruct (apply_move_keeps_ok b c st _ Hok Hst H) as [H1 _]. simpl in H1.
  split; auto. now apply board_ok_index_in_stacks.
Qed.

Lemma apply_move_keeps_board_in_order_witness :
  exists b', apply_move demo_board (mkMove White 2) = Ok (b', Some "ann"%string, None) /\
             board_ok b' /\ index_in_stacks b'.
Proof.
  eexists. split; [vm_compute; reflexivity|].
  apply (apply_move_keeps_board_in_order demo_board _ (mkMove White 2)
           (Some "ann"%string) None).
  - apply board_okb_sound. vm_compute. reflexivity.
  - simpl. lia.
  - vm_compute. reflexivity.
Defined.

(** C3, as stated, fails for a camel of the index that has crossed the
    line: it has no stack, and the move raises.  It also fails to describe
    the origin field when a backward jump sends the group back: Blue,
    alone on field 1, moves one step onto the backward jump of field 2 and
    is back on field 1, which is not empty although no camel stayed. *)
Lemma finished_camel_is_not_lifted :
  well_formed finished_board /\
  pos_of finished_board Yellow = Some 17 /\
  apply_move finished_board (mkMove Yellow 1) = Raise IndexError /\
  well_formed demo_board /\
  stack_at (fields demo_board) 1 = Some [Blue] /\
  exists b', apply_move demo_board (mkMove Blue 1) = Ok (b', Some "ann"%string, None) /\
             nth_error (fields b') 1 = Some (CamelStack [Blue]).
Proof.
  split; [apply well_formedb_sound; vm_compute; reflexivity|].
  do 2 (split; [vm_compute; reflexivity|]).
  split; [apply well_formedb_sound; vm_compute; reflexivity|].
  split; [reflexivity|].
  eexists. split; vm_compute; reflexivity.
Qed.

(** C3, amended.  On a well-formed board, a move (steps in 1..3) of a
    camel recorded on the track (position below 16) succeeds and splits
    the camel's stack at the camel's height: the camel and the camels
    above it are the carried group, in their order; the recorded position
    of each carried camel advances by the steps plus the shift of the jump
    on the landing field, if there is one; no other position changes; the
    camels below stay on the origin field, which is empty when there are
    none, unless a backward jump sends the group back onto it, in which
    case they stand on the group.  The group is handed back as it is when
    it leaves the track, and stands as one block in the stack at its
    landing field otherwise. *)
Theorem move_on_track_splits_stack (b : Board) (c : Camel) (st p : Z) :
  well_formed b -> 1 <= st <= 3 ->
  pos_of b c = Some p -> p < BOARD_SIZE ->
  exists (q h : nat) (s : list Camel) (b' : Board) (o : Owner)
         (w : option (list Camel)),
    p = Z.of_nat q /\ stack_at (fields b) q = Some s /\
    find_index Camel_eq_dec s c = Some h /\
    apply_move b (mkMove c st) = Ok (b', o, w) /\
    let carried := skipn h s in
    let below := firstn h s in
    let e := p + st + jump_shift (fields b) (p + st) in
    s = below ++ carried /\
    (exists above, carried = c :: above) /\
    (forall d, In d carried -> pos_of b' d = Some e) /\
    (forall d, ~ In d carried -> pos_of b' d = pos_of b d) /\
    (e <> p -> nth_error (fields b') q = Some (stack_or_none below)) /\
    (e = p -> stack_at (fields b') q = Some (carried ++ below)) /\
    (BOARD_SIZE <= e -> w = Some carried) /\
    (e < BOARD_SIZE ->
     exists there,
       stack_at (fields b') (Z.to_nat e) = Some (carried ++ there) \/
       stack_at (fields b') (Z.to_nat e) = Some (there ++ carried)).
Proof.
  intros [Hok Hadj] Hst Hp Hlt.
  destruct (on_track_stack b c p Hok Hp Hlt) as (q & s & h & -> & Hs & Hh).
  pose proof (lift_length b q h s Hok) as Hlen.
  pose proof (lift_nth_p b q h s Hok Hs) as Hnp.
  assert (Hpos : forall k d,
    (In d (skipn h s) ->
     dict_get Camel_eq_dec (bump (index b) (skipn h s) (k - Z.of_nat q)) d = Some k) /\
    (~ In d (skipn h s) ->
     dict_get Camel_eq_dec (bump (index b) (skipn h s) (k - Z.of_nat q)) d = pos_of b d)).
  { intros k d. split; intros H.
    - rewrite (get_bump_in _ _ _ _ (Z.of_nat q) H).
      + f_equal. lia.
      + apply (lift_pos b q s Hok Hs). exact (lift_carried_in h s d H).
    - now rewrite get_bump_out. }
  assert (Hhead : exists above, skipn h s = c :: above).
  { destruct (find_index_split _ _ _ _ Hh) as (t & E & _). eauto. }
  destruct (later_total b c st q h s Hok Hst Hp Hs Hh Hadj)
    as [[Hge E]|(q' & f & old & Hq' & Hlt' & Hf & Ho & E)];
    unfold final_landing in *.
  - exists q, h, s.
    match type of E with _ = Ok (?b', ?o, ?w) => exists b', o, w end.
    repeat split; auto; try (unfold pos_of at 1); cbn [fields index].
    + symmetry. apply firstn_skipn.
    + intros d. apply Hpos.
    + intros d. apply Hpos.
    + intros H. lia.
    + intros H. unfold BOARD_SIZE in *. lia.
  - exists q, h, s.
    match type of E with _ = Ok (?b', ?o, ?w) => exists b', o, w end.
    repeat split; auto; try (unfold pos_of at 1); cbn [fields index].
    + symmetry. apply firstn_skipn.
    + intros d. apply Hpos.
    + intros d. apply Hpos.
    + intros H. rewrite nth_set_nth_ne by lia. exact Hnp.
    + intros H. assert (q' = q) by lia. subst q'.
      rewrite Hnp in Hf. inversion Hf; subst f.
      rewrite occupants_stack_or_none in Ho. inversion Ho; subst old.
      pose proof (jump_shift_range (fields b) (Z.of_nat q + st)).
      replace (jump_shift (fields b) (Z.of_nat q + st)) with (-1) by lia.
      change (-1 =? -1) with true. cbn iota.
      apply stack_at_set_eq. lia.
    + intros H. unfold BOARD_SIZE in *. lia.
    + intros _. exists old. rewrite Hq', Nat2Z.id.
      rewrite stack_at_set_eq by lia.
      destruct (_ =? -1); auto.
Qed.

Lemma move_on_track_splits_stack_witness :
  exists (q h : nat) (s : list Camel) (b' : Board) (o : Owner)
         (w : option (list Camel)),
    0 = Z.of_nat q /\ stack_at (fields demo_board) q = Some s /\
    find_index Camel_eq_dec s White = Some h /\
    apply_move demo_board (mkMove White 2) = Ok (b', o, w) /\
    let carried := skipn h s in
    let below := firstn h s in
    let e := 0 + 2 + jump_shift (fields demo_board) (0 + 2) in
    s = below ++ carried /\
    (exists above, carried = White :: above) /\
    (forall d, In d carried -> pos_of b' d = Some e) /\
    (forall d, ~ In d carried -> pos_of b' d = pos_of demo_board d) /\
    (e <> 0 -> nth_error (fields b') q = Some (stack_or_none below)) /\
    (e = 0 -> stack_at (fields b') q = Some (carried ++ below)) /\
    (BOARD_SIZE <= e -> w = Some carried) /\
    (e < BOARD_SIZE ->
     exists there,
       stack_at (fields b') (Z.to_nat e) = Some (carried ++ there) \/
       stack_at (fields b') (Z.to_nat e) = Some (there ++ carried)).
Proof.
  apply (move_on_track_splits_stack demo_board White 2 0).
  - apply well_formedb_sound. vm_compute. reflexivity.
  - lia.
  - reflexivity.
  - reflexivity.
Defined.

(** C4, as stated, fails for a camel that has crossed the line before:
    its landing is beyond the track and yet no finish group comes back,
    the move raises. *)
Lemma finished_camel_returns_no_finish_group :
  well_formed finished_board /\
  pos_of finished_board Yellow = Some 17 /\
  BOARD_SIZE <= final_landing finished_board 17 3 /\
  apply_move finished_board (mkMove Yellow 3) = Raise IndexError.
Proof.
  split; [apply well_formedb_sound; vm_compute; reflexivity|].
  repeat split; vm_compute; try reflexivity. discriminate.
Qed.

(** C4, amended.  On a well-formed board, a move (steps in 1..3) of a
    camel recorded on the track hands back a finish group exactly when
    the final landing (origin plus steps, plus the shift of the jump on
    the landing field if there is one) is 16 or more.  The finish group is
    the carried group in its order and is not empty; each of its camels is
    then recorded at the final landing and stands in no stack of the board
    handed back.  No owner is reported when origin plus steps is already
    16 or more; when the line is crossed by the shift of a jump, the owner
    of that jump is reported. *)
Theorem finish_group_iff_landing_beyond_track (b : Board) (c : Camel) (st p : Z) :
  well_formed b -> 1 <= st <= 3 ->
  pos_of b c = Some p -> p < BOARD_SIZE ->
  exists (q h : nat) (s : list Camel) (b' : Board) (o : Owner)
         (w : option (list Camel)),
    p = Z.of_nat q /\ stack_at (fields b) q = Some s /\
    find_index Camel_eq_dec s c = Some h /\
    apply_move b (mkMove c st) = Ok (b', o, w) /\
    let carried := skipn h s in
    let e := final_landing b p st in
    carried <> [] /\
    (BOARD_SIZE <= e -> w = Some carried) /\
    (e < BOARD_SIZE -> w = None) /\
    (BOARD_SIZE <= e ->
     forall d, In d carried ->
       pos_of b' d = Some e /\
       forall q' s', stack_at (fields b') q' = Some s' -> ~ In d s') /\
    (BOARD_SIZE <= p + st -> o = None) /\
    (p + st < BOARD_SIZE -> BOARD_SIZE <= e ->
     exists ow, nth_error (fields b) (Z.to_nat (p + st)) = Some (JumpField Forward ow) /\
                o = ow).
Proof.
  intros [Hok Hadj] Hst Hp Hlt.
  destruct (on_track_stack b c p Hok Hp Hlt) as (q & s & h & -> & Hs & Hh).
  assert (Hhead : skipn h s <> []).
  { destruct (find_index_split _ _ _ _ Hh) as (t & E & _). rewrite E. discriminate. }
  assert (Hown : BOARD_SIZE <= Z.of_nat q + st ->
                 jump_owner (fields b) (Z.of_nat q + st) = None)
    by apply jump_owner_high.
  assert (Hrep : Z.of_nat q + st < BOARD_SIZE ->
                 BOARD_SIZE <= final_landing b (Z.of_nat q) st ->
                 exists ow, nth_error (fields b) (Z.to_nat (Z.of_nat q + st)) =
                            Some (JumpField Forward ow) /\
                            jump_owner (fields b) (Z.of_nat q + st) = ow).
  { unfold final_landing, jump_shift, jump_owner, BOARD_SIZE. intros H1 H2.
    replace (0 <=? Z.of_nat q + st) with true in * by (symmetry; apply Z.leb_le; lia).
    replace (Z.of_nat q + st <? 16) with true in * by (symmetry; apply Z.ltb_lt; lia).
    simpl in *.
    destruct (nth_error (fields b) (Z.to_nat (Z.of_nat q + st)))
      as [[| |[|] ow]|]; simpl in *; try lia.
    exists ow. auto. }
  destruct (later_total b c st q h s Hok Hst Hp Hs Hh Hadj)
    as [[Hge E]|(q' & f & old & Hq' & Hlt' & Hf & Ho & E)].
  - exists q, h, s.
    match type of E with _ = Ok (?b', ?o, ?w) => exists b', o, w end.
    do 4 (split; [assumption || reflexivity|]). cbv zeta.
    split; [exact Hhead|]. split; [reflexivity|].
    split; [intros H; unfold BOARD_SIZE in *; lia|].
    split; [|split; assumption].
    intros _ d Hd. split.
    + unfold pos_of. cbn [index].
      rewrite (get_bump_in _ _ _ _ (Z.of_nat q)); auto.
      * f_equal. lia.
      * apply (lift_pos b q s Hok Hs). exact (lift_carried_in h s d Hd).
    + intros q' s' Hq' Hin. cbn [fields] in Hq'.
      destruct (lift_left b q h s Hok Hs q' s' d Hq' Hin) as (_ & N & _).
      contradiction.
  - exists q, h, s.
    match type of E with _ = Ok (?b', ?o, ?w) => exists b', o, w end.
    do 4 (split; [assumption || reflexivity|]). cbv zeta.
    split; [exact Hhead|].
    split; [intros H; unfold BOARD_SIZE in *; lia|].
    split; [reflexivity|].
    split; [intros H; unfold BOARD_SIZE in *; lia|].
    split; assumption.
Qed.

Lemma finish_group_iff_landing_beyond_track_witness :
  exists (q h : nat) (s : list Camel) (b' : Board) (o : Owner)
         (w : option (list Camel)),
    13 = Z.of_nat q /\ stack_at (fields last_field_board) q = Some s /\
    find_index Camel_eq_dec s Green = Some h /\
    apply_move last_field_board (mkMove Green 2) = Ok (b', o, w) /\
    let carried := skipn h s in
    let e := final_landing last_field_board 13 2 in
    carried <> [] /\
    (BOARD_SIZE <= e -> w = Some carried) /\
    (e < BOARD_SIZE -> w = None) /\
    (BOARD_SIZE <= e ->
     forall d, In d carried ->
       pos_of b' d = Some e /\
       forall q' s', stack_at (fields b') q' = Some s' -> ~ In d s') /\
    (BOARD_SIZE <= 13 + 2 -> o = None) /\
    (13 + 2 < BOARD_SIZE -> BOARD_SIZE <= e ->
     exists ow, nth_error (fields last_field_board) (Z.to_nat (13 + 2)) =
                Some (JumpField Forward ow) /\
                o = ow).
Proof.
  apply (finish_group_iff_landing_beyond_track last_field_board Green 2 13).
  - apply well_formedb_sound. vm_compute. reflexivity.
  - lia.
  - reflexivity.
  - reflexivity.
Defined.

(** C9, as stated, fails in its last part: on a well-formed board the
    move of a camel that has crossed the line raises, and this is not a
    first move onto a jump. *)
Lemma finished_camel_move_fails :
  well_formed finished_board /\
  pos_of finished_board Yellow <> None /\
  apply_move finished_board (mkMove Yellow 2) = Raise IndexError.
Proof.
  split; [apply well_formedb_sound; vm_compute; reflexivity|].
  split; [discriminate | vm_compute; reflexivity].
Qed.

(** C9, amended.  On a well-formed board and with steps in 1..3:
    a camel absent from the index is put at position steps - 1, on top of
    the stack there or alone on an empty field, nothing else changes, and
    the move fails exactly when that field holds a jump (the assertion
    "Jump at start"); the move of a camel recorded on the track (below 16)
    never fails; the move of a camel recorded at 16 or beyond always
    fails. *)
Theorem first_move_placement_and_failures (b : Board) (c : Camel) (st : Z) :
  well_formed b -> 1 <= st <= 3 ->
  (pos_of b c = None ->
   exists f, nth_error (fields b) (Z.to_nat (st - 1)) = Some f /\
     match occupants f with
     | None => apply_move b (mkMove c st) = Raise (AssertionError "Jump at start")
     | Some there =>
         exists b', apply_move b (mkMove c st) = Ok (b', None, None) /\
           pos_of b' c = Some (st - 1) /\
           stack_at (fields b') (Z.to_nat (st - 1)) = Some (there ++ [c]) /\
           (forall d, d <> c -> pos_of b' d = pos_of b d) /\
           (forall q, q <> Z.to_nat (st - 1) ->
                      nth_error (fields b') q = nth_error (fields b) q)
     end) /\
  (forall p, pos_of b c = Some p -> p < BOARD_SIZE ->
             exists r, apply_move b (mkMove c st) = Ok r) /\
  (forall p, pos_of b c = Some p -> BOARD_SIZE <= p ->
             apply_move b (mkMove c st) = Raise IndexError).
Proof.
  intros [Hok Hadj] Hst. split; [|split].
  - intros Hp. destruct (first_cases b c st Hok Hp Hst) as (f & Hf & E).
    exists f. split; auto.
    destruct (occupants f) as [there|] eqn:Ho.
    + eexists. split; [|split; [|split; [|split]]].
      * apply apply_move_validated; [exact E|].
        eapply first_result_ok; eauto.
      * unfold pos_of. cbn [index]. apply dict_get_set_eq.
      * cbn [fields]. apply stack_at_set_eq. apply nth_error_Some. congruence.
      * intros d Hd. unfold pos_of. cbn [index]. now apply dict_get_set_ne.
      * intros q Hq. cbn [fields]. apply nth_set_nth_ne. congruence.
    + now apply apply_move_raise.
  - intros p Hp Hlt.
    destruct (on_track_stack b c p Hok Hp Hlt) as (q & s & h & -> & Hs & Hh).
    destruct (later_total b c st q h s Hok Hst Hp Hs Hh Hadj)
      as [[_ E]|(q' & f & old & _ & _ & _ & _ & E)]; eauto.
  - intros p Hp Hge. eapply finished_move_raises; eauto. apply Hok.
Qed.

Lemma first_move_placement_and_failures_witness :
  (pos_of opening_board White = None ->
   exists f, nth_error (fields opening_board) (Z.to_nat (1 - 1)) = Some f /\
     match occupants f with
     | None => apply_move opening_board (mkMove White 1) =
               Raise (AssertionError "Jump at start")
     | Some there =>
         exists b', apply_move opening_board (mkMove White 1) = Ok (b', None, None) /\
           pos_of b' White = Some (1 - 1) /\
           stack_at (fields b') (Z.to_nat (1 - 1)) = Some (there ++ [White]) /\
           (forall d, d <> White -> pos_of b' d = pos_of opening_board d) /\
           (forall q, q <> Z.to_nat (1 - 1) ->
                      nth_error (fields b') q = nth_error (fields opening_board) q)
     end) /\
  (forall p, pos_of opening_board White = Some p -> p < BOARD_SIZE ->
             exists r, apply_move opening_board (mkMove White 1) = Ok r) /\
  (forall p, pos_of opening_board White = Some p -> BOARD_SIZE <= p ->
             apply_move opening_board (mkMove White 1) = Raise IndexError).
Proof.
  apply (first_move_placement_and_failures opening_board White 1).
  - apply well_formedb_sound. vm_compute. reflexivity.
  - lia.
Defined.

(* ================================================================= *)
(** ** The ranking                                                     *)
(* ================================================================= *)

Lemma mapM_ok {A B : Type} (f : A -> result B) (l : list A) :
  (forall x, In x l -> exists y, f x = Ok y) ->
  exists ys, mapM f l = Ok ys /\ Forall2 (fun x y => f x = Ok y) l ys.
Proof.
  induction l as [|x t IH]; intros H; simpl.
  - exists []. split; [reflexivity | constructor].
  - destruct (H x (or_introl eq_refl)) as [y Hy].
    destruct IH as (ys & E & F); [intros; apply H; now right|].
    exists (y :: ys). rewrite Hy, E. split; [reflexivity | now constructor].
Qed.

Lemma mapM_raise {A B : Type} (f : A -> result B) (l : list A) x e :
  In x l -> f x = Raise e -> exists e', mapM f l = Raise e'.
Proof.
  induction l as [|y t IH]; simpl; [tauto|].
  intros [->|H] Hx.
  - rewrite Hx. simpl. eauto.
  - destruct (f y); simpl; eauto.
    destruct (IH H Hx) as [e' ->]. simpl. eauto.
Qed.

Lemma key_ltb_spec a b : key_ltb a b = true <-> key_lt a b.
Proof.
  unfold key_ltb, key_lt.
  rewrite orb_true_iff, andb_true_iff, Z.ltb_lt, Z.eqb_eq, Nat.ltb_lt. tauto.
Qed.

Lemma key_ltb_false a b : key_ltb a b = false <-> ~ key_lt a b.
Proof.
  rewrite <- key_ltb_spec. destruct (key_ltb a b); intuition congruence.
Qed.

Lemma key_lt_total a b : a <> b -> ~ key_lt a b -> key_lt b a.
Proof.
  destruct a as [a1 a2], b as [b1 b2]. unfold key_lt. simpl. intros N H.
  destruct (Z.lt_trichotomy a1 b1) as [?|[?|?]]; [tauto| |lia].
  destruct (Nat.lt_trichotomy a2 b2) as [?|[?|?]]; [tauto| |lia].
  subst. congruence.
Qed.

Lemma key_lt_asym a b : key_lt a b -> ~ key_lt b a.
Proof. unfold key_lt. lia. Qed.

Lemma key_nlt_trans a b c : ~ key_lt a b -> ~ key_lt b c -> ~ key_lt a c.
Proof. unfold key_lt. lia. Qed.

Lemma insert_desc_perm x l : Permutation (insert_desc x l) (x :: l).
Proof.
  induction l as [|y t IH]; simpl; auto.
  destruct (key_ltb (snd x) (snd y)); auto.
  rewrite IH. apply perm_swap.
Qed.

Lemma sorted_desc_perm l : Permutation (sorted_desc l) l.
Proof.
  induction l as [|x t IH]; simpl; auto.
  rewrite insert_desc_perm. now constructor.
Qed.

Lemma insert_desc_sorted x l :
  StronglySorted not_below l -> StronglySorted not_below (insert_desc x l).
Proof.
  induction l as [|y t IH]; simpl; intros H.
  - repeat constructor.
  - inversion H as [|? ? Ht Hy]; subst.
    destruct (key_ltb (snd x) (snd y)) eqn:E.
    + constructor; auto.
      apply Forall_forall. intros z Hz.
      apply (Permutation_in _ (insert_desc_perm x t)) in Hz.
      destruct Hz as [<-|Hz].
      * apply key_lt_asym. now apply key_ltb_spec.
      * rewrite Forall_forall in Hy. now apply Hy.
    + apply key_ltb_false in E. constructor; auto.
      constructor; auto.
      rewrite Forall_forall in *. intros z Hz.
      eapply key_nlt_trans; [exact E | now apply Hy].
Qed.

Lemma sorted_desc_sorted l : StronglySorted not_below (sorted_desc l).
Proof.
  induction l as [|x t IH]; simpl; [constructor | now apply insert_desc_sorted].
Qed.

Lemma StronglySorted_app_inv {A : Type} (R : A -> A -> Prop) l1 x l2 :
  StronglySorted R (l1 ++ x :: l2) -> Forall (R x) l2.
Proof.
  induction l1 as [|y t IH]; simpl; intros H; inversion H; subst; auto.
Qed.

Lemma precedes_map {A : Type} (f : A -> Camel) (l : list A) c d :
  precedes (map f l) c d ->
  exists l1 x l2 y l3, l = l1 ++ x :: l2 ++ y :: l3 /\ f x = c /\ f y = d.
Proof.
  intros (l1 & l2 & l3 & E).
  apply map_eq_app in E. destruct E as (m1 & m2 & -> & <- & E).
  destruct m2 as [|x m2]; [discriminate|]. simpl in E. inversion E as [[Hx E']].
  apply map_eq_app in E'. destruct E' as (m3 & m4 & -> & <- & E').
  destruct m4 as [|y m4]; [discriminate|]. simpl in E'. inversion E' as [[Hy E'']].
  exists m1, x, m3, y, m4. auto.
Qed.

Lemma precedes_or (l : list Camel) c d :
  In c l -> In d l -> c <> d -> precedes l c d \/ precedes l d c.
Proof.
  intros Hc Hd N. apply in_split in Hc. destruct Hc as (l1 & l2 & ->).
  apply in_app_or in Hd. destruct Hd as [Hd|[Hd|Hd]]; [|congruence|].
  - right. apply in_split in Hd. destruct Hd as (m1 & m2 & ->).
    exists m1, m2, l2. now rewrite <- app_assoc.
  - left. apply in_split in Hd. destruct Hd as (m1 & m2 & ->).
    exists l1, m1, m2. reflexivity.
Qed.

Lemma precedes_distinct (l : list Camel) c d : NoDup l -> precedes l c d -> c <> d.
Proof.
  intros ND (l1 & l2 & l3 & ->) <-.
  apply NoDup_remove_2 in ND. apply ND.
  apply in_or_app. right. apply in_or_app. right. now left.
Qed.

Lemma rank_key_shape b ws c p k :
  rank_key b ws c p = Ok k ->
  exists h, k = (p, h) /\
    ((p < BOARD_SIZE /\ exists s, getitem (fields b) p = Ok (CamelStack s) /\
                                  find_index Camel_eq_dec s c = Some h) \/
     (BOARD_SIZE <= p /\ exists l, ws = Some l /\
                                   find_index Camel_eq_dec l c = Some h)).
Proof.
  unfold rank_key. destruct (p <? BOARD_SIZE) eqn:E.
  - apply Z.ltb_lt in E. destruct (getitem (fields b) p) as [f|]; [|discriminate].
    cbn [bind]. destruct f as [|s|]; cbn [field_index bind]; try discriminate.
    unfold list_index. destruct (find_index Camel_eq_dec s c) as [h|] eqn:F;
      cbn [bind]; [|discriminate].
    intros H. inversion H. exists h. split; auto. left. eauto.
  - apply Z.ltb_ge in E. destruct ws as [l|]; cbn [winners_index bind]; [|discriminate].
    unfold list_index. destruct (find_index Camel_eq_dec l c) as [h|] eqn:F;
      cbn [bind]; [|discriminate].
    intros H. inversion H. exists h. split; auto. right. eauto.
Qed.

(** Two camels never have the same key. *)
Lemma key_of_inj b ws c d k :
  key_of b ws c = Some k -> key_of b ws d = Some k -> c = d.
Proof.
  unfold key_of. intros Hc Hd.
  destruct (pos_of b c) as [pc|]; [|discriminate].
  destruct (pos_of b d) as [pd|]; [|discriminate].
  destruct (rank_key b ws c pc) as [kc|] eqn:Ec; [|discriminate].
  destruct (rank_key b ws d pd) as [kd|] eqn:Ed; [|discriminate].
  inversion Hc; inversion Hd; subst.
  destruct (rank_key_shape _ _ _ _ _ Ec) as (hc & -> & Sc).
  destruct (rank_key_shape _ _ _ _ _ Ed) as (hd & E & Sd).
  inversion E; subst.
  destruct Sc as [(L1 & s1 & G1 & F1)|(L1 & l1 & W1 & F1)],
           Sd as [(L2 & s2 & G2 & F2)|(L2 & l2 & W2 & F2)]; try lia.
  - rewrite G1 in G2. inversion G2; subst.
    eapply find_index_inj; eauto.
  - rewrite W1 in W2. inversion W2; subst.
    eapply find_index_inj; eauto.
Qed.

Lemma rank_key_defined b ws c p :
  board_ok b ->
  (forall c p, pos_of b c = Some p -> BOARD_SIZE <= p ->
               exists l, ws = Some l /\ In c l) ->
  pos_of b c = Some p -> exists k, rank_key b ws c p = Ok k.
Proof.
  intros Hok Hws Hp. unfold rank_key.
  destruct (p <? BOARD_SIZE) eqn:E.
  - apply Z.ltb_lt in E.
    destruct (on_track_stack b c p Hok Hp E) as (q & s & h & -> & Hs & Hh).
    apply stack_at_nth in Hs. rewrite (getitem_nat _ _ _ Hs).
    cbn [bind field_index]. unfold list_index. rewrite Hh. simpl. eauto.
  - apply Z.ltb_ge in E. destruct (Hws c p Hp E) as (l & -> & Hin).
    destruct (find_index_In Camel_eq_dec l c Hin) as [h Hh].
    cbn [winners_index]. unfold list_index. rewrite Hh. simpl. eauto.
Qed.

Lemma unsorted_camels_ok b ws :
  board_ok b ->
  (forall c p, pos_of b c = Some p -> BOARD_SIZE <= p ->
               exists l, ws = Some l /\ In c l) ->
  exists us, unsorted_camels b ws = Ok us /\
    map fst us = keys (index b) /\
    forall c k, In (c, k) us -> key_of b ws c = Some k.
Proof.
  intros Hok Hws. unfold unsorted_camels.
  destruct (mapM_ok
              (fun '(c, i) => k <- rank_key b ws c i ;; Ok (c, k)) (index b))
    as (us & E & F).
  { intros [c p] Hin.
    assert (Hp : pos_of b c = Some p) by (apply dict_item; [apply Hok | assumption]).
    destruct (rank_key_defined b ws c p Hok Hws Hp) as [k Hk].
    exists (c, k). now rewrite Hk. }
  exists us. split; auto.
  assert (G : forall c p, In (c, p) (index b) -> pos_of b c = Some p)
    by (intros; apply dict_item; [apply Hok | assumption]).
  unfold key_of. revert G. generalize (pos_of b). clear E Hws.
  induction F as [|[c p] y l l' Hy F IH]; intros pos G.
  - split; [reflexivity | intros ? ? []].
  - destruct (rank_key b ws c p) as [k|] eqn:Ek; [|discriminate].
    inversion Hy; subst y. destruct (IH pos) as [IH1 IH2];
      [intros; apply G; now right|].
    split; [simpl; unfold keys in IH1; now rewrite IH1|].
    intros c' k' [H|H]; [|now apply IH2].
    inversion H; subst. rewrite (G c' p (or_introl eq_refl)). now rewrite Ek.
Qed.

Lemma key_of_on_track b ws c (q : nat) s h :
  pos_of b c = Some (Z.of_nat q) -> (q < 16)%nat ->
  stack_at (fields b) q = Some s -> find_index Camel_eq_dec s c = Some h ->
  key_of b ws c = Some (Z.of_nat q, h).
Proof.
  intros Hp Hlt Hs Hh. unfold key_of, rank_key. rewrite Hp.
  replace (Z.of_nat q <? BOARD_SIZE) with true
    by (symmetry; apply Z.ltb_lt; unfold BOARD_SIZE; lia).
  apply stack_at_nth in Hs. rewrite (getitem_nat _ _ _ Hs).
  cbn [bind field_index]. unfold list_index. now rewrite Hh.
Qed.

Lemma key_of_finished b l c p h :
  pos_of b c = Some p -> BOARD_SIZE <= p ->
  find_index Camel_eq_dec l c = Some h ->
  key_of b (Some l) c = Some (p, h).
Proof.
  intros Hp Hge Hh. unfold key_of, rank_key. rewrite Hp.
  replace (p <? BOARD_SIZE) with false by (symmetry; now apply Z.ltb_ge).
  cbn [winners_index]. unfold list_index. now rewrite Hh.
Qed.

Lemma all_camels_listed (l : list Camel) :
  NoDup l -> (forall c, In c l) -> Permutation l all_camels.
Proof.
  intros ND H. apply NoDup_Permutation; auto.
  - unfold all_camels. repeat constructor; simpl; intuition discriminate.
  - intros c. split; intros _; [destruct c; simpl; tauto | apply H].
Qed.

(** C5, as stated, fails twice: on the board where only Yellow has been
    placed the ranking holds one camel, not five; on the board where
    Yellow has crossed the line and no finish order is supplied there is
    no ranking at all. *)
Lemma rankings_need_placed_and_listed_camels :
  well_formed opening_board /\
  get_rankings opening_board None = Ok [Yellow] /\
  well_formed finished_board /\
  get_rankings finished_board None = Raise AttributeError.
Proof.
  repeat split; try (apply well_formedb_sound); vm_compute; reflexivity.
Qed.

(** C5, amended.  On a well-formed board, with a finish-order list that
    holds every camel recorded at 16 or beyond, [get_rankings] returns the
    camels of the position index, each once (all five when all five are in
    the index), best first: the key of a camel is its recorded position
    and then its index in the stack at that position (below 16) or in the
    finish-order list (16 or beyond); a camel standing before another in
    the ranking has the greater key; every camel at 16 or beyond stands
    before every camel on the track; two camels never have equal keys. *)
Theorem rankings_sorted_by_position_then_height
    (b : Board) (ws : option (list Camel)) :
  well_formed b ->
  (forall c p, pos_of b c = Some p -> BOARD_SIZE <= p ->
               exists l, ws = Some l /\ In c l) ->
  exists r, get_rankings b ws = Ok r /\
    Permutation r (keys (index b)) /\
    NoDup r /\
    ((forall c, pos_of b c <> None) -> Permutation r all_camels) /\
    (forall c, In c r ->
       exists p h, pos_of b c = Some p /\ key_of b ws c = Some (p, h) /\
         (p < BOARD_SIZE ->
          exists s, stack_at (fields b) (Z.to_nat p) = Some s /\
                    find_index Camel_eq_dec s c = Some h) /\
         (BOARD_SIZE <= p ->
          exists l, ws = Some l /\ find_index Camel_eq_dec l c = Some h)) /\
    (forall c d kc kd, precedes r c d ->
       key_of b ws c = Some kc -> key_of b ws d = Some kd -> key_lt kd kc) /\
    (forall c d pc pd, pos_of b c = Some pc -> pos_of b d = Some pd ->
       BOARD_SIZE <= pc -> pd < BOARD_SIZE -> precedes r c d) /\
    (forall c d kc kd, c <> d ->
       key_of b ws c = Some kc -> key_of b ws d = Some kd -> kc <> kd).
Proof.
  intros [Hok _] Hws.
  destruct (unsorted_camels_ok b ws Hok Hws) as (us & Eus & Hfst & Hkey).
  exists (map fst (sorted_desc us)).
  assert (Hperm : Permutation (map fst (sorted_desc us)) (keys (index b))).
  { rewrite <- Hfst. apply Permutation_map. apply sorted_desc_perm. }
  assert (Hnd : NoDup (map fst (sorted_desc us))).
  { apply (Permutation_NoDup (Permutation_sym Hperm)). apply Hok. }
  assert (Hin : forall c, In c (map fst (sorted_desc us)) <-> pos_of b c <> None).
  { intros c. unfold pos_of. rewrite dict_get_keys. split; intros H.
    - eapply Permutation_in; eauto.
    - eapply Permutation_in; [apply Permutation_sym|]; eauto. }
  assert (Hdesc : forall c d kc kd, precedes (map fst (sorted_desc us)) c d ->
            key_of b ws c = Some kc -> key_of b ws d = Some kd -> key_lt kd kc).
  { intros c d kc kd Hpr Hc Hd.
    pose proof (precedes_distinct _ _ _ Hnd Hpr) as Hne.
    apply precedes_map in Hpr.
    destruct Hpr as (l1 & [c' kc'] & l2 & [d' kd'] & l3 & E & Ec & Ed).
    simpl in Ec, Ed. subst c' d'.
    pose proof (sorted_desc_sorted us) as S. rewrite E in S.
    apply StronglySorted_app_inv in S. rewrite Forall_forall in S.
    specialize (S (d, kd')). unfold not_below in S. simpl in S.
    assert (Hc' : key_of b ws c = Some kc').
    { apply Hkey. apply (Permutation_in _ (sorted_desc_perm us)).
      rewrite E. apply in_or_app. right. now left. }
    assert (Hd' : key_of b ws d = Some kd').
    { apply Hkey. apply (Permutation_in _ (sorted_desc_perm us)).
      rewrite E. apply in_or_app. right. right. apply in_or_app. right. now left. }
    rewrite Hc in Hc'. rewrite Hd in Hd'. inversion Hc'; inversion Hd'; subst.
    apply key_lt_total.
    - intros F. subst. apply Hne. eapply key_of_inj; eauto.
    - apply S. apply in_or_app. right. now left. }
  assert (Hdescr : forall c p, pos_of b c = Some p ->
            exists h, key_of b ws c = Some (p, h) /\
              (p < BOARD_SIZE ->
               exists s, stack_at (fields b) (Z.to_nat p) = Some s /\
                         find_index Camel_eq_dec s c = Some h) /\
              (BOARD_SIZE <= p ->
               exists l, ws = Some l /\ find_index Camel_eq_dec l c = Some h)).
  { intros c p Hp. destruct (Z_lt_le_dec p BOARD_SIZE) as [Hlt|Hge].
    - destruct (on_track_stack b c p Hok Hp Hlt) as (q & s & h & -> & Hs & Hh).
      exists h. split; [|split].
      + apply key_of_on_track with s; auto. unfold BOARD_SIZE in Hlt. lia.
      + intros _. exists s. now rewrite Nat2Z.id.
      + intros H. lia.
    - destruct (Hws c p Hp Hge) as (l & -> & Hl).
      destruct (find_index_In Camel_eq_dec l c Hl) as [h Hh].
      exists h. split; [|split].
      + now apply key_of_finished.
      + intros H. lia.
      + intros _. eauto. }
  split; [|split; [|split; [|split; [|split; [|split; [|split]]]]]]; auto.
  - unfold get_rankings. now rewrite Eus.
  - intros Hall. apply all_camels_listed; auto. intros c. apply Hin. apply Hall.
  - intros c Hc. apply Hin in Hc.
    destruct (pos_of b c) as [p|] eqn:Hp; [|congruence].
    destruct (Hdescr c p Hp) as (h & H1 & H2 & H3).
    exists p, h. auto.
  - intros c d pc pd Hc Hd Hge Hlt.
    destruct (Hdescr c pc Hc) as (hc & Kc & _).
    destruct (Hdescr d pd Hd) as (hd & Kd & _).
    destruct (precedes_or (map fst (sorted_desc us)) c d) as [H|H]; auto.
    + apply Hin. congruence.
    + apply Hin. congruence.
    + intros <-. rewrite Hc in Hd. inversion Hd. lia.
    + exfalso. pose proof (Hdesc d c _ _ H Kd Kc) as F.
      unfold key_lt in F. simpl in F. lia.
  - intros c d kc kd Hne Hc Hd <-. apply Hne. eapply key_of_inj; eauto.
Qed.

Lemma rankings_sorted_by_position_then_height_witness :
  exists r, get_rankings finished_board (Some [Yellow]) = Ok r /\
    Permutation r (keys (index finished_board)) /\
    NoDup r /\
    ((forall c, pos_of finished_board c <> None) -> Permutation r all_camels) /\
    (forall c, In c r ->
       exists p h, pos_of finished_board c = Some p /\
         key_of finished_board (Some [Yellow]) c = Some (p, h) /\
         (p < BOARD_SIZE ->
          exists s, stack_at (fields finished_board) (Z.to_nat p) = Some s /\
                    find_index Camel_eq_dec s c = Some h) /\
         (BOARD_SIZE <= p ->
          exists l, Some [Yellow] = Some l /\ find_index Camel_eq_dec l c = Some h)) /\
    (forall c d kc kd, precedes r c d ->
       key_of finished_board (Some [Yellow]) c = Some kc ->
       key_of finished_board (Some [Yellow]) d = Some kd -> key_lt kd kc) /\
    (forall c d pc pd, pos_of finished_board c = Some pc ->
       pos_of finished_board d = Some pd ->
       BOARD_SIZE <= pc -> pd < BOARD_SIZE -> precedes r c d) /\
    (forall c d kc kd, c <> d ->
       key_of finished_board (Some [Yellow]) c = Some kc ->
       key_of finished_board (Some [Yellow]) d = Some kd -> kc <> kd).
Proof.
  apply (rankings_sorted_by_position_then_height finished_board (Some [Yellow])).
  - apply well_formedb_sound. vm_compute. reflexivity.
  - intros c p Hp Hge. exists [Yellow]. split; [reflexivity|].
    destruct c; vm_compute in Hp; inversion Hp; subst; vm_compute in Hge;
      try (exfalso; apply Hge; reflexivity).
    simpl. now left.
Defined.

(** C10.  If some camel is recorded at 16 or beyond, [get_rankings]
    raises whenever the finish order is [None] or a list without that
    camel; hence [evaluate_bets] and the [rank] command, which pass
    [None], raise on every such board. *)
Theorem rankings_raise_on_unlisted_finished_camel (b : Board) (c : Camel) (p : Z) :
  pos_of b c = Some p -> BOARD_SIZE <= p ->
  (forall ws, (forall l, ws = Some l -> ~ In c l) ->
              exists e, get_rankings b ws = Raise e) /\
  (forall g, exists e, evaluate_bets g b = Raise e) /\
  (forall g, board g = b -> exists e, rank_command g = Raise e).
Proof.
  intros Hp Hge.
  assert (H : forall ws, (forall l, ws = Some l -> ~ In c l) ->
                         exists e, get_rankings b ws = Raise e).
  { intros ws Hws. unfold get_rankings, unsorted_camels.
    assert (Hk : exists e, rank_key b ws c p = Raise e).
    { unfold rank_key.
      replace (p <? BOARD_SIZE) with false by (symmetry; now apply Z.ltb_ge).
      destruct ws as [l|]; cbn [winners_index]; [|simpl; eauto].
      unfold list_index. rewrite find_index_None by (now apply Hws).
      simpl. eauto. }
    destruct Hk as [e Hk].
    destruct (mapM_raise
                (fun '(c, i) => k <- rank_key b ws c i ;; Ok (c, k))
                (index b) (c, p) e) as [e' E].
    - now apply dict_get_In in Hp.
    - now rewrite Hk.
    - rewrite E. simpl. eauto. }
  split; [exact H|]. split.
  - intros g. unfold evaluate_bets.
    destruct (H None) as [e E]; [discriminate|]. rewrite E. simpl. eauto.
  - intros g <-. unfold rank_command. apply H. discriminate.
Qed.

Lemma rankings_raise_on_unlisted_finished_camel_witness :
  (forall ws, (forall l, ws = Some l -> ~ In Yellow l) ->
              exists e, get_rankings finished_board ws = Raise e) /\
  (forall g, exists e, evaluate_bets g finished_board = Raise e) /\
  (forall g, board g = finished_board -> exists e, rank_command g = Raise e).
Proof.
  apply (rankings_raise_on_unlisted_finished_camel finished_board Yellow 17).
  - reflexivity.
  - unfold BOARD_SIZE. lia.
Defined.

(* ================================================================= *)
(** ** The round ledger                                                *)
(* ================================================================= *)

Lemma net_win_sum fst_c snd_c owned :
  net_win fst_c snd_c owned = sumZ (map (payoff fst_c snd_c) owned).
Proof.
  unfold net_win.
  assert (G : forall acc,
    fold_left
      (fun acc b =>
         if Camel_eq_dec fst_c (bet_camel b) then acc + bet_value (size b)
         else if Camel_eq_dec snd_c (bet_camel b) then acc + 1
         else acc - 1) owned acc
    = acc + sumZ (map (payoff fst_c snd_c) owned)).
  { induction owned as [|w t IH]; intros acc; simpl; [lia|].
    rewrite IH. unfold payoff.
    destruct (Camel_eq_dec fst_c (bet_camel w)), (Camel_eq_dec (bet_camel w) fst_c);
      try congruence; try lia.
    destruct (Camel_eq_dec snd_c (bet_camel w)), (Camel_eq_dec (bet_camel w) snd_c);
      try congruence; lia. }
  now rewrite G.
Qed.

Section DictMiddle.
Context {K V : Type} (eq_dec : forall x y : K, {x = y} + {x <> y}).

Lemma dict_get_middle (pre post : list (K * V)) k v :
  ~ In k (keys pre) -> dict_get eq_dec (pre ++ (k, v) :: post) k = Some v.
Proof.
  induction pre as [|[k' v'] t IH]; simpl; intros H.
  - destruct (eq_dec k k); congruence.
  - destruct (eq_dec k' k); [tauto|]. apply IH. tauto.
Qed.

Lemma dict_set_middle (pre post : list (K * V)) k v v' :
  ~ In k (keys pre) ->
  dict_set eq_dec (pre ++ (k, v) :: post) k v' = pre ++ (k, v') :: post.
Proof.
  induction pre as [|[k' v'0] t IH]; simpl; intros H.
  - destruct (eq_dec k k); congruence.
  - destruct (eq_dec k' k); [tauto|]. f_equal. apply IH. tauto.
Qed.
End DictMiddle.

(** The loop over the players is the pointwise update of the dict. *)
Lemma settle_map fst_c snd_c (items pre : Players) :
  NoDup (keys (pre ++ items)) ->
  settle fst_c snd_c items (pre ++ items) =
  Ok (pre ++ map (fun it =>
                    (fst it,
                     mkPlayer (Z.max (balance (snd it)
                                      + net_win fst_c snd_c (owned_bets (snd it))) 0)
                              (owned_bets (snd it)))) items).
Proof.
  revert pre. induction items as [|[name pl] rest IH]; intros pre ND; simpl; auto.
  assert (Hn : ~ In name (keys pre)).
  { unfold keys in *. rewrite map_app in ND. apply NoDup_app_inv in ND.
    destruct ND as (_ & _ & D). intros F. apply (D name F). now left. }
  unfold change_balance. rewrite dict_get_middle by assumption.
  rewrite dict_set_middle by assumption. cbn [bind].
  specialize (IH (pre ++ [(name,
    mkPlayer (Z.max (balance pl + net_win fst_c snd_c (owned_bets pl)) 0)
             (owned_bets pl))])).
  rewrite <- !app_assoc in IH. simpl in IH. apply IH.
  unfold keys in *. rewrite !map_app in *. simpl in *. exact ND.
Qed.

(** The settlement runs when the camel that moves is the last one left:
    [apply_action] then hands the moved board to [evaluate_bets], the
    mover's stipend and the reward of a used jump being paid first. *)
Lemma apply_action_settles_after_last_camel g who m b' o w ps ps' :
  remove Camel_eq_dec (camel m) (camels_left g) = [] ->
  match who with
  | None => if mem_camel (camel m) (camels_left g) then Ok (players g)
            else change_balance (players g) who 1
  | Some _ => change_balance (players g) who 1
  end = Ok ps ->
  apply_move (board g) m = Ok (b', o, w) ->
  match o with
  | None => Ok ps
  | Some _ => change_balance ps o 1
  end = Ok ps' ->
  apply_action g (mkOwnedAction who (Roll m)) =
  g' <- evaluate_bets (mkGame (board g) ps' (bets g) (camels_left g)) b' ;;
  Ok (g', w).
Proof.
  intros Hleft Hps Hmove Hps'. unfold apply_action. cbn [action owner].
  rewrite Hps. cbn [bind]. rewrite Hmove. cbn [bind].
  rewrite Hps'. cbn [bind]. now rewrite Hleft.
Qed.

(** C7.  When a ranking is defined, with [fst_c] and [snd_c] its two
    first camels, the settlement gives every player the sum over the
    owned wagers of the denomination (wager on [fst_c]), 1 (wager on
    [snd_c]) or -1 (any other), with the balance held at 0 or more;
    afterwards the board has no jump and is otherwise unchanged, the
    wager pools are full, no player owns a wager, and all camels are to
    move. *)
Theorem settlement_pays_wagers_and_resets_round
    (g : Game) (b : Board) (fst_c snd_c : Camel) (rest : list Camel) :
  NoDup (keys (players g)) ->
  get_rankings b None = Ok (fst_c :: snd_c :: rest) ->
  exists g', evaluate_bets g b = Ok g' /\
    players g' =
      map (fun it =>
             (fst it,
              mkPlayer (Z.max (balance (snd it)
                               + sumZ (map (payoff fst_c snd_c) (owned_bets (snd it)))) 0)
                       []))
          (players g) /\
    (forall name pl, In (name, pl) (players g') -> 0 <= balance pl /\ owned_bets pl = []) /\
    (forall q, jump_at (fields (board g')) q = false) /\
    (forall q, stack_at (fields (board g')) q = stack_at (fields b) q) /\
    length (fields (board g')) = length (fields b) /\
    index (board g') = index b /\
    bets g' = reset_bets /\
    (forall c, dict_get Camel_eq_dec (bets g') c = Some [Low; Med; High]) /\
    camels_left g' = all_camels.
Proof.
  intros ND Hr. unfold evaluate_bets. rewrite Hr. cbn [bind].
  pose proof (settle_map fst_c snd_c (players g) [] ND) as E. simpl in E.
  rewrite E. cbn [bind]. eexists. split; [reflexivity|]. cbn.
  assert (Hmap : map (fun '(name, p) => (name, mkPlayer (balance p) []))
     (map (fun it =>
             (fst it,
              mkPlayer (Z.max (balance (snd it)
                               + net_win fst_c snd_c (owned_bets (snd it))) 0)
                       (owned_bets (snd it)))) (players g))
   = map (fun it =>
            (fst it,
             mkPlayer (Z.max (balance (snd it)
                              + sumZ (map (payoff fst_c snd_c) (owned_bets (snd it)))) 0)
                      [])) (players g)).
  { rewrite map_map. apply map_ext. intros [name pl]. simpl.
    now rewrite net_win_sum. }
  rewrite Hmap. repeat split.
  - apply in_map_iff in H. destruct H as ([n0 p0] & H & _).
    inversion H. simpl. lia.
  - apply in_map_iff in H. destruct H as ([n0 p0] & H & _).
    now inversion H.
  - intros q. unfold jump_at. rewrite nth_error_map.
    destruct (nth_error (fields b) q) as [[| |]|]; reflexivity.
  - intros q. unfold stack_at. rewrite nth_error_map.
    destruct (nth_error (fields b) q) as [[| |]|]; reflexivity.
  - apply length_map.
  - intros c. destruct c; reflexivity.
Qed.

Lemma settlement_pays_wagers_and_resets_round_witness :
  exists g', evaluate_bets demo_game demo_board = Ok g' /\
    players g' =
      map (fun it =>
             (fst it,
              mkPlayer (Z.max (balance (snd it)
                               + sumZ (map (payoff Green Orange) (owned_bets (snd it)))) 0)
                       []))
          (players demo_game) /\
    (forall name pl, In (name, pl) (players g') -> 0 <= balance pl /\ owned_bets pl = []) /\
    (forall q, jump_at (fields (board g')) q = false) /\
    (forall q, stack_at (fields (board g')) q = stack_at (fields demo_board) q) /\
    length (fields (board g')) = length (fields demo_board) /\
    index (board g') = index demo_board /\
    bets g' = reset_bets /\
    (forall c, dict_get Camel_eq_dec (bets g') c = Some [Low; Med; High]) /\
    camels_left g' = all_camels.
Proof.
  apply (settlement_pays_wagers_and_resets_round
           demo_game demo_board Green Orange [Blue; White; Yellow]).
  - repeat constructor; simpl; intuition discriminate.
  - vm_compute. reflexivity.
Defined.

(* ================================================================= *)
(** ** Placing a jump                                                  *)
(* ================================================================= *)

(** C8, as stated, fails: [apply_action] puts a jump on field 3 of the
    example game although Orange stands there and both neighbouring
    fields hold jumps, and it puts a jump on field 0. *)
Lemma core_accepts_forbidden_placements :
  stack_at (fields (board demo_game)) 3 = Some [Orange] /\
  jump_at (fields (board demo_game)) 2 = true /\
  jump_at (fields (board demo_game)) 4 = true /\
  (exists g', apply_action demo_game
                (mkOwnedAction (Some "ann"%string) (Place 3 Forward)) = Ok (g', None) /\
              nth_error (fields (board g')) 3 =
              Some (JumpField Forward (Some "ann"%string))) /\
  (exists g', apply_action demo_game
                (mkOwnedAction (Some "ann"%string) (Place 0 Forward)) = Ok (g', None) /\
              nth_error (fields (board g')) 0 =
              Some (JumpField Forward (Some "ann"%string))).
Proof.
  repeat split; try reflexivity; eexists; split; vm_compute; reflexivity.
Qed.

Lemma getitem_in_range {A : Type} (l : list A) (i : Z) :
  0 <= i < Z.of_nat (length l) ->
  exists x, nth_error l (Z.to_nat i) = Some x /\ getitem l i = Ok x.
Proof.
  intros H. destruct (nth_error_in_range l (Z.to_nat i)) as [x Hx]; [lia|].
  exists x. split; auto.
  rewrite <- (Z2Nat.id i) by lia. now apply getitem_nat.
Qed.

Lemma getitem_set_nth {A : Type} (l : list A) (i : Z) (n : nat) (x : A) :
  norm_index (length l) i = Some n -> getitem (set_nth l n x) i = Ok x.
Proof.
  intros H. unfold getitem. rewrite length_set_nth, H.
  rewrite nth_set_nth_eq; auto.
  unfold norm_index in H.
  destruct ((0 <=? i) && (i <? Z.of_nat (length l))) eqn:E1.
  - inversion H. apply andb_true_iff in E1. destruct E1 as [E1 E2].
    apply Z.leb_le in E1. apply Z.ltb_lt in E2. lia.
  - destruct ((- Z.of_nat (length l) <=? i) && (i <? 0)) eqn:E2; [|discriminate].
    inversion H. apply andb_true_iff in E2. destruct E2 as [E2 E3].
    apply Z.leb_le in E2. apply Z.ltb_lt in E3. lia.
Qed.

(** What [parse_place] lets through. *)
Lemma parse_place_accepts (g : Game) (number : Z) (sign : Jump) (a : Action) :
  length (fields (board g)) = 16%nat ->
  a = Place (number - 1) sign /\ 1 <= number - 1 <= 15 /\
  nth_error (fields (board g)) (Z.to_nat (number - 1)) = Some EmptyField /\
  jump_at (fields (board g)) (Z.to_nat (number - 1) - 1) = false /\
  jump_at (fields (board g)) (Z.to_nat (number - 1) + 1) = false ->
  parse_place g number sign = Ok a.
Proof.
  intros Hlen (-> & Hr & Hf & Jl & Jr). unfold parse_place.
  set (pos := number - 1) in *.
  replace (pos =? 0) with false by (symmetry; apply Z.eqb_neq; lia).
  replace ((0 <=? pos) && (pos <? 16)) with true
    by (symmetry; apply andb_true_iff; split; [apply Z.leb_le | apply Z.ltb_lt]; lia).
  cbn [negb].
  destruct (getitem_in_range (fields (board g)) pos) as (f & Hf' & Gf); [lia|].
  rewrite Hf in Hf'. inversion Hf'; subst f. rewrite Gf. cbn [bind is_none negb].
  destruct (getitem_in_range (fields (board g)) (pos - 1)) as (l & Hl & Gl); [lia|].
  rewrite Gl. cbn [bind].
  replace (is_jump l) with false.
  2:{ rewrite <- Jl. unfold jump_at.
      replace (Z.to_nat pos - 1)%nat with (Z.to_nat (pos - 1)) by lia.
      rewrite Hl. now destruct l. }
  destruct (pos =? 15) eqn:E15; cbn [negb]; auto.
  apply Z.eqb_neq in E15.
  destruct (getitem_in_range (fields (board g)) (pos + 1)) as (r & Hr' & Gr); [lia|].
  rewrite Gr. cbn [bind].
  replace (is_jump r) with false; auto.
  rewrite <- Jr. unfold jump_at.
  replace (Z.to_nat pos + 1)%nat with (Z.to_nat (pos + 1)) by lia.
  rewrite Hr'. now destruct r.
Qed.

(** The offset Python gives a subscript of a list of sixteen items. *)
Lemma norm_index_sixteen (pos : Z) :
  -16 <= pos < 16 -> norm_index 16 pos = Some (Z.to_nat (pos mod 16)).
Proof.
  intros H. unfold norm_index.
  destruct (0 <=? pos) eqn:E0; cbn [andb].
  - apply Z.leb_le in E0.
    replace (pos <? Z.of_nat 16) with true by (symmetry; apply Z.ltb_lt; lia).
    now rewrite Z.mod_small by lia.
  - apply Z.leb_gt in E0.
    replace (- Z.of_nat 16 <=? pos) with true by (symmetry; apply Z.leb_le; lia).
    replace (pos <? 0) with true by (symmetry; apply Z.ltb_lt; lia).
    cbn [andb]. do 2 f_equal.
    apply (Z.mod_unique pos 16 (-1)); lia.
Qed.

(** C8, amended.  On a board of sixteen fields, [apply_action] with a
    [Place] action checks nothing: for every subscript Python accepts
    (-16 to 15) it overwrites that field with the jump and changes nothing
    else: the track keeps its sixteen fields, every other field is as it
    was, and so are the index, the players, the pools and the camels
    left.  Any other subscript raises [IndexError], as a list assignment
    does.  The placement is checked in the shell, by [parse_place]: what
    it accepts is a position from 1 to 15 whose field is empty and whose
    neighbouring fields hold no jump, and everything else it refuses with
    a [ParseError]. *)
Theorem placement_is_checked_by_parse_place_only (g : Game) :
  length (fields (board g)) = 16%nat ->
  (forall who pos j, -16 <= pos < 16 ->
     exists g', apply_action g (mkOwnedAction who (Place pos j)) = Ok (g', None) /\
       getitem (fields (board g')) pos = Ok (JumpField j who) /\
       length (fields (board g')) = 16%nat /\
       (forall q, q <> Z.to_nat (pos mod 16) ->
          nth_error (fields (board g')) q = nth_error (fields (board g)) q) /\
       index (board g') = index (board g) /\ players g' = players g /\
       bets g' = bets g /\ camels_left g' = camels_left g) /\
  (forall who pos j, pos < -16 \/ 16 <= pos ->
     apply_action g (mkOwnedAction who (Place pos j)) = Raise IndexError) /\
  (forall number sign a, parse_place g number sign = Ok a <->
     a = Place (number - 1) sign /\ 1 <= number - 1 <= 15 /\
     nth_error (fields (board g)) (Z.to_nat (number - 1)) = Some EmptyField /\
     jump_at (fields (board g)) (Z.to_nat (number - 1) - 1) = false /\
     jump_at (fields (board g)) (Z.to_nat (number - 1) + 1) = false) /\
  (forall number sign,
     (exists a, parse_place g number sign = Ok a) \/
     (exists msg, parse_place g number sign = Raise (ParseError msg))).
Proof.
  intros Hlen. split; [|split; [|split]].
  - intros who pos j Hpos. unfold apply_action. cbn [action owner].
    unfold setitem.
    pose proof (norm_index_sixteen pos Hpos) as E. rewrite <- Hlen in E.
    rewrite E. cbn [bind]. eexists. split; [reflexivity|].
    cbn [board fields index players bets camels_left].
    split; [now apply getitem_set_nth|].
    split; [now rewrite length_set_nth|].
    split; [|repeat split].
    intros q Hq. apply nth_set_nth_ne. congruence.
  - intros who pos j Hpos. unfold apply_action. cbn [action owner].
    unfold setitem. rewrite Hlen.
    replace (norm_index 16 pos) with (@None nat); [reflexivity|].
    unfold norm_index.
    destruct Hpos as [Hpos|Hpos].
    + replace (0 <=? pos) with false by (symmetry; apply Z.leb_gt; lia).
      replace (- Z.of_nat 16 <=? pos) with false by (symmetry; apply Z.leb_gt; lia).
      reflexivity.
    + replace (pos <? Z.of_nat 16) with false by (symmetry; apply Z.ltb_ge; lia).
      replace (pos <? 0) with false by (symmetry; apply Z.ltb_ge; lia).
      now rewrite !andb_false_r.
  - intros number sign a. split; [|apply parse_place_accepts; assumption].
    unfold parse_place.
    set (pos := number - 1).
    destruct (pos =? 0) eqn:E0; [discriminate|]. apply Z.eqb_neq in E0.
    destruct ((0 <=? pos) && (pos <? 16)) eqn:E1; [|discriminate].
    apply andb_true_iff in E1. destruct E1 as [E1 E2].
    apply Z.leb_le in E1. apply Z.ltb_lt in E2. cbn [negb].
    destruct (getitem_in_range (fields (board g)) pos) as (f & Hf & Gf); [lia|].
    rewrite Gf. cbn [bind].
    destruct f; cbn [is_none negb]; try discriminate.
    destruct (getitem_in_range (fields (board g)) (pos - 1)) as (l & Hl & Gl); [lia|].
    rewrite Gl. cbn [bind].
    assert (Jl : jump_at (fields (board g)) (Z.to_nat pos - 1) = is_jump l).
    { unfold jump_at. replace (Z.to_nat pos - 1)%nat with (Z.to_nat (pos - 1)) by lia.
      rewrite Hl. now destruct l. }
    destruct (is_jump l); [discriminate|].
    destruct (pos =? 15) eqn:E15; cbn [negb].
    + apply Z.eqb_eq in E15. intros H. inversion H.
      repeat split; auto; try lia.
      unfold jump_at.
      replace (nth_error (fields (board g)) (Z.to_nat pos + 1)) with (@None BoardField);
        auto.
      symmetry. apply nth_error_None. lia.
    + apply Z.eqb_neq in E15.
      destruct (getitem_in_range (fields (board g)) (pos + 1)) as (r & Hr & Gr); [lia|].
      rewrite Gr. cbn [bind].
      assert (Jr : jump_at (fields (board g)) (Z.to_nat pos + 1) = is_jump r).
      { unfold jump_at. replace (Z.to_nat pos + 1)%nat with (Z.to_nat (pos + 1)) by lia.
        rewrite Hr. now destruct r. }
      destruct (is_jump r); [discriminate|].
      intros H. inversion H. repeat split; auto; lia.
  - intros number sign. unfold parse_place.
    set (pos := number - 1).
    destruct (pos =? 0) eqn:E0; [eauto|]. apply Z.eqb_neq in E0.
    destruct ((0 <=? pos) && (pos <? 16)) eqn:E1; cbn [negb]; [|eauto].
    apply andb_true_iff in E1. destruct E1 as [E1 E2].
    apply Z.leb_le in E1. apply Z.ltb_lt in E2.
    destruct (getitem_in_range (fields (board g)) pos) as (f & Hf & Gf); [lia|].
    rewrite Gf. cbn [bind].
    destruct (is_none f); cbn [negb]; [|eauto].
    destruct (getitem_in_range (fields (board g)) (pos - 1)) as (l & Hl & Gl); [lia|].
    rewrite Gl. cbn [bind].
    destruct (is_jump l); [eauto|].
    destruct (pos =? 15) eqn:E15; cbn [negb]; [eauto|].
    apply Z.eqb_neq in E15.
    destruct (getitem_in_range (fields (board g)) (pos + 1)) as (r & Hr & Gr); [lia|].
    rewrite Gr. cbn [bind].
    destruct (is_jump r); eauto.
Qed.

Lemma placement_is_checked_by_parse_place_only_witness :
  (forall who pos j, -16 <= pos < 16 ->
     exists g', apply_action demo_game (mkOwnedAction who (Place pos j)) = Ok (g', None) /\
       getitem (fields (board g')) pos = Ok (JumpField j who) /\
       length (fields (board g')) = 16%nat /\
       (forall q, q <> Z.to_nat (pos mod 16) ->
          nth_error (fields (board g')) q = nth_error (fields (board demo_game)) q) /\
       index (board g') = index (board demo_game) /\ players g' = players demo_game /\
       bets g' = bets demo_game /\ camels_left g' = camels_left demo_game) /\
  (forall who pos j, pos < -16 \/ 16 <= pos ->
     apply_action demo_game (mkOwnedAction who (Place pos j)) = Raise IndexError) /\
  (forall number sign a, parse_place demo_game number sign = Ok a <->
     a = Place (number - 1) sign /\ 1 <= number - 1 <= 15 /\
     nth_error (fields (board demo_game)) (Z.to_nat (number - 1)) = Some EmptyField /\
     jump_at (fields (board demo_game)) (Z.to_nat (number - 1) - 1) = false /\
     jump_at (fields (board demo_game)) (Z.to_nat (number - 1) + 1) = false) /\
  (forall number sign,
     (exists a, parse_place demo_game number sign = Ok a) \/
     (exists msg, parse_place demo_game number sign = Raise (ParseError msg))).
Proof.
  apply (placement_is_checked_by_parse_place_only demo_game). reflexivity.
Defined.

(* ================================================================= *)
(** ** The combinations of the simulator                               *)
(* ================================================================= *)

Lemma length_flat_map_const {A B : Type} (f : A -> list B) (l : list A) (k : nat) :
  (forall x, In x l -> length (f x) = k) ->
  length (flat_map f l) = (length l * k)%nat.
Proof.
  induction l as [|x t IH]; intros H; simpl; auto.
  rewrite length_app, (H x) by (simpl; auto).
  rewrite IH; [reflexivity|]. intros y Hy. apply H. now right.
Qed.

Lemma selections_spec {A : Type} (l : list A) x r :
  In (x, r) (selections l) <-> exists l1 l2, l = l1 ++ x :: l2 /\ r = l1 ++ l2.
Proof.
  revert x r. induction l as [|y t IH]; intros x r; simpl.
  - split; [tauto|]. intros (l1 & l2 & E & _). now destruct l1.
  - split.
    + intros [E|H].
      * inversion E; subst. exists [], r. auto.
      * apply in_map_iff in H. destruct H as ([z r'] & E & H).
        inversion E; subst. apply IH in H. destruct H as (l1 & l2 & -> & ->).
        exists (y :: l1), l2. auto.
    + intros (l1 & l2 & E & ->). destruct l1 as [|z l1]; simpl in E; inversion E; subst.
      * now left.
      * right. apply in_map_iff. exists (x, l1 ++ l2). split; auto.
        apply IH. eauto.
Qed.

Lemma length_selections {A : Type} (l : list A) : length (selections l) = length l.
Proof. induction l; simpl; auto. now rewrite length_map, IHl. Qed.

Lemma length_permutations_upto {A : Type} (n : nat) (l : list A) :
  length l = n -> length (permutations_upto n l) = fact n.
Proof.
  revert l. induction n as [|n IH]; intros l H; simpl; auto.
  rewrite (length_flat_map_const _ _ (fact n)).
  - rewrite length_selections, H. simpl. lia.
  - intros [x r] Hin. rewrite length_map. apply IH.
    apply selections_spec in Hin. destruct Hin as (l1 & l2 & -> & ->).
    rewrite length_app in *. simpl in H. lia.
Qed.

Lemma permutations_upto_spec {A : Type} (n : nat) (l o : list A) :
  length l = n -> (In o (permutations_upto n l) <-> Permutation o l).
Proof.
  revert l o. induction n as [|n IH]; intros l o H; simpl.
  - destruct l; [|discriminate]. split.
    + intros [<-|[]]. constructor.
    + intros P. apply Permutation_sym, Permutation_nil in P. now left.
  - rewrite in_flat_map. split.
    + intros ([x r] & Hs & Ho). apply in_map_iff in Ho. destruct Ho as (o' & <- & Ho).
      apply selections_spec in Hs. destruct Hs as (l1 & l2 & -> & ->).
      apply IH in Ho; [|rewrite length_app in *; simpl in H; lia].
      now apply Permutation_cons_app.
    + intros P. destruct o as [|x o'].
      * apply Permutation_length in P. simpl in P. lia.
      * assert (Hx : In x l) by (eapply Permutation_in; [exact P | now left]).
        apply in_split in Hx. destruct Hx as (l1 & l2 & ->).
        exists (x, l1 ++ l2). split; [apply selections_spec; eauto|].
        apply in_map. apply IH.
        -- rewrite length_app in *. simpl in H. lia.
        -- now apply Permutation_cons_app_inv in P.
Qed.

Lemma length_step_products (n : nat) : length (step_products n) = (3 ^ n)%nat.
Proof.
  induction n as [|n IH]; simpl; auto.
  rewrite !length_app, !length_map, IH. simpl. lia.
Qed.

Lemma step_products_spec (n : nat) (ss : list Z) :
  In ss (step_products n) <-> length ss = n /\ Forall (fun s => 1 <= s <= 3) ss.
Proof.
  revert ss. induction n as [|n IH]; intros ss; simpl.
  - split.
    + intros [<-|[]]. split; [reflexivity | constructor].
    + intros [H _]. destruct ss; [now left | discriminate].
  - rewrite !in_app_iff, !in_map_iff. split.
    + intros H.
      assert (G : exists s t, ss = s :: t /\ 1 <= s <= 3 /\ In t (step_products n)).
      { destruct H as [(t & <- & H)|[(t & <- & H)|[(t & <- & H)|[]]]];
          eexists _, t; repeat split; auto; lia. }
      destruct G as (s & t & -> & Hs & Ht). apply IH in Ht. destruct Ht as [Hl Hf].
      split; [simpl; now rewrite Hl | now constructor].
    + intros [Hl Hf]. destruct ss as [|s t]; [discriminate|].
      inversion Hf as [|? ? Hs Ht]; subst. simpl in Hl.
      assert (Hin : In t (step_products n)) by (apply IH; split; [lia | assumption]).
      assert (Hc : s = 1 \/ s = 2 \/ s = 3) by lia.
      destruct Hc as [-> | [-> | ->]]; eauto 6.
Qed.

Lemma length_combinations (left : list Camel) :
  length (combinations left) = (fact (length left) * 3 ^ length left)%nat.
Proof.
  unfold combinations, permutations.
  rewrite (length_flat_map_const _ _ (3 ^ length left)).
  - now rewrite length_permutations_upto.
  - intros o _. now rewrite length_map, length_step_products.
Qed.

Lemma combinations_spec (left order : list Camel) (ss : list Z) :
  In (order, ss) (combinations left) <->
  Permutation order left /\ length ss = length left /\
  Forall (fun s => 1 <= s <= 3) ss.
Proof.
  unfold combinations, permutations. rewrite in_flat_map. split.
  - intros (o & Ho & H). apply in_map_iff in H. destruct H as (t & E & Ht).
    inversion E; subst. apply permutations_upto_spec in Ho; auto.
    apply step_products_spec in Ht. tauto.
  - intros (P & Hl & Hf). exists order. split.
    + now apply permutations_upto_spec.
    + apply in_map. now apply step_products_spec.
Qed.

Lemma total_paths_succ (n : nat) :
  total_paths (S n) = total_paths n * (3 * Z.of_nat (S n)).
Proof.
  unfold total_paths. rewrite seq_S, fold_left_app. reflexivity.
Qed.

Lemma total_paths_closed (n : nat) : total_paths n = Z.of_nat (fact n * 3 ^ n).
Proof.
  induction n as [|n IH]; [reflexivity|].
  rewrite total_paths_succ, IH.
  change (fact (S n)) with (S n * fact n)%nat.
  rewrite Nat.pow_succ_r'. lia.
Qed.

Lemma total_paths_pos (n : nat) : 0 < total_paths n.
Proof.
  rewrite total_paths_closed.
  pose proof (lt_O_fact n). assert (3 ^ n <> 0)%nat by (apply Nat.pow_nonzero; lia).
  nia.
Qed.

(* ================================================================= *)
(** ** The leg simulator                                               *)
(* ================================================================= *)

(** One move of the replay, all five camels being on the track. *)
Lemma move_step b c st :
  well_formed b -> all_on_track b -> 1 <= st <= 3 ->
  exists b' o w, apply_move b (mkMove c st) = Ok (b', o, w) /\
    well_formed b' /\
    (forall d, pos_of b' d <> None) /\
    (w = None -> all_on_track b') /\
    (forall l, w = Some l ->
       forall d p, pos_of b' d = Some p -> BOARD_SIZE <= p -> In d l).
Proof.
  intros [Hok Hadj] Hall Hst.
  destruct (Hall c) as (p & Hp & Hlt).
  destruct (on_track_stack b c p Hok Hp Hlt) as (q & s & h & -> & Hs & Hh).
  set (carried := skipn h s).
  assert (Hpos : forall k d, exists v,
            dict_get Camel_eq_dec (bump (index b) carried (k - Z.of_nat q)) d = Some v /\
            (In d carried -> v = k) /\
            (~ In d carried -> v < BOARD_SIZE)).
  { intros k d. destruct (Hall d) as (pd & Hd & Hdlt). unfold pos_of in Hd.
    destruct (in_dec Camel_eq_dec d carried) as [I|N].
    - exists k. rewrite (get_bump_in _ _ _ _ pd I Hd).
      pose proof (lift_pos b q s Hok Hs d (lift_carried_in h s d I)) as E.
      unfold pos_of in E. rewrite Hd in E. inversion E.
      repeat split; [f_equal; lia | tauto].
    - exists pd. rewrite get_bump_out by assumption. tauto. }
  assert (Hwf : forall r, apply_move b (mkMove c st) = Ok r -> well_formed (fst (fst r))).
  { intros r Hr. destruct (apply_move_keeps_ok b c st r Hok Hst Hr) as [H1 H2].
    split; auto. intros x. rewrite !H2. apply Hadj. }
  destruct (later_total b c st q h s Hok Hst Hp Hs Hh Hadj)
    as [[Hge E]|(q' & f & old & Hq' & Hlt' & Hf & Ho & E)]; fold carried in E.
  - do 3 eexists. split; [exact E|].
    split; [apply (Hwf _ E)|]. unfold pos_of. cbn [index]. repeat split.
    + intros d. destruct (Hpos (final_landing b (Z.of_nat q) st) d) as (v & -> & _).
      discriminate.
    + discriminate.
    + intros l Hl d v Hd Hv. inversion Hl; subst l.
      destruct (Hpos (final_landing b (Z.of_nat q) st) d) as (v' & Hd' & _ & Hout).
      rewrite Hd in Hd'. inversion Hd'; subst v'.
      destruct (in_dec Camel_eq_dec d carried) as [I|N]; auto.
      specialize (Hout N). lia.
  - do 3 eexists. split; [exact E|].
    split; [apply (Hwf _ E)|]. unfold all_on_track, pos_of. cbn [index]. repeat split.
    + intros d. destruct (Hpos (final_landing b (Z.of_nat q) st) d) as (v & -> & _).
      discriminate.
    + intros _ d.
      destruct (Hpos (final_landing b (Z.of_nat q) st) d) as (v & Hd & Hin & Hout).
      exists v. split; auto.
      destruct (in_dec Camel_eq_dec d carried) as [I|N]; auto.
      rewrite (Hin I). unfold BOARD_SIZE. lia.
    + discriminate.
Qed.

Lemma replay_ok w moves :
  forall b wst sh,
    well_formed b -> all_on_track b ->
    Forall (fun m => 1 <= steps m <= 3) moves ->
    moves <> [] \/ wst = Ok None ->
    exists b' ws sh', replay w b wst sh moves = Ok (b', ws, sh') /\
      board_ok b' /\
      (forall d, pos_of b' d <> None) /\
      (forall d p, pos_of b' d = Some p -> BOARD_SIZE <= p ->
                   exists l, ws = Some l /\ In d l).
Proof.
  induction moves as [|[c st] rest IH]; intros b wst sh Hwf Hall Hst Hne.
  - destruct Hne as [F| ->]; [congruence|]. simpl.
    do 3 eexists. split; [reflexivity|]. split; [apply Hwf|]. split.
    + intros d. destruct (Hall d) as (p & -> & _). discriminate.
    + intros d p Hd Hge. destruct (Hall d) as (p' & Hd' & Hlt).
      rewrite Hd in Hd'. inversion Hd'. lia.
  - inversion Hst as [|? ? Hc Hrest]; subst. simpl in Hc.
    destruct (move_step b c st Hwf Hall Hc) as (b' & o & ws & E & Hwf' & Hk & Hon & Hfin).
    cbn [replay]. rewrite E. cbn [bind].
    destruct ws as [l|].
    + do 3 eexists. split; [reflexivity|]. split; [apply Hwf'|]. split; auto.
      intros d p Hd Hge. exists l. split; auto. eapply Hfin; eauto.
    + apply IH; auto.
Qed.

Lemma zip_moves_steps (order : list Camel) (ss : list Z) :
  Forall (fun s => 1 <= s <= 3) ss ->
  Forall (fun m => 1 <= steps m <= 3) (zip_moves order ss).
Proof.
  intros H. revert order. induction H as [|s t Hs Ht IH]; intros [|c order];
    unfold zip_moves; simpl; constructor; auto.
  apply IH.
Qed.

Lemma zip_moves_nonempty (order : list Camel) (ss : list Z) :
  order <> [] -> ss <> [] -> zip_moves order ss <> [].
Proof. destruct order, ss; unfold zip_moves; simpl; intros; congruence. Qed.

(** On a board in order whose finished camels are listed, the ranking
    holds the camels of the index. *)
Lemma get_rankings_perm b ws :
  board_ok b ->
  (forall c p, pos_of b c = Some p -> BOARD_SIZE <= p ->
               exists l, ws = Some l /\ In c l) ->
  exists r, get_rankings b ws = Ok r /\ Permutation r (keys (index b)).
Proof.
  intros Hok Hws.
  destruct (unsorted_camels_ok b ws Hok Hws) as (us & Eus & Hfst & _).
  exists (map fst (sorted_desc us)). split.
  - unfold get_rankings. now rewrite Eus.
  - rewrite <- Hfst. apply Permutation_map. apply sorted_desc_perm.
Qed.

Lemma get_rankings_five b ws :
  board_ok b -> (forall d, pos_of b d <> None) ->
  (forall c p, pos_of b c = Some p -> BOARD_SIZE <= p ->
               exists l, ws = Some l /\ In c l) ->
  exists c1 c2 c3 c4 c5, get_rankings b ws = Ok [c1; c2; c3; c4; c5] /\ c1 <> c2.
Proof.
  intros Hok Hall Hws.
  destruct (get_rankings_perm b ws Hok Hws) as (r & E & P).
  assert (P5 : Permutation (keys (index b)) all_camels).
  { apply all_camels_listed; [apply Hok|].
    intros c. apply (dict_get_keys Camel_eq_dec). apply Hall. }
  pose proof (Permutation_trans P P5) as Pr.
  pose proof (Permutation_length Pr) as L. simpl in L.
  assert (ND : NoDup r).
  { apply (Permutation_NoDup (Permutation_sym Pr)).
    unfold all_camels. repeat constructor; simpl; intuition discriminate. }
  destruct r as [|c1 [|c2 [|c3 [|c4 [|c5 [|]]]]]]; try discriminate.
  exists c1, c2, c3, c4, c5. split; auto.
  inversion ND as [|? ? Hn _]; subst. intros <-. apply Hn. now left.
Qed.

Lemma tally_total_add (t : Tally Camel) (c : Camel) (w : Q) :
  (tally_total (tally_add Camel_eq_dec t c w) == tally_total t + w)%Q.
Proof.
  unfold tally_total, tally_add, all_camels. destruct c; simpl; ring.
Qed.

Lemma tally_total_zero : (tally_total tally_zero == 0)%Q.
Proof. reflexivity. Qed.

(** What one combination adds to the tallies. *)
Lemma simulate_one_adds g w acc wst combo acc' ws :
  simulate_one g w acc wst combo = Ok (acc', ws) ->
  exists c1 c2,
    fst_p acc' = tally_add Camel_eq_dec (fst_p acc) c1 w /\
    snd_p acc' = tally_add Camel_eq_dec (snd_p acc) c2 w.
Proof.
  unfold simulate_one.
  destruct (replay w (board g) wst (shifts acc) (zip_moves (fst combo) (snd combo)))
    as [[[sb ws'] sh]|]; cbn [bind]; [|discriminate].
  destruct (get_rankings sb ws') as [r|]; cbn [bind]; [|discriminate].
  destruct r as [|c1 [|c2 [|c3 [|c4 [|c5 [|]]]]]]; try discriminate.
  destruct ws'; intros H; inversion H; subst; simpl; eauto.
Qed.

Lemma simulate_one_ok g w acc wst order ss :
  well_formed (board g) -> all_on_track (board g) ->
  Forall (fun s => 1 <= s <= 3) ss -> order <> [] -> ss <> [] ->
  exists acc' ws, simulate_one g w acc wst (order, ss) = Ok (acc', ws).
Proof.
  intros Hwf Hall Hss Ho Hs. unfold simulate_one. cbn [fst snd].
  destruct (replay_ok w (zip_moves order ss) (board g) wst (shifts acc) Hwf Hall)
    as (b' & ws & sh' & E & Hok & Hk & Hfin).
  - now apply zip_moves_steps.
  - left. now apply zip_moves_nonempty.
  - rewrite E. cbn [bind].
    destruct (get_rankings_five b' ws Hok Hk Hfin) as (c1 & c2 & c3 & c4 & c5 & R & _).
    rewrite R. cbn [bind]. destruct ws; eauto.
Qed.

Lemma inject_nat_succ (n : nat) (w : Q) :
  (inject_Z (Z.of_nat (S n)) * w == inject_Z (Z.of_nat n) * w + w)%Q.
Proof.
  rewrite Nat2Z.inj_succ. unfold Z.succ. rewrite inject_Z_plus. ring.
Qed.

Lemma simulate_all_ok g w combos :
  well_formed (board g) -> all_on_track (board g) ->
  (forall order ss, In (order, ss) combos ->
     order <> [] /\ ss <> [] /\ Forall (fun s => 1 <= s <= 3) ss) ->
  forall acc wst,
  exists pr, simulate_all g w acc wst combos = Ok pr /\
    (tally_total (fst_p pr) ==
     tally_total (fst_p acc) + inject_Z (Z.of_nat (length combos)) * w)%Q /\
    (tally_total (snd_p pr) ==
     tally_total (snd_p acc) + inject_Z (Z.of_nat (length combos)) * w)%Q.
Proof.
  intros Hwf Hall. induction combos as [|[order ss] rest IH]; intros Hc acc wst.
  - exists acc. split; [reflexivity|]. simpl. split; ring.
  - destruct (Hc order ss (or_introl eq_refl)) as (Ho & Hs & Hss).
    destruct (simulate_one_ok g w acc wst order ss Hwf Hall Hss Ho Hs) as (acc' & ws & E).
    destruct (simulate_one_adds _ _ _ _ _ _ _ E) as (c1 & c2 & F1 & F2).
    destruct (IH (fun o s H => Hc o s (or_intror H)) acc' (Ok ws)) as (pr & E' & T1 & T2).
    exists pr. cbn [simulate_all]. rewrite E. cbn [bind]. split; [exact E'|].
    rewrite T1, T2, F1, F2, !tally_total_add.
    change (length ((order, ss) :: rest)) with (S (length rest)).
    rewrite !inject_nat_succ. split; ring.
Qed.

(** C6, as stated, fails: that the five camels are on the track and
    that camels are left to move is not enough for the simulation to
    return.  The example game is well-formed.  Two placements made through
    [apply_action] put forward jumps on its empty fields 6 and 7; the
    shell's [parse_place] accepts the first and refuses the second, the
    core accepts both.  In the game they give, the five camels are on the
    track, each in the stack at its recorded position, and Yellow and
    White are left to move; but the simulation raises [TypeError] and
    returns no tallies.  On the path where Yellow moves 3 and White
    moves 3, White lands on the jump of field 6 and is sent on to the
    jump of field 7. *)
Lemma simulation_raises_between_neighbouring_jumps :
  well_formed (board demo_game) /\
  parse_place demo_game 7 Forward = Ok (Place 6 Forward) /\
  exists g, neighbouring_jumps_game = Ok g /\
    board_ok (board g) /\ all_on_track (board g) /\
    camels_left g = [Yellow; White] /\
    jump_at (fields (board g)) 6 = true /\
    jump_at (fields (board g)) 7 = true /\
    (exists b1, apply_move (board g) (mkMove Yellow 3) = Ok (b1, None, None) /\
                stack_at (fields b1) 3 = Some [Orange; Yellow; White] /\
                apply_move b1 (mkMove White 3) = Raise TypeError) /\
    simulate_probs g = Raise TypeError.
Proof.
  split; [apply well_formedb_sound; vm_compute; reflexivity|].
  split; [reflexivity|].
  eexists. split; [vm_compute; reflexivity|].
  split; [apply board_okb_sound; vm_compute; reflexivity|].
  split; [apply all_on_trackb_sound; vm_compute; reflexivity|].
  repeat (split; [reflexivity|]).
  split; [|vm_compute; reflexivity].
  eexists. split; [vm_compute; reflexivity|].
  split; vm_compute; reflexivity.
Qed.

(** C6, amended.  On a well-formed board, that is a board of sixteen
    fields on which every camel recorded below 16 stands in the stack at
    its recorded position, every camel in a stack is recorded at that
    field, no camel is repeated, and no two jumps lie on neighbouring
    fields: with all five camels on the track and [n >= 1] camels left to
    move, the
    simulator visits [n! * 3^n] combinations, namely every ordering of the
    camels left with every choice of steps in 1..3 for each; the weight of
    a combination is [1 / (n! * 3^n)]; a combination adds its weight to
    the first-place tally of one camel and to the second-place tally of
    one camel; the simulation returns, and with the float tallies taken as
    exact rationals its first-place tallies sum to 1 over the five camels,
    as do its second-place tallies. *)
Theorem simulation_visits_every_path_and_tallies_sum_to_one (g : Game) :
  well_formed (board g) -> all_on_track (board g) -> camels_left g <> [] ->
  let n := length (camels_left g) in
  length (combinations (camels_left g)) = (fact n * 3 ^ n)%nat /\
  (forall order ss,
     In (order, ss) (combinations (camels_left g)) <->
     Permutation order (camels_left g) /\ length ss = n /\
     Forall (fun s => 1 <= s <= 3) ss) /\
  total_paths n = Z.of_nat (fact n * 3 ^ n) /\
  (path_weight (camels_left g) == 1 / inject_Z (Z.of_nat (fact n * 3 ^ n)))%Q /\
  (forall w acc wst combo acc' ws,
     simulate_one g w acc wst combo = Ok (acc', ws) ->
     exists c1 c2,
       fst_p acc' = tally_add Camel_eq_dec (fst_p acc) c1 w /\
       snd_p acc' = tally_add Camel_eq_dec (snd_p acc) c2 w) /\
  exists pr, simulate_probs g = Ok pr /\
    (tally_total (fst_p pr) == 1)%Q /\ (tally_total (snd_p pr) == 1)%Q.
Proof.
  intros Hwf Hall Hne n.
  split; [apply length_combinations|].
  split; [apply combinations_spec|].
  split; [apply total_paths_closed|].
  split; [unfold path_weight; fold n; now rewrite total_paths_closed|].
  split; [apply simulate_one_adds|].
  unfold simulate_probs.
  destruct (simulate_all_ok g (path_weight (camels_left g))
              (combinations (camels_left g)) Hwf Hall) with
    (acc := mkProbs tally_zero tally_zero tally_zero tally_zero tally_zero)
    (wst := @Raise (option (list Camel)) NameError)
    as (pr & E & T1 & T2).
  { intros order ss H. apply combinations_spec in H. destruct H as (P & L & F).
    repeat split; auto.
    - intros ->. apply Permutation_nil in P. congruence.
    - intros ->. simpl in L. destruct (camels_left g); [congruence | discriminate]. }
  exists pr. split; [exact E|].
  assert (W : (inject_Z (Z.of_nat (length (combinations (camels_left g))))
               * path_weight (camels_left g) == 1)%Q).
  { rewrite length_combinations. unfold path_weight. fold n.
    rewrite total_paths_closed. field.
    intros F. pose proof (total_paths_pos n) as Hpos.
    rewrite total_paths_closed in Hpos.
    unfold Qeq in F. simpl in F. lia. }
  cbn [fst_p snd_p] in T1, T2.
  rewrite T1, T2, tally_total_zero, W. split; ring.
Qed.

Lemma simulation_visits_every_path_and_tallies_sum_to_one_witness :
  let n := length (camels_left demo_game) in
  length (combinations (camels_left demo_game)) = (fact n * 3 ^ n)%nat /\
  (forall order ss,
     In (order, ss) (combinations (camels_left demo_game)) <->
     Permutation order (camels_left demo_game) /\ length ss = n /\
     Forall (fun s => 1 <= s <= 3) ss) /\
  total_paths n = Z.of_nat (fact n * 3 ^ n) /\
  (path_weight (camels_left demo_game) == 1 / inject_Z (Z.of_nat (fact n * 3 ^ n)))%Q /\
  (forall w acc wst combo acc' ws,
     simulate_one demo_game w acc wst combo = Ok (acc', ws) ->
     exists c1 c2,
       fst_p acc' = tally_add Camel_eq_dec (fst_p acc) c1 w /\
       snd_p acc' = tally_add Camel_eq_dec (snd_p acc) c2 w) /\
  exists pr, simulate_probs demo_game = Ok pr /\
    (tally_total (fst_p pr) == 1)%Q /\ (tally_total (snd_p pr) == 1)%Q.
Proof.
  apply (simulation_visits_every_path_and_tallies_sum_to_one demo_game).
  - apply well_formedb_sound. vm_compute. reflexivity.
  - apply all_on_trackb_sound. vm_compute. reflexivity.
  - discriminate.
Defined.

(* ================================================================= *)
(** ** Further properties of board.py                                  *)
(* ================================================================= *)

Lemma validate_items_iff fs items :
  validate_items fs items = Ok tt <->
  Forall (fun it => snd it < BOARD_SIZE ->
            exists s, getitem fs (snd it) = Ok (CamelStack s) /\ In (fst it) s)
         items.
Proof.
  induction items as [|[c p] t IH]; simpl.
  - split; auto.
  - rewrite Forall_cons_iff. cbn [fst snd].
    destruct (BOARD_SIZE <=? p) eqn:E.
    + apply Z.leb_le in E. rewrite IH. split; [|tauto].
      intros H. split; auto. lia.
    + apply Z.leb_gt in E.
      assert (Hbad : (forall s, getitem fs p = Ok (CamelStack s) -> ~ In c s) ->
                ~ ((p < BOARD_SIZE ->
                    exists s, getitem fs p = Ok (CamelStack s) /\ In c s) /\
                   Forall (fun it => snd it < BOARD_SIZE ->
                     exists s, getitem fs (snd it) = Ok (CamelStack s) /\
                               In (fst it) s) t)).
      { intros Hn [H _]. destruct (H E) as (s & G & Hin). eapply Hn; eauto. }
      destruct (getitem fs p) as [f|e] eqn:G; cbn [bind].
      * destruct f as [|s|jt ow].
        -- split; [discriminate|]. intros H. exfalso. apply Hbad; auto. discriminate.
        -- destruct (mem_camel c s) eqn:M.
           ++ rewrite IH. split; [|tauto]. intros H. split; auto.
              intros _. exists s. split; auto. now apply mem_camel_true.
           ++ split; [discriminate|]. intros H. exfalso. apply Hbad; auto.
              intros s' F. inversion F; subst. now apply mem_camel_false.
        -- split; [discriminate|]. intros H. exfalso. apply Hbad; auto. discriminate.
      * split; [discriminate|]. intros H. exfalso. apply Hbad; auto. discriminate.
Qed.

(** X1.  [validate_board] accepts a board exactly when every item of the
    index with a position below 16 names a field (as Python subscripts it,
    negative positions included) that holds a stack with the camel in it;
    and whatever board [apply_move] hands back, for any board and any
    move, has been accepted. *)
Theorem validate_board_accepts_exactly_placed_camels (b : Board) :
  (validate_board b = Ok tt <->
   Forall (fun it => snd it < BOARD_SIZE ->
             exists s, getitem (fields b) (snd it) = Ok (CamelStack s) /\
                       In (fst it) s)
          (index b)) /\
  (forall m b' o w, apply_move b m = Ok (b', o, w) -> validate_board b' = Ok tt).
Proof.
  split; [apply validate_items_iff|].
  intros m b' o w. unfold apply_move.
  destruct (apply_move_body b m) as [r|]; cbn [bind]; [|discriminate].
  destruct (validate_board (fst (fst r))) as [[]|] eqn:V; cbn [bind]; [|discriminate].
  intros H. inversion H; subst. exact V.
Qed.

(** The shape of every board [apply_move] hands back from a board in
    order. *)
Lemma apply_move_shape b c st r :
  board_ok b -> 1 <= st <= 3 -> apply_move b (mkMove c st) = Ok r ->
  (pos_of b c = None /\
   exists q f old,
     nth_error (fields b) q = Some f /\ occupants f = Some old /\
     r = (mkBoard (set_nth (fields b) q (CamelStack (old ++ [c])))
                  (dict_set Camel_eq_dec (index b) c (Z.of_nat q)), None, None)) \/
  (exists p s h k o,
     pos_of b c = Some (Z.of_nat p) /\ stack_at (fields b) p = Some s /\
     find_index Camel_eq_dec s c = Some h /\ 0 <= k <= 4 /\
     let carried := skipn h s in
     let lifted := set_nth (fields b) p (stack_or_none (firstn h s)) in
     r = (mkBoard lifted (bump (index b) carried k), o, Some carried) \/
     exists q f old new,
       nth_error lifted q = Some f /\ occupants f = Some old /\
       Permutation new (carried ++ old) /\
       r = (mkBoard (set_nth lifted q (CamelStack new)) (bump (index b) carried k),
            o, None)).
Proof.
  intros Hok Hst Hr. apply apply_move_inv in Hr.
  destruct (pos_of b c) as [p|] eqn:Hp.
  - right. destruct (Z_lt_le_dec p BOARD_SIZE) as [Hlt|Hge].
    + destruct (on_track_stack b c p Hok Hp Hlt) as (q & s & h & -> & Hs & Hh).
      pose proof (jump_shift_range (fields b) (Z.of_nat q + st)) as Hsh.
      exists q, s, h, (final_landing b (Z.of_nat q) st - Z.of_nat q),
        (jump_owner (fields b) (Z.of_nat q + st)).
      split; [reflexivity|]. split; [exact Hs|]. split; [exact Hh|].
      split; [unfold final_landing; lia|]. cbv zeta.
      destruct (later_cases b c st q s h Hok Hp Hs Hh Hst)
        as [[_ E]|(q' & f & Hq' & _ & Hf & E)].
      * left. congruence.
      * right. destruct (occupants f) as [old|] eqn:Ho.
        -- exists q', f, old,
             (if jump_shift (fields b) (Z.of_nat q + st) =? -1
              then skipn h s ++ old else old ++ skipn h s).
           split; [exact Hf|]. split; [exact Ho|]. split; [|congruence].
           destruct (_ =? -1); [apply Permutation_refl | apply Permutation_app_comm].
        -- destruct E as [_ E]. congruence.
    + exfalso. rewrite (apply_move_body_later _ _ _ _ Hp) in Hr.
      unfold later_move in Hr. rewrite getitem_high in Hr; [discriminate|].
      rewrite (ok_size b Hok). unfold BOARD_SIZE in Hge. lia.
  - left. split; auto.
    destruct (first_cases b c st Hok Hp Hst) as (f & Hf & E).
    destruct (occupants f) as [old|] eqn:Ho; [|congruence].
    exists (Z.to_nat (st - 1)), f, old. repeat split; auto.
    rewrite Z2Nat.id by lia. congruence.
Qed.

Lemma all_stacked_set_nth fs q f f' :
  nth_error fs q = Some f ->
  Permutation (all_stacked (set_nth fs q f') ++ stack_camels f)
              (all_stacked fs ++ stack_camels f').
Proof.
  revert q. induction fs as [|g t IH]; intros [|q] H; simpl in *; try discriminate.
  - inversion H; subst g. unfold all_stacked. simpl.
    rewrite <- !app_assoc.
    etransitivity; [apply Permutation_app_comm|].
    rewrite <- app_assoc. apply Permutation_app_swap_app.
  - unfold all_stacked in *. simpl. rewrite <- !app_assoc.
    apply Permutation_app_head. now apply IH.
Qed.

Lemma stack_camels_stack_or_none s : stack_camels (stack_or_none s) = s.
Proof. now destruct s. Qed.

Lemma stack_camels_occupants f old : occupants f = Some old -> stack_camels f = old.
Proof. destruct f; simpl; congruence. Qed.

(** The camels on the track once the group has left its field. *)
Lemma all_stacked_lifted b p h s :
  stack_at (fields b) p = Some s ->
  Permutation (all_stacked (set_nth (fields b) p (stack_or_none (firstn h s)))
               ++ skipn h s)
              (all_stacked (fields b)).
Proof.
  intros Hs. apply stack_at_nth in Hs.
  pose proof (all_stacked_set_nth (fields b) p _ (stack_or_none (firstn h s)) Hs) as P.
  rewrite stack_camels_stack_or_none in P. simpl in P.
  rewrite <- (firstn_skipn h s) in P at 2.
  apply Permutation_app_inv_r with (l := firstn h s).
  rewrite <- app_assoc.
  etransitivity; [|exact P].
  apply Permutation_app_head. apply Permutation_app_comm.
Qed.

(** X2.  A move (steps in 1..3) that succeeds on a board in order loses no
    camel and doubles none: the camels in the stacks of the returned board
    together with the finish group are the camels in the stacks before,
    plus the moved camel if this was its first move. *)
Theorem apply_move_conserves_camels
    (b b' : Board) (m : Move) (o : Owner) (w : option (list Camel)) :
  board_ok b -> 1 <= steps m <= 3 ->
  apply_move b m = Ok (b', o, w) ->
  Permutation
    (all_stacked (fields b') ++ finishers w)
    (all_stacked (fields b) ++
     match pos_of b (camel m) with
     | None => [camel m]
     | Some _ => []
     end).
Proof.
  intros Hok Hst H. destruct m as [c st]. simpl in *.
  destruct (apply_move_shape b c st _ Hok Hst H)
    as [(Hp & q & f & old & Hf & Ho & E)
       |(p & s & h & k & o' & Hp & Hs & Hh & _ & [E|(q & f & old & new & Hf & Ho & Pn & E)])];
    inversion E; subst; rewrite Hp; cbn [fields finishers].
  - rewrite app_nil_r.
    pose proof (all_stacked_set_nth (fields b) q f (CamelStack (old ++ [c])) Hf) as P.
    rewrite (stack_camels_occupants f old Ho) in P. simpl in P.
    apply Permutation_app_inv_r with (l := old).
    etransitivity; [exact P|].
    rewrite <- !app_assoc. apply Permutation_app_head. apply Permutation_app_comm.
  - rewrite app_nil_r. now apply all_stacked_lifted.
  - rewrite !app_nil_r.
    pose proof (all_stacked_set_nth _ q f (CamelStack new) Hf) as P.
    rewrite (stack_camels_occupants f old Ho) in P. simpl in P.
    etransitivity; [|apply (all_stacked_lifted b p h s Hs)].
    apply Permutation_app_inv_r with (l := old).
    etransitivity; [exact P|].
    rewrite <- app_assoc. now apply Permutation_app_head.
Qed.

Lemma apply_move_conserves_camels_witness :
  exists b', apply_move last_field_board (mkMove Green 3) = Ok (b', None, Some [Green]) /\
  Permutation
    (all_stacked (fields b') ++ finishers (Some [Green]))
    (all_stacked (fields last_field_board) ++
     match pos_of last_field_board (camel (mkMove Green 3)) with
     | None => [camel (mkMove Green 3)]
     | Some _ => []
     end).
Proof.
  eexists. split; [vm_compute; reflexivity|].
  apply (apply_move_conserves_camels last_field_board _ (mkMove Green 3) None).
  - apply board_okb_sound. vm_compute. reflexivity.
  - simpl. lia.
  - vm_compute. reflexivity.
Defined.

(** X3.  A move (steps in 1..3) that succeeds on a board in order never
    sends a recorded position back: every camel of the index stays in it
    with a position between the old one and the old one plus 4, and the
    only camel that can enter the index is the moved one. *)
Theorem apply_move_never_moves_back
    (b b' : Board) (m : Move) (o : Owner) (w : option (list Camel)) :
  board_ok b -> 1 <= steps m <= 3 ->
  apply_move b m = Ok (b', o, w) ->
  (forall d p, pos_of b d = Some p ->
     exists p', pos_of b' d = Some p' /\ p <= p' <= p + 4) /\
  (forall d, pos_of b d = None -> d <> camel m -> pos_of b' d = None).
Proof.
  intros Hok Hst H. destruct m as [c st]. simpl in *.
  destruct (apply_move_shape b c st _ Hok Hst H)
    as [(Hp & q & f & old & Hf & Ho & E)
       |(p & s & h & k & o' & Hp & Hs & Hh & Hk & HE)].
  - inversion E; subst. unfold pos_of in *. cbn [index]. split.
    + intros d p Hd. exists p. split; [|lia].
      rewrite dict_get_set_ne; auto. intros <-. congruence.
    + intros d Hd Hne. rewrite dict_get_set_ne; auto.
  - assert (E : index b' = bump (index b) (skipn h s) k).
    { destruct HE as [E|(q & f & old & new & _ & _ & _ & E)]; now inversion E. }
    unfold pos_of in *. rewrite E. split.
    + intros d p' Hd. rewrite get_bump, Hd.
      destruct (mem_camel d (skipn h s)); simpl; eexists; split; eauto; lia.
    + intros d Hd _. rewrite get_bump, Hd. now destruct (mem_camel d (skipn h s)).
Qed.

Lemma apply_move_never_moves_back_witness :
  exists b', apply_move demo_board (mkMove White 2) = Ok (b', Some "ann"%string, None) /\
  (forall d p, pos_of demo_board d = Some p ->
     exists p', pos_of b' d = Some p' /\ p <= p' <= p + 4) /\
  (forall d, pos_of demo_board d = None -> d <> camel (mkMove White 2) ->
             pos_of b' d = None).
Proof.
  eexists. split; [vm_compute; reflexivity|].
  apply (apply_move_never_moves_back demo_board _ (mkMove White 2)
           (Some "ann"%string) None).
  - apply board_okb_sound. vm_compute. reflexivity.
  - simpl. lia.
  - vm_compute. reflexivity.
Defined.

Lemma set_nth_keeps_jumps fs q f f' q' jt ow :
  nth_error fs q = Some f -> is_jump f = false -> is_jump f' = false ->
  (nth_error (set_nth fs q f') q' = Some (JumpField jt ow) <->
   nth_error fs q' = Some (JumpField jt ow)).
Proof.
  intros Hf J J'. destruct (Nat.eq_dec q q') as [<-|N].
  - rewrite nth_set_nth_eq by (apply nth_error_Some; congruence). rewrite Hf.
    split; intros H; inversion H; subst; discriminate.
  - now rewrite nth_set_nth_ne.
Qed.

Lemma occupants_not_jump f old : occupants f = Some old -> is_jump f = false.
Proof. destruct f; simpl; congruence. Qed.

Lemma stack_or_none_not_jump s : is_jump (stack_or_none s) = false.
Proof. now destruct s. Qed.

(** X4.  A move (steps in 1..3) that succeeds on a board in order leaves
    every jump where it is, with its direction and its owner, and puts no
    jump anywhere. *)
Theorem apply_move_leaves_jumps
    (b b' : Board) (m : Move) (o : Owner) (w : option (list Camel)) :
  board_ok b -> 1 <= steps m <= 3 ->
  apply_move b m = Ok (b', o, w) ->
  forall q jt ow,
    nth_error (fields b') q = Some (JumpField jt ow) <->
    nth_error (fields b) q = Some (JumpField jt ow).
Proof.
  intros Hok Hst H q0 jt ow. destruct m as [c st]. simpl in *.
  destruct (apply_move_shape b c st _ Hok Hst H)
    as [(Hp & q & f & old & Hf & Ho & E)
       |(p & s & h & k & o' & Hp & Hs & Hh & _ & [E|(q & f & old & new & Hf & Ho & Pn & E)])];
    inversion E; subst; cbn [fields].
  - apply (set_nth_keeps_jumps _ _ f); auto. eapply occupants_not_jump; eauto.
  - apply stack_at_nth in Hs.
    apply (set_nth_keeps_jumps _ _ (CamelStack s)); auto.
    apply stack_or_none_not_jump.
  - rewrite (set_nth_keeps_jumps _ _ f); auto;
      [|eapply occupants_not_jump; eauto].
    apply stack_at_nth in Hs.
    apply (set_nth_keeps_jumps _ _ (CamelStack s)); auto.
    apply stack_or_none_not_jump.
Qed.

Lemma apply_move_leaves_jumps_witness :
  exists b', apply_move demo_board (mkMove White 2) = Ok (b', Some "ann"%string, None) /\
  forall q jt ow,
    nth_error (fields b') q = Some (JumpField jt ow) <->
    nth_error (fields demo_board) q = Some (JumpField jt ow).
Proof.
  eexists. split; [vm_compute; reflexivity|].
  apply (apply_move_leaves_jumps demo_board _ (mkMove White 2)
           (Some "ann"%string) None).
  - apply board_okb_sound. vm_compute. reflexivity.
  - simpl. lia.
  - vm_compute. reflexivity.
Defined.

Lemma mapM_ext {A B : Type} (f g : A -> result B) (l : list A) :
  (forall x, In x l -> f x = g x) -> mapM f l = mapM g l.
Proof.
  induction l as [|x t IH]; intros H; simpl; auto.
  rewrite (H x (or_introl eq_refl)), IH; auto.
  intros y Hy. apply H. now right.
Qed.

(** X5.  While no item of the index is at 16 or beyond, the finish order
    handed to [get_rankings] is not looked at: any argument gives what
    [None] gives. *)
Theorem get_rankings_ignores_finish_order_on_track
    (b : Board) (ws : option (list Camel)) :
  (forall c p, In (c, p) (index b) -> p < BOARD_SIZE) ->
  get_rankings b ws = get_rankings b None.
Proof.
  intros H. unfold get_rankings, unsorted_camels.
  rewrite (mapM_ext _ (fun '(c, i) => k <- rank_key b None c i ;; Ok (c, k))); auto.
  intros [c p] Hin. unfold rank_key.
  now replace (p <? BOARD_SIZE) with true by (symmetry; apply Z.ltb_lt; eauto).
Qed.

Lemma get_rankings_ignores_finish_order_on_track_witness :
  get_rankings demo_board (Some [Green; Blue]) = get_rankings demo_board None.
Proof.
  apply (get_rankings_ignores_finish_order_on_track demo_board (Some [Green; Blue])).
  intros c p Hin. simpl in Hin.
  repeat (destruct Hin as [Hin|Hin];
          [inversion Hin; subst; unfold BOARD_SIZE; lia|]).
  destruct Hin.
Defined.

Lemma find_index_app {A : Type} (eq_dec : forall x y : A, {x = y} + {x <> y})
    (l1 l2 : list A) (x : A) :
  ~ In x l1 -> find_index eq_dec (l1 ++ x :: l2) x = Some (length l1).
Proof.
  induction l1 as [|y t IH]; simpl; intros H.
  - destruct (eq_dec x x); congruence.
  - destruct (eq_dec y x); [tauto|]. rewrite IH by tauto. reflexivity.
Qed.

(** The head of the ranking has the greatest key. *)
Lemma ranking_head_greatest b ws c1 rest :
  board_ok b ->
  (forall c p, pos_of b c = Some p -> BOARD_SIZE <= p ->
               exists l, ws = Some l /\ In c l) ->
  get_rankings b ws = Ok (c1 :: rest) ->
  NoDup (c1 :: rest) /\
  (forall d, In d (c1 :: rest) <-> pos_of b d <> None) /\
  forall d k1 kd, In d rest ->
    key_of b ws c1 = Some k1 -> key_of b ws d = Some kd -> key_lt kd k1.
Proof.
  intros Hok Hws Hr.
  destruct (unsorted_camels_ok b ws Hok Hws) as (us & Eus & Hfst & Hkey).
  unfold get_rankings in Hr. rewrite Eus in Hr. cbn [bind] in Hr.
  assert (E : map fst (sorted_desc us) = c1 :: rest) by congruence. clear Hr.
  assert (Hperm : Permutation (c1 :: rest) (keys (index b))).
  { rewrite <- E, <- Hfst. apply Permutation_map. apply sorted_desc_perm. }
  assert (Hnd : NoDup (c1 :: rest)).
  { apply (Permutation_NoDup (Permutation_sym Hperm)). apply Hok. }
  split; [exact Hnd|]. split.
  - intros d. unfold pos_of. rewrite dict_get_keys. split; intros H.
    + eapply Permutation_in; eauto.
    + eapply Permutation_in; [apply Permutation_sym|]; eauto.
  - intros d k1 kd Hd H1 Hk.
    pose proof (sorted_desc_sorted us) as S.
    pose proof (sorted_desc_perm us) as P.
    destruct (sorted_desc us) as [|[c1' k1'] srest]; [discriminate|].
    simpl in E. inversion E; subst c1' rest.
    inversion S as [|? ? _ F]; subst. rewrite Forall_forall in F.
    apply in_map_iff in Hd. destruct Hd as ([d' kd'] & Ed & Hd). simpl in Ed. subst d'.
    specialize (F _ Hd). unfold not_below in F. simpl in F.
    assert (K1 : key_of b ws c1 = Some k1').
    { apply Hkey. apply (Permutation_in _ P). now left. }
    assert (Kd : key_of b ws d = Some kd').
    { apply Hkey. apply (Permutation_in _ P). now right. }
    rewrite H1 in K1. rewrite Hk in Kd. inversion K1; inversion Kd; subst.
    apply key_lt_total; auto.
    intros F'. subst. inversion Hnd as [|? ? Hn _]; subst. apply Hn.
    rewrite (key_of_inj b ws c1 d kd' H1 Hk).
    apply in_map_iff. exists (d, kd'). auto.
Qed.

(** X6.  On a board in order on which no camel has finished, the camel
    that [get_rankings] puts first is the top camel of its stack, and no
    camel of the index is recorded further along the track. *)
Theorem leader_is_top_of_foremost_stack
    (b : Board) (ws : option (list Camel)) (c1 : Camel) (rest : list Camel) :
  board_ok b ->
  (forall c p, pos_of b c = Some p -> p < BOARD_SIZE) ->
  get_rankings b ws = Ok (c1 :: rest) ->
  exists (q : nat) (under : list Camel),
    pos_of b c1 = Some (Z.of_nat q) /\
    stack_at (fields b) q = Some (under ++ [c1]) /\
    forall d pd, pos_of b d = Some pd -> pd <= Z.of_nat q.
Proof.
  intros Hok Hall Hr.
  assert (Hws : forall c p, pos_of b c = Some p -> BOARD_SIZE <= p ->
                            exists l, ws = Some l /\ In c l).
  { intros c p Hp Hge. specialize (Hall c p Hp). lia. }
  destruct (ranking_head_greatest b ws c1 rest Hok Hws Hr) as (Hnd & Hin & Hmax).
  assert (Hc1 : pos_of b c1 <> None) by (apply Hin; now left).
  destruct (pos_of b c1) as [p1|] eqn:Hp1; [|congruence].
  destruct (on_track_stack b c1 p1 Hok Hp1 (Hall _ _ Hp1)) as (q & s & h & -> & Hs & Hh).
  assert (Hq : (q < 16)%nat) by (eapply lift_p_lt; eauto).
  pose proof (key_of_on_track b ws c1 q s h Hp1 Hq Hs Hh) as K1.
  assert (Hrest : forall d, d <> c1 -> pos_of b d <> None -> In d rest).
  { intros d Hne Hd. apply Hin in Hd. destruct Hd; congruence. }
  exists q, (firstn h s). split; auto. split.
  - destruct (find_index_split _ _ _ _ Hh) as (t & Et & Hnin & Hlt).
    destruct t as [|d t'].
    + rewrite <- Et. now rewrite firstn_skipn.
    + exfalso.
      assert (Es : s = (firstn h s ++ [c1]) ++ d :: t').
      { rewrite <- app_assoc. simpl. rewrite <- Et. symmetry. apply firstn_skipn. }
      pose proof (ok_nodup b Hok q s Hs) as ND. rewrite Es in ND.
      assert (Hd : find_index Camel_eq_dec s d = Some (S h)).
      { rewrite Es at 1. rewrite find_index_app.
        - rewrite length_app, length_firstn. simpl. f_equal. lia.
        - apply NoDup_remove_2 in ND. intros F. apply ND.
          apply in_or_app. now left. }
      assert (Hds : In d s).
      { rewrite Es. apply in_or_app. right. now left. }
      pose proof (ok_indexed b Hok q s d Hs Hds) as Pd.
      pose proof (key_of_on_track b ws d q s (S h) Pd Hq Hs Hd) as Kd.
      assert (Hne : d <> c1).
      { intros ->. rewrite Hh in Hd. inversion Hd. lia. }
      pose proof (Hmax d _ _ (Hrest d Hne ltac:(congruence)) K1 Kd) as L.
      unfold key_lt in L. simpl in L. lia.
  - intros d pd Hd. destruct (Camel_eq_dec d c1) as [->|Hne].
    + rewrite Hp1 in Hd. inversion Hd. lia.
    + destruct (on_track_stack b d pd Hok Hd (Hall _ _ Hd)) as (qd & sd & hd & -> & Hsd & Hhd).
      assert (Hqd : (qd < 16)%nat) by (eapply lift_p_lt; eauto).
      pose proof (key_of_on_track b ws d qd sd hd Hd Hqd Hsd Hhd) as Kd.
      pose proof (Hmax d _ _ (Hrest d Hne ltac:(congruence)) K1 Kd) as L.
      unfold key_lt in L. simpl in L. lia.
Qed.

Lemma leader_is_top_of_foremost_stack_witness :
  exists (q : nat) (under : list Camel),
    pos_of demo_board Green = Some (Z.of_nat q) /\
    stack_at (fields demo_board) q = Some (under ++ [Green]) /\
    forall d pd, pos_of demo_board d = Some pd -> pd <= Z.of_nat q.
Proof.
  apply (leader_is_top_of_foremost_stack demo_board None Green
           [Orange; Blue; White; Yellow]).
  - apply board_okb_sound. vm_compute. reflexivity.
  - intros c p Hp. destruct c; vm_compute in Hp; inversion Hp; reflexivity.
  - vm_compute. reflexivity.
Defined.

(* ================================================================= *)
(** ** Further properties of game.py                                   *)
(* ================================================================= *)

(** What [parse_place] has checked when it accepts. *)
Lemma parse_place_inv (g : Game) (number : Z) (sign : Jump) (a : Action) :
  length (fields (board g)) = 16%nat ->
  parse_place g number sign = Ok a ->
  a = Place (number - 1) sign /\ 1 <= number - 1 <= 15 /\
  nth_error (fields (board g)) (Z.to_nat (number - 1)) = Some EmptyField /\
  jump_at (fields (board g)) (Z.to_nat (number - 1) - 1) = false /\
  jump_at (fields (board g)) (Z.to_nat (number - 1) + 1) = false.
Proof.
  intros Hlen. unfold parse_place. set (pos := number - 1).
  destruct (pos =? 0) eqn:E0; [discriminate|]. apply Z.eqb_neq in E0.
  destruct ((0 <=? pos) && (pos <? 16)) eqn:E1; [|discriminate].
  apply andb_true_iff in E1. destruct E1 as [E1 E2].
  apply Z.leb_le in E1. apply Z.ltb_lt in E2. cbn [negb].
  destruct (getitem_in_range (fields (board g)) pos) as (f & Hf & Gf); [lia|].
  rewrite Gf. cbn [bind].
  destruct f; cbn [is_none negb]; try discriminate.
  destruct (getitem_in_range (fields (board g)) (pos - 1)) as (l & Hl & Gl); [lia|].
  rewrite Gl. cbn [bind].
  assert (Jl : jump_at (fields (board g)) (Z.to_nat pos - 1) = is_jump l).
  { unfold jump_at. replace (Z.to_nat pos - 1)%nat with (Z.to_nat (pos - 1)) by lia.
    rewrite Hl. now destruct l. }
  destruct (is_jump l); [discriminate|].
  destruct (pos =? 15) eqn:E15; cbn [negb].
  - apply Z.eqb_eq in E15. intros H. inversion H.
    repeat split; auto; try lia.
    unfold jump_at.
    replace (nth_error (fields (board g)) (Z.to_nat pos + 1)) with (@None BoardField);
      auto.
    symmetry. apply nth_error_None. lia.
  - apply Z.eqb_neq in E15.
    destruct (getitem_in_range (fields (board g)) (pos + 1)) as (r & Hr & Gr); [lia|].
    rewrite Gr. cbn [bind].
    assert (Jr : jump_at (fields (board g)) (Z.to_nat pos + 1) = is_jump r).
    { unfold jump_at. replace (Z.to_nat pos + 1)%nat with (Z.to_nat (pos + 1)) by lia.
      rewrite Hr. now destruct r. }
    destruct (is_jump r); [discriminate|].
    intros H. inversion H. repeat split; auto; lia.
Qed.

(** A jump put on an empty field away from the other jumps. *)
Lemma place_keeps_well_formed b (q : nat) j who :
  well_formed b -> nth_error (fields b) q = Some EmptyField ->
  jump_at (fields b) (q - 1) = false -> jump_at (fields b) (q + 1) = false ->
  (1 <= q)%nat ->
  well_formed (mkBoard (set_nth (fields b) q (JumpField j who)) (index b)).
Proof.
  intros [Hok Hadj] Hq Jl Jr H1.
  assert (Hlt : (q < length (fields b))%nat) by (apply nth_error_Some; congruence).
  assert (Hst : forall q', stack_at (set_nth (fields b) q (JumpField j who)) q'
                           = stack_at (fields b) q').
  { intros q'. destruct (Nat.eq_dec q q') as [<-|N].
    - unfold stack_at. rewrite nth_set_nth_eq by assumption. now rewrite Hq.
    - now apply stack_at_set_ne. }
  split.
  - constructor; unfold on_its_field, stacks_indexed, stacks_nodup, pos_of; simpl.
    + rewrite length_set_nth. apply Hok.
    + apply Hok.
    + intros c p Hc Hp. destruct (ok_on_field b Hok c p Hc Hp) as (q' & s & -> & Hs & Hin).
      exists q', s. now rewrite Hst.
    + intros q' s c Hs Hin. rewrite Hst in Hs. eapply (ok_indexed b Hok); eauto.
    + intros q' s Hs. rewrite Hst in Hs. eapply (ok_nodup b Hok); eauto.
  - intros q'. unfold jump_at. cbn [fields].
    destruct (Nat.eq_dec q q') as [<-|N].
    + intros _. rewrite nth_set_nth_ne by lia.
      replace (S q) with (q + 1)%nat by lia. exact Jr.
    + rewrite nth_set_nth_ne by assumption. intros J.
      destruct (Nat.eq_dec q (S q')) as [E|N'].
      * exfalso. replace (q - 1)%nat with q' in Jl by lia.
        unfold jump_at in Jl. congruence.
      * rewrite nth_set_nth_ne by assumption. now apply Hadj.
Qed.

(** The board after the settlement: the jumps are gone, nothing else has
    changed. *)
Lemma clear_jumps_well_formed b :
  board_ok b -> well_formed (mkBoard (map clear_jump (fields b)) (index b)).
Proof.
  intros Hok.
  assert (Hst : forall q, stack_at (map clear_jump (fields b)) q = stack_at (fields b) q).
  { intros q. unfold stack_at. rewrite nth_error_map.
    destruct (nth_error (fields b) q) as [[| |]|]; reflexivity. }
  split.
  - constructor; unfold on_its_field, stacks_indexed, stacks_nodup, pos_of; simpl.
    + rewrite length_map. apply Hok.
    + apply Hok.
    + intros c p Hc Hp. destruct (ok_on_field b Hok c p Hc Hp) as (q' & s & -> & Hs & Hin).
      exists q', s. now rewrite Hst.
    + intros q' s c Hs Hin. rewrite Hst in Hs. eapply (ok_indexed b Hok); eauto.
    + intros q' s Hs. rewrite Hst in Hs. eapply (ok_nodup b Hok); eauto.
  - intros q. unfold jump_at. cbn [fields]. rewrite nth_error_map.
    destruct (nth_error (fields b) q) as [[| |]|]; discriminate.
Qed.

Lemma evaluate_bets_board g b g' :
  evaluate_bets g b = Ok g' ->
  board g' = mkBoard (map clear_jump (fields b)) (index b) /\
  camels_left g' = all_camels /\
  exists fst_c snd_c ps,
    settle fst_c snd_c (players g) (players g) = Ok ps /\
    players g' = map (fun '(name, p) => (name, mkPlayer (balance p) [])) ps.
Proof.
  unfold evaluate_bets.
  destruct (get_rankings b None) as [r|]; cbn [bind]; [|discriminate].
  destruct r as [|c1 [|c2 r]]; try discriminate.
  destruct (settle c1 c2 (players g) (players g)) as [ps|] eqn:S; cbn [bind];
    [|discriminate].
  intros H. inversion H; subst. simpl. repeat split. eauto.
Qed.

(** X7.  [apply_action] keeps the board well-formed: a roll with steps in
    1..3, a placement that [parse_place] has accepted on this game, and a
    bet all lead, when they succeed, to a game whose board is
    well-formed. *)
Theorem apply_action_keeps_board_well_formed
    (g g' : Game) (a : OwnedAction) (w : option (list Camel)) :
  well_formed (board g) ->
  match action a with
  | Roll m => 1 <= steps m <= 3
  | Place pos j => parse_place g (pos + 1) j = Ok (Place pos j)
  | BetOn _ => True
  end ->
  apply_action g a = Ok (g', w) ->
  well_formed (board g').
Proof.
  intros Hwf Hlegal. unfold apply_action.
  destruct (action a) as [[c st]|pos j|c].
  - simpl in Hlegal.
    destruct (match owner a with
              | Some _ => change_balance (players g) (owner a) 1
              | None => if mem_camel (camel (mkMove c st)) (camels_left g)
                        then Ok (players g)
                        else change_balance (players g) (owner a) 1
              end) as [ps|]; cbn [bind]; [|discriminate].
    destruct (apply_move (board g) (mkMove c st)) as [[[b' sh] wi]|] eqn:M;
      cbn [bind]; [|discriminate].
    destruct (apply_move_keeps_ok (board g) c st _ (proj1 Hwf) Hlegal M) as [Hok' Hj].
    simpl in Hok', Hj.
    destruct (match sh with
              | Some _ => change_balance ps sh 1
              | None => Ok ps
              end) as [ps'|]; cbn [bind]; [|discriminate].
    destruct (remove Camel_eq_dec (camel (mkMove c st)) (camels_left g)).
    + destruct (evaluate_bets (mkGame (board g) ps' (bets g) (camels_left g)) b')
        as [g2|] eqn:Ev; cbn [bind]; [|discriminate].
      intros H. inversion H; subst.
      destruct (evaluate_bets_board _ _ _ Ev) as [-> _].
      now apply clear_jumps_well_formed.
    + intros H. inversion H; subst. simpl. split; auto.
      intros q. rewrite !Hj. apply Hwf.
  - destruct (parse_place_inv g (pos + 1) j _ (ok_size _ (proj1 Hwf)) Hlegal)
      as (_ & Hr & He & Jl & Jr).
    replace (pos + 1 - 1) with pos in * by lia.
    replace pos with (Z.of_nat (Z.to_nat pos)) at 1 by lia.
    rewrite setitem_nat by (apply nth_error_Some; congruence). cbn [bind].
    intros H. inversion H; subst. simpl.
    apply place_keeps_well_formed; auto. lia.
  - destruct (dict_get Owner_eq_dec (players g) (owner a)); [|discriminate].
    destruct (pop_bet (bets g) c) as [[sz bs]|]; cbn [bind]; [|discriminate].
    intros H. inversion H; subst. exact Hwf.
Qed.

Lemma apply_action_keeps_board_well_formed_witness :
  exists g', apply_action demo_game (mkOwnedAction (Some "bob"%string) (Place 7 Forward))
             = Ok (g', None) /\
             well_formed (board g').
Proof.
  eexists. split; [vm_compute; reflexivity|].
  apply (apply_action_keeps_board_well_formed demo_game _
           (mkOwnedAction (Some "bob"%string) (Place 7 Forward)) None).
  - apply well_formedb_sound. vm_compute. reflexivity.
  - vm_compute. reflexivity.
  - vm_compute. reflexivity.
Defined.

Lemma dict_set_Forall {K V : Type} (eq_dec : forall x y : K, {x = y} + {x <> y})
    (P : V -> Prop) (d : list (K * V)) k v :
  Forall (fun it => P (snd it)) d -> P v ->
  Forall (fun it => P (snd it)) (dict_set eq_dec d k v).
Proof.
  intros H Hv. induction H as [|[k' v'] t Hh Ht IH]; simpl.
  - repeat constructor. exact Hv.
  - destruct (eq_dec k' k); constructor; auto.
Qed.

Lemma change_balance_keeps_solvent ps name delta ps' :
  change_balance ps name delta = Ok ps' -> balances_ok ps -> balances_ok ps'.
Proof.
  unfold change_balance, balances_ok.
  destruct (dict_get Owner_eq_dec ps name) as [p|]; [|discriminate].
  intros H Hb. inversion H; subst.
  apply (dict_set_Forall Owner_eq_dec (fun p => 0 <= balance p)); auto.
  simpl. lia.
Qed.

Lemma settle_keeps_solvent fst_c snd_c items :
  forall ps ps', settle fst_c snd_c items ps = Ok ps' ->
                 balances_ok ps -> balances_ok ps'.
Proof.
  induction items as [|[name pl] rest IH]; intros ps ps'; simpl.
  - intros H. now inversion H.
  - destruct (change_balance ps name (net_win fst_c snd_c (owned_bets pl)))
      as [ps1|] eqn:E; cbn [bind]; [|discriminate].
    intros H Hb. eapply IH; eauto. eapply change_balance_keeps_solvent; eauto.
Qed.

(** X8.  No action puts a player in debt: if every balance is 0 or more
    before [apply_action], every balance is 0 or more in the game it
    returns, whatever the action and however the round is settled. *)
Theorem apply_action_keeps_balances_non_negative
    (g g' : Game) (a : OwnedAction) (w : option (list Camel)) :
  balances_ok (players g) ->
  apply_action g a = Ok (g', w) ->
  balances_ok (players g').
Proof.
  intros Hb. unfold apply_action.
  destruct (action a) as [m|pos j|c].
  - destruct (match owner a with
              | Some _ => change_balance (players g) (owner a) 1
              | None => if mem_camel (camel m) (camels_left g)
                        then Ok (players g)
                        else change_balance (players g) (owner a) 1
              end) as [ps|] eqn:E1; cbn [bind]; [|discriminate].
    assert (Hps : balances_ok ps).
    { destruct (owner a); [eapply change_balance_keeps_solvent; eauto|].
      destruct (mem_camel (camel m) (camels_left g)).
      - inversion E1; subst; assumption.
      - eapply change_balance_keeps_solvent; eauto. }
    destruct (apply_move (board g) m) as [[[b' sh] wi]|]; cbn [bind]; [|discriminate].
    destruct (match sh with
              | Some _ => change_balance ps sh 1
              | None => Ok ps
              end) as [ps'|] eqn:E2; cbn [bind]; [|discriminate].
    assert (Hps' : balances_ok ps').
    { destruct sh; [eapply change_balance_keeps_solvent; eauto|].
      inversion E2; subst; assumption. }
    destruct (remove Camel_eq_dec (camel m) (camels_left g)).
    + destruct (evaluate_bets (mkGame (board g) ps' (bets g) (camels_left g)) b')
        as [g2|] eqn:Ev; cbn [bind]; [|discriminate].
      intros H. inversion H; subst.
      destruct (evaluate_bets_board _ _ _ Ev) as (_ & _ & c1 & c2 & ps2 & S & ->).
      simpl in S. apply settle_keeps_solvent in S; auto.
      unfold balances_ok in *. rewrite Forall_map.
      eapply Forall_impl; [|exact S]. now intros [n p].
    + intros H. now inversion H.
  - destruct (setitem (fields (board g)) pos (JumpField j (owner a)));
      cbn [bind]; [|discriminate].
    intros H. now inversion H.
  - destruct (dict_get Owner_eq_dec (players g) (owner a)) as [p|] eqn:Ep;
      [|discriminate].
    destruct (pop_bet (bets g) c) as [[sz bs]|]; cbn [bind]; [|discriminate].
    intros H. inversion H; subst. simpl.
    apply (dict_set_Forall Owner_eq_dec (fun p => 0 <= balance p)); auto.
    simpl. apply dict_get_In in Ep. unfold balances_ok in Hb.
    rewrite Forall_forall in Hb. apply (Hb _ Ep).
Qed.

Lemma apply_action_keeps_balances_non_negative_witness :
  exists g' w, apply_action demo_game (mkOwnedAction (Some "bob"%string) (Roll (mkMove White 2)))
               = Ok (g', w) /\
               balances_ok (players g').
Proof.
  do 2 eexists. split; [vm_compute; reflexivity|].
  apply (apply_action_keeps_balances_non_negative demo_game _
           (mkOwnedAction (Some "bob"%string) (Roll (mkMove White 2))) None).
  - repeat constructor; simpl; lia.
  - vm_compute. reflexivity.
Defined.

Lemma pop_bet_last bs c pool x :
  dict_get Camel_eq_dec bs c = Some (pool ++ [x]) ->
  pop_bet bs c = Ok (x, dict_set Camel_eq_dec bs c pool).
Proof.
  intros H. unfold pop_bet. rewrite H, rev_app_distr. simpl.
  now rewrite rev_involutive.
Qed.

(** X9.  A bet takes the last token of the camel's pool, which is the
    highest of a full pool: the bettor, if a player, gets that token on
    that camel, the pool loses it, nothing else changes.  On an empty pool
    the core raises [IndexError]; [parse_bet] refuses such a bet with a
    [ParseError], and every bet it accepts succeeds in the core for a
    bettor who is a player. *)
Theorem bet_takes_last_token_of_pool
    (g : Game) (who : Owner) (pl : Player) (c : Camel) :
  dict_get Owner_eq_dec (players g) who = Some pl ->
  (forall pool x,
     dict_get Camel_eq_dec (bets g) c = Some (pool ++ [x]) ->
     apply_action g (mkOwnedAction who (BetOn c)) =
     Ok (mkGame (board g)
                (dict_set Owner_eq_dec (players g) who
                   (mkPlayer (balance pl) (set_add_bet (mkBet x c) (owned_bets pl))))
                (dict_set Camel_eq_dec (bets g) c pool)
                (camels_left g),
         None)) /\
  (dict_get Camel_eq_dec (bets g) c = Some [Low; Med; High] ->
   exists g', apply_action g (mkOwnedAction who (BetOn c)) = Ok (g', None) /\
              dict_get Owner_eq_dec (players g') who =
              Some (mkPlayer (balance pl) (set_add_bet (mkBet High c) (owned_bets pl))) /\
              dict_get Camel_eq_dec (bets g') c = Some [Low; Med]) /\
  (dict_get Camel_eq_dec (bets g) c = Some [] ->
   apply_action g (mkOwnedAction who (BetOn c)) = Raise IndexError /\
   exists msg, parse_bet g c = Raise (ParseError msg)) /\
  (forall c', parse_bet g c = Ok c' ->
     c' = c /\ exists g', apply_action g (mkOwnedAction who (BetOn c)) = Ok (g', None)).
Proof.
  intros Hp.
  assert (H1 : forall pool x,
     dict_get Camel_eq_dec (bets g) c = Some (pool ++ [x]) ->
     apply_action g (mkOwnedAction who (BetOn c)) =
     Ok (mkGame (board g)
                (dict_set Owner_eq_dec (players g) who
                   (mkPlayer (balance pl) (set_add_bet (mkBet x c) (owned_bets pl))))
                (dict_set Camel_eq_dec (bets g) c pool)
                (camels_left g),
         None)).
  { intros pool x Hb. unfold apply_action. cbn [action owner].
    rewrite Hp, (pop_bet_last _ _ _ _ Hb). reflexivity. }
  split; [exact H1|]. split; [|split].
  - intros Hb. eexists. split; [apply (H1 [Low; Med] High Hb)|].
    cbn [players bets]. split; apply dict_get_set_eq.
  - intros Hb. split.
    + unfold apply_action. cbn [action owner]. rewrite Hp.
      unfold pop_bet. now rewrite Hb.
    + unfold parse_bet. rewrite Hb. eauto.
  - intros c' Hc. unfold parse_bet in Hc.
    destruct (dict_get Camel_eq_dec (bets g) c) as [[|y t]|] eqn:Hb; try discriminate.
    split; [congruence|].
    destruct (exists_last (l := y :: t)) as (pool & x & E); [discriminate|].
    eexists. apply (H1 pool x). now rewrite E.
Qed.

Lemma bet_takes_last_token_of_pool_witness :
  exists g', apply_action demo_game (mkOwnedAction (Some "bob"%string) (BetOn Green))
             = Ok (g', None) /\
    dict_get Owner_eq_dec (players g') (Some "bob"%string) =
    Some (mkPlayer 0 (set_add_bet (mkBet High Green) [mkBet High Yellow])) /\
    dict_get Camel_eq_dec (bets g') Green = Some [Low; Med].
Proof.
  apply (bet_takes_last_token_of_pool demo_game (Some "bob"%string)
           (mkPlayer 0 [mkBet High Yellow]) Green); reflexivity.
Defined.

(** X10.  The set of camels still to move is never left empty: a roll
    that succeeds removes the rolled camel, or, if none would remain,
    settles the round and makes all five camels movable again; a placement
    and a bet leave the set alone. *)
Theorem camels_left_never_empty_after_action
    (g g' : Game) (a : OwnedAction) (w : option (list Camel)) :
  apply_action g a = Ok (g', w) ->
  match action a with
  | Roll m =>
      camels_left g' <> [] /\
      (camels_left g' = remove Camel_eq_dec (camel m) (camels_left g) \/
       (remove Camel_eq_dec (camel m) (camels_left g) = [] /\
        camels_left g' = all_camels))
  | _ => camels_left g' = camels_left g
  end.
Proof.
  unfold apply_action. destruct (action a) as [m|pos j|c].
  - destruct (match owner a with
              | Some _ => change_balance (players g) (owner a) 1
              | None => if mem_camel (camel m) (camels_left g)
                        then Ok (players g)
                        else change_balance (players g) (owner a) 1
              end) as [ps|]; cbn [bind]; [|discriminate].
    destruct (apply_move (board g) m) as [[[b' sh] wi]|]; cbn [bind]; [|discriminate].
    destruct (match sh with
              | Some _ => change_balance ps sh 1
              | None => Ok ps
              end) as [ps'|]; cbn [bind]; [|discriminate].
    destruct (remove Camel_eq_dec (camel m) (camels_left g)) as [|x t] eqn:R.
    + destruct (evaluate_bets (mkGame (board g) ps' (bets g) (camels_left g)) b')
        as [g2|] eqn:Ev; cbn [bind]; [|discriminate].
      intros H. inversion H; subst.
      destruct (evaluate_bets_board _ _ _ Ev) as (_ & -> & _).
      split; [discriminate | auto].
    + intros H. inversion H; subst. simpl. split; [discriminate | auto].
  - destruct (setitem (fields (board g)) pos (JumpField j (owner a)));
      cbn [bind]; [|discriminate].
    intros H. now inversion H.
  - destruct (dict_get Owner_eq_dec (players g) (owner a)); [|discriminate].
    destruct (pop_bet (bets g) c) as [[sz bs]|]; cbn [bind]; [|discriminate].
    intros H. now inversion H.
Qed.

Lemma camels_left_never_empty_after_action_witness :
  exists g' w,
    apply_action demo_game (mkOwnedAction (Some "bob"%string) (Roll (mkMove White 2)))
    = Ok (g', w) /\
    camels_left g' <> [] /\
    (camels_left g' = remove Camel_eq_dec White (camels_left demo_game) \/
     (remove Camel_eq_dec White (camels_left demo_game) = [] /\
      camels_left g' = all_camels)).
Proof.
  do 2 eexists. split; [vm_compute; reflexivity|].
  apply (camels_left_never_empty_after_action demo_game _
           (mkOwnedAction (Some "bob"%string) (Roll (mkMove White 2))) None).
  vm_compute. reflexivity.
Defined.

(* ================================================================= *)
(** ** Further properties of main.py                                   *)
(* ================================================================= *)

(** What one combination adds to the first-place, race-win and race-lose
    tallies. *)
Lemma simulate_one_tallies g w acc wst combo acc' ws :
  simulate_one g w acc wst combo = Ok (acc', ws) ->
  exists c1 c5,
    fst_p acc' = tally_add Camel_eq_dec (fst_p acc) c1 w /\
    ((winners acc' = winners acc /\ losers acc' = losers acc) \/
     (winners acc' = tally_add Camel_eq_dec (winners acc) c1 w /\
      losers acc' = tally_add Camel_eq_dec (losers acc) c5 w)).
Proof.
  unfold simulate_one.
  destruct (replay w (board g) wst (shifts acc) (zip_moves (fst combo) (snd combo)))
    as [[[sb ws'] sh]|]; cbn [bind]; [|discriminate].
  destruct (get_rankings sb ws') as [r|]; cbn [bind]; [|discriminate].
  destruct r as [|c1 [|c2 [|c3 [|c4 [|c5 [|]]]]]]; try discriminate.
  destruct ws'; intros H; inversion H; subst; simpl; exists c1, c5; auto.
Qed.

Lemma simulate_all_winners g w combos :
  (0 <= w)%Q ->
  forall acc wst pr,
    simulate_all g w acc wst combos = Ok pr ->
    (tally_total (winners acc) == tally_total (losers acc))%Q ->
    (forall c, (0 <= winners acc c)%Q /\ (winners acc c <= fst_p acc c)%Q) ->
    (tally_total (winners pr) == tally_total (losers pr))%Q /\
    (forall c, (0 <= winners pr c)%Q /\ (winners pr c <= fst_p pr c)%Q).
Proof.
  intros Hw. induction combos as [|combo rest IH]; intros acc wst pr H T P.
  - simpl in H. inversion H; subst. auto.
  - cbn [simulate_all] in H.
    destruct (simulate_one g w acc wst combo) as [[acc' ws]|] eqn:E; cbn [bind] in H;
      [|discriminate].
    destruct (simulate_one_tallies _ _ _ _ _ _ _ E) as (c1 & c5 & F & [[W L]|[W L]]).
    + apply (IH acc' (Ok ws) pr H).
      * now rewrite W, L.
      * intros c. rewrite W, F. destruct (P c) as [P0 P1]. split; auto.
        unfold tally_add. destruct (Camel_eq_dec c c1); lra.
    + apply (IH acc' (Ok ws) pr H).
      * rewrite W, L, !tally_total_add. lra.
      * intros c. rewrite W, F. destruct (P c) as [P0 P1].
        unfold tally_add. destruct (Camel_eq_dec c c1); split; lra.
Qed.

Lemma path_weight_nonneg (left : list Camel) : (0 <= path_weight left)%Q.
Proof.
  unfold path_weight. pose proof (total_paths_pos (length left)) as H.
  apply Qle_shift_div_l.
  - unfold Qlt. simpl. lia.
  - unfold Qle. simpl. lia.
Qed.

(** X11.  Whenever the simulation returns, its race-win tallies and its
    race-lose tallies have the same total, and the race-win tally of a
    camel is never negative and never above its first-place tally. *)
Theorem simulated_race_win_bounded_by_first_place (g : Game) (pr : Probs) :
  simulate_probs g = Ok pr ->
  (tally_total (winners pr) == tally_total (losers pr))%Q /\
  (forall c, (0 <= winners pr c)%Q /\ (winners pr c <= fst_p pr c)%Q).
Proof.
  intros H. unfold simulate_probs in H.
  apply (simulate_all_winners g _ _ (path_weight_nonneg (camels_left g)) _ _ _ H).
  - reflexivity.
  - intros c. simpl. unfold tally_zero. split; lra.
Qed.

Lemma simulated_race_win_bounded_by_first_place_witness :
  exists pr, simulate_probs (mkGame last_field_board [] reset_bets [Green]) = Ok pr /\
    (tally_total (winners pr) == tally_total (losers pr))%Q /\
    (forall c, (0 <= winners pr c)%Q /\ (winners pr c <= fst_p pr c)%Q).
Proof.
  eexists. split; [reflexivity|].
  apply (simulated_race_win_bounded_by_first_place
           (mkGame last_field_board [] reset_bets [Green])).
  reflexivity.
Defined.

(** X12.  With no camel left to move the simulation does not return: its
    single, empty combination reaches the ranking with [winner_stack]
    never assigned. *)
Theorem simulation_raises_without_camels_left (g : Game) :
  camels_left g = [] -> simulate_probs g = Raise NameError.
Proof. intros H. unfold simulate_probs. rewrite H. reflexivity. Qed.

Lemma simulation_raises_without_camels_left_witness :
  simulate_probs (mkGame demo_board demo_players reset_bets []) = Raise NameError.
Proof.
  apply (simulation_raises_without_camels_left
           (mkGame demo_board demo_players reset_bets [])).
  reflexivity.
Defined.

Lemma list_pop_snoc {A : Type} (l : list A) (x : A) : list_pop (l ++ [x]) = Some (x, l).
Proof. unfold list_pop. rewrite rev_app_distr. simpl. now rewrite rev_involutive. Qed.

Lemma main_loop_app names inputs1 inputs2 s s1 :
  main_loop names s inputs1 = Ok s1 ->
  main_loop names s (inputs1 ++ inputs2) = main_loop names s1 inputs2.
Proof.
  revert s. induction inputs1 as [|p t IH]; intros s H; simpl in *.
  - now inversion H.
  - destruct (main_step names s p) as [s'|]; cbn [bind] in *; [|discriminate].
    now apply IH.
Qed.

Lemma repeat_snoc {A : Type} (x : A) (n : nat) : repeat x (S n) = repeat x n ++ [x].
Proof. induction n as [|n IH]; simpl; auto. f_equal. exact IH. Qed.

(** X13.  Undo takes back actions one for one: after any actions that all
    succeeded, as many [undo] commands bring the shell back to the game
    and the two stacks it had before them. *)
Theorem undo_takes_back_every_action
    (names : list string) (s s' : Shell) (acts : list OwnedAction) :
  main_loop names s (map Play acts) = Ok s' ->
  main_loop names s' (repeat (Command Undo) (length acts)) = Ok s.
Proof.
  revert s. induction acts as [|a t IH]; intros s H.
  - simpl in *. now inversion H.
  - cbn [map main_loop main_step] in H.
    destruct (apply_action (live s) a) as [[g1 w]|]; cbn [bind] in H; [|discriminate].
    specialize (IH _ H).
    change (length (a :: t)) with (S (length t)). rewrite repeat_snoc.
    rewrite (main_loop_app _ _ _ _ _ IH).
    cbn [main_loop main_step history_stack save_stack].
    rewrite list_pop_snoc. destruct s. reflexivity.
Qed.

Lemma undo_takes_back_every_action_witness :
  exists s',
    main_loop ["ann"%string; "bob"%string] (mkShell demo_game [] [])
      (map Play [mkOwnedAction (Some "bob"%string) (Roll (mkMove White 2));
                 mkOwnedAction (Some "ann"%string) (BetOn Green)]) = Ok s' /\
    main_loop ["ann"%string; "bob"%string] s' (repeat (Command Undo) 2)
    = Ok (mkShell demo_game [] []).
Proof.
  eexists. split; [vm_compute; reflexivity|].
  apply (undo_takes_back_every_action ["ann"%string; "bob"%string]
           (mkShell demo_game [] []) _
           [mkOwnedAction (Some "bob"%string) (Roll (mkMove White 2));
            mkOwnedAction (Some "ann"%string) (BetOn Green)]).
  vm_compute. reflexivity.
Defined.

Lemma plays_keep_save_stack names acts :
  forall s s', main_loop names s (map Play acts) = Ok s' ->
    save_stack s' = save_stack s /\
    length (history_stack s') = (length (history_stack s) + length acts)%nat.
Proof.
  induction acts as [|a t IH]; intros s s' H.
  - simpl in *. inversion H; subst. split; auto.
  - cbn [map main_loop main_step] in H.
    destruct (apply_action (live s) a) as [[g1 w]|]; cbn [bind] in H; [|discriminate].
    destruct (IH _ _ H) as [H1 H2]. simpl in H1, H2. split; auto.
    rewrite H2, length_app. simpl. lia.
Qed.

(** X14.  A checkpoint survives the actions played after it: [save], any
    actions that all succeed, then [revert] leave the shell with the game
    it had at the [save] and with the save stack it had before it; the
    game left behind goes on the history stack, so that [undo] returns to
    it. *)
Theorem revert_returns_to_saved_game
    (names : list string) (s s' : Shell) (acts : list OwnedAction) :
  main_loop names s (Command Save :: map Play acts ++ [Command Revert]) = Ok s' ->
  live s' = live s /\ save_stack s' = save_stack s /\
  length (history_stack s') = (length (history_stack s) + length acts + 1)%nat /\
  exists s'', main_loop names s (Command Save :: map Play acts) = Ok s'' /\
              main_step names s' (Command Undo) =
              Ok (mkShell (live s'') (history_stack s'') (save_stack s)).
Proof.
  cbn [main_loop main_step bind]. intros H.
  destruct (main_loop names
              (mkShell (live s) (history_stack s) (save_stack s ++ [live s]))
              (map Play acts)) as [s1|] eqn:E.
  - rewrite (main_loop_app _ _ _ _ _ E) in H.
    destruct (plays_keep_save_stack _ _ _ _ E) as [Hs Hh]. simpl in Hs, Hh.
    cbn [main_loop main_step] in H. rewrite Hs, list_pop_snoc in H.
    cbn [bind] in H. inversion H; subst. simpl.
    repeat split; auto.
    + rewrite length_app, Hh. simpl. lia.
    + exists s1. split; auto.
      rewrite list_pop_snoc. reflexivity.
  - exfalso. revert H E. generalize (mkShell (live s) (history_stack s)
                                       (save_stack s ++ [live s])).
    induction (map Play acts) as [|p t IH]; intros s0 H E; simpl in *; [discriminate|].
    destruct (main_step names s0 p) as [s2|]; cbn [bind] in *; [|discriminate].
    eapply IH; eauto.
Qed.

Lemma revert_returns_to_saved_game_witness :
  exists s',
    main_loop ["ann"%string; "bob"%string] (mkShell demo_game [] [])
      (Command Save ::
       map Play [mkOwnedAction (Some "bob"%string) (Roll (mkMove White 2))]
       ++ [Command Revert]) = Ok s' /\
    live s' = demo_game /\ save_stack s' = [].
Proof.
  eexists. split; [vm_compute; reflexivity|].
  match goal with
  | |- live ?x = _ /\ _ =>
      destruct (revert_returns_to_saved_game ["ann"%string; "bob"%string]
                  (mkShell demo_game [] []) x
                  [mkOwnedAction (Some "bob"%string) (Roll (mkMove White 2))])
        as (H1 & H2 & _); [vm_compute; reflexivity|]
  end.
  split; assumption.
Defined.

Lemma dict_set_keys_nodup {K V : Type} (eq_dec : forall x y : K, {x = y} + {x <> y})
    (d : list (K * V)) k v :
  NoDup (keys d) -> NoDup (keys (dict_set eq_dec d k v)).
Proof.
  intros ND. destruct (in_dec eq_dec k (keys d)) as [I|N].
  - now rewrite keys_set_present.
  - rewrite keys_set_absent by assumption.
    apply NoDup_app; auto.
    + repeat constructor. tauto.
    + intros a Ha [<-|[]]. contradiction.
Qed.

Lemma init_players_spec (names : list string) :
  forall d : Players,
    NoDup (keys d) ->
    let d' := fold_left (fun d n => dict_set Owner_eq_dec d (Some n) (mkPlayer 3 []))
                        names d in
    NoDup (keys d') /\
    (forall n, In n names -> dict_get Owner_eq_dec d' (Some n) = Some (mkPlayer 3 [])) /\
    (forall k, (forall n, k = Some n -> ~ In n names) ->
               dict_get Owner_eq_dec d' k = dict_get Owner_eq_dec d k).
Proof.
  induction names as [|n t IH]; intros d ND; simpl.
  - repeat split; auto. intros n [].
  - destruct (IH (dict_set Owner_eq_dec d (Some n) (mkPlayer 3 []))
                 (dict_set_keys_nodup _ _ _ _ ND)) as (H1 & H2 & H3).
    split; [exact H1|]. split.
    + intros m [<-|Hm].
      * destruct (in_dec string_dec n t) as [I|N]; [now apply H2|].
        rewrite H3; [apply dict_get_set_eq|].
        intros n' E. inversion E; subst. exact N.
      * now apply H2.
    + intros k Hk. rewrite H3.
      * apply dict_get_set_ne. intros <-. apply (Hk n eq_refl). now left.
      * intros n' E F. apply (Hk n' E). now right.
Qed.

(** X15.  [init_game] starts every game in order: whatever the names, and
    however often one is repeated, each name is one player with balance 3
    and no wager, no one else is a player, the board is well-formed, no
    balance is negative, every pool is full and all five camels are to
    move. *)
Theorem init_game_starts_in_order (names : list string) :
  NoDup (keys (players (init_game names))) /\
  (forall n, In n names ->
     dict_get Owner_eq_dec (players (init_game names)) (Some n) = Some (mkPlayer 3 [])) /\
  (forall k, (forall n, k = Some n -> ~ In n names) ->
     dict_get Owner_eq_dec (players (init_game names)) k = None) /\
  balances_ok (players (init_game names)) /\
  well_formed (board (init_game names)) /\
  (forall c, dict_get Camel_eq_dec (bets (init_game names)) c = Some [Low; Med; High]) /\
  camels_left (init_game names) = all_camels.
Proof.
  destruct (init_players_spec names [] (NoDup_nil _)) as (H1 & H2 & H3).
  cbn [init_game players board bets camels_left].
  split; [exact H1|]. split; [exact H2|]. split; [exact H3|]. split.
  - unfold balances_ok. apply Forall_forall. intros [k p] Hin.
    apply (dict_item Owner_eq_dec _ _ _ H1) in Hin. simpl.
    destruct k as [n|].
    + destruct (in_dec string_dec n names) as [I|N].
      * rewrite (H2 n I) in Hin. inversion Hin. simpl. lia.
      * rewrite H3 in Hin; [discriminate|]. intros n' E. inversion E; subst. exact N.
    + rewrite H3 in Hin; [discriminate|]. intros n' E. discriminate.
  - split; [apply well_formedb_sound; reflexivity|].
    split; [intros c; destruct c; reflexivity | reflexivity].
Qed.

Lemma simulate_one_distinct g w acc wst order ss acc' ws :
  well_formed (board g) -> all_on_track (board g) ->
  Forall (fun s => 1 <= s <= 3) ss -> order <> [] -> ss <> [] ->
  simulate_one g w acc wst (order, ss) = Ok (acc', ws) ->
  exists c1 c2, c1 <> c2 /\
    fst_p acc' = tally_add Camel_eq_dec (fst_p acc) c1 w /\
    snd_p acc' = tally_add Camel_eq_dec (snd_p acc) c2 w.
Proof.
  intros Hwf Hall Hss Ho Hs. unfold simulate_one. cbn [fst snd].
  destruct (replay_ok w (zip_moves order ss) (board g) wst (shifts acc) Hwf Hall)
    as (b' & ws' & sh' & E & Hok & Hk & Hfin).
  - now apply zip_moves_steps.
  - left. now apply zip_moves_nonempty.
  - rewrite E. cbn [bind].
    destruct (get_rankings_five b' ws' Hok Hk Hfin) as (c1 & c2 & c3 & c4 & c5 & R & Hne).
    rewrite R. cbn [bind].
    destruct ws'; intros H; inversion H; subst; simpl; exists c1, c2; auto.
Qed.

Lemma simulate_all_shares g w combos :
  well_formed (board g) -> all_on_track (board g) -> (0 <= w)%Q ->
  (forall order ss, In (order, ss) combos ->
     order <> [] /\ ss <> [] /\ Forall (fun s => 1 <= s <= 3) ss) ->
  forall acc wst pr B,
    simulate_all g w acc wst combos = Ok pr ->
    (forall c, (0 <= fst_p acc c)%Q /\ (0 <= snd_p acc c)%Q /\
               (fst_p acc c + snd_p acc c <= B)%Q) ->
    forall c, (0 <= fst_p pr c)%Q /\ (0 <= snd_p pr c)%Q /\
              (fst_p pr c + snd_p pr c
               <= B + inject_Z (Z.of_nat (length combos)) * w)%Q.
Proof.
  intros Hwf Hall Hw. induction combos as [|[order ss] rest IH];
    intros Hc acc wst pr B H P c.
  - simpl in H. inversion H; subst. destruct (P c) as (P1 & P2 & P3).
    repeat split; auto. cbn [length Z.of_nat]. unfold inject_Z. lra.
  - cbn [simulate_all] in H.
    destruct (simulate_one g w acc wst (order, ss)) as [[acc' ws]|] eqn:E;
      cbn [bind] in H; [|discriminate].
    destruct (Hc order ss (or_introl eq_refl)) as (Ho & Hs & Hss).
    destruct (simulate_one_distinct _ _ _ _ _ _ _ _ Hwf Hall Hss Ho Hs E)
      as (c1 & c2 & Hne & F1 & F2).
    assert (P' : forall c, (0 <= fst_p acc' c)%Q /\ (0 <= snd_p acc' c)%Q /\
                           (fst_p acc' c + snd_p acc' c <= B + w)%Q).
    { intros d. rewrite F1, F2. destruct (P d) as (P1 & P2 & P3).
      unfold tally_add.
      destruct (Camel_eq_dec d c1), (Camel_eq_dec d c2); try congruence;
        repeat split; lra. }
    destruct (IH (fun o s0 H0 => Hc o s0 (or_intror H0)) acc' (Ok ws) pr (B + w)%Q H P' c)
      as (Q1 & Q2 & Q3).
    repeat split; auto.
    change (length ((order, ss) :: rest)) with (S (length rest)).
    rewrite inject_nat_succ. lra.
Qed.

Lemma paths_times_weight (left : list Camel) :
  (inject_Z (Z.of_nat (length (combinations left))) * path_weight left == 1)%Q.
Proof.
  rewrite length_combinations. unfold path_weight.
  rewrite total_paths_closed. field.
  intros F. pose proof (total_paths_pos (length left)) as Hpos.
  rewrite total_paths_closed in Hpos.
  unfold Qeq in F. simpl in F. lia.
Qed.

(** X16.  In exact arithmetic, the floats of [simulate_probs] and of
    [show_evs] being taken as the rationals they stand for: with all five
    camels on the track of a well-formed board and a camel left to move,
    the tallies of the simulation are shares, for every camel the
    first-place and the second-place tally are 0 or more and together at
    most 1; so the expected value worked out for a camel whose pool is not
    empty lies between -1 and the value of the token on offer.  This is a
    statement about the sums the code forms, not about their binary64
    roundings, which can pass these bounds in the last digits: eighteen
    additions of 1/18 give 1.0000000000000002 in binary64. *)
Theorem expected_value_between_loss_and_token (g : Game) (pr : Probs) :
  well_formed (board g) -> all_on_track (board g) -> camels_left g <> [] ->
  simulate_probs g = Ok pr ->
  (forall c, (0 <= fst_p pr c)%Q /\ (0 <= snd_p pr c)%Q /\
             (fst_p pr c + snd_p pr c <= 1)%Q) /\
  (forall c ev, camel_ev g pr c = Ok (Some ev) ->
     exists pool top,
       dict_get Camel_eq_dec (bets g) c = Some (pool ++ [top]) /\
       (-1 <= ev)%Q /\ (ev <= inject_Z (bet_value top))%Q).
Proof.
  intros Hwf Hall Hne H.
  assert (S : forall c, (0 <= fst_p pr c)%Q /\ (0 <= snd_p pr c)%Q /\
                        (fst_p pr c + snd_p pr c <= 1)%Q).
  { intros c. unfold simulate_probs in H.
    pose proof (simulate_all_shares g (path_weight (camels_left g))
                  (combinations (camels_left g)) Hwf Hall
                  (path_weight_nonneg _)) as T.
    destruct (T ltac:(
                intros order ss Hin; apply combinations_spec in Hin;
                destruct Hin as (P & L & F); repeat split; auto;
                [ intros ->; apply Permutation_nil in P; congruence
                | intros ->; simpl in L; destruct (camels_left g);
                  [congruence | discriminate] ])
              _ _ _ 0%Q H
              ltac:(intros d; simpl; unfold tally_zero; repeat split; lra) c)
      as (T1 & T2 & T3).
    repeat split; auto.
    rewrite paths_times_weight in T3. lra. }
  split; [exact S|].
  intros c ev. unfold camel_ev.
  destruct (dict_get Camel_eq_dec (bets g) c) as [pool|]; [|discriminate].
  destruct (rev pool) as [|top r] eqn:R; [discriminate|].
  intros E. inversion E; subst. exists (rev r), top.
  split.
  - f_equal. rewrite <- (rev_involutive pool), R. reflexivity.
  - destruct (S c) as (S1 & S2 & S3).
    destruct top; cbn [bet_value]; unfold inject_Z; split; lra.
Qed.

Lemma expected_value_between_loss_and_token_witness :
  exists pr, simulate_probs (mkGame last_field_board [] reset_bets [Green]) = Ok pr /\
    (forall c, (0 <= fst_p pr c)%Q /\ (0 <= snd_p pr c)%Q /\
               (fst_p pr c + snd_p pr c <= 1)%Q) /\
    (forall c ev,
       camel_ev (mkGame last_field_board [] reset_bets [Green]) pr c = Ok (Some ev) ->
       exists pool top,
         dict_get Camel_eq_dec reset_bets c = Some (pool ++ [top]) /\
         (-1 <= ev)%Q /\ (ev <= inject_Z (bet_value top))%Q).
Proof.
  eexists. split; [reflexivity|].
  apply (expected_value_between_loss_and_token
           (mkGame last_field_board [] reset_bets [Green])).
  - apply well_formedb_sound. vm_compute. reflexivity.
  - apply all_on_trackb_sound. vm_compute. reflexivity.
  - discriminate.
  - reflexivity.
Defined.

(** X17.  When a move sends a group over the line (all five camels having
    been on the track of a well-formed board), the ranking taken with that
    finish group, as the simulator takes it, exists and puts the top camel
    of the group first. *)
Theorem race_winner_is_top_of_finish_group
    (b b' : Board) (c : Camel) (st : Z) (o : Owner) (group : list Camel) :
  well_formed b -> all_on_track b -> 1 <= st <= 3 ->
  apply_move b (mkMove c st) = Ok (b', o, Some group) ->
  exists c1 rest under,
    get_rankings b' (Some group) = Ok (c1 :: rest) /\ group = under ++ [c1].
Proof.
  intros Hwf Hall Hst Hm. pose proof Hwf as [Hok Hadj].
  destruct (Hall c) as (p & Hp & Hlt).
  destruct (on_track_stack b c p Hok Hp Hlt) as (q & s & h & -> & Hs & Hh).
  destruct (later_total b c st q h s Hok Hst Hp Hs Hh Hadj)
    as [[Hge E]|(q' & f & old & _ & _ & _ & _ & E)];
    rewrite E in Hm; inversion Hm; subst; clear Hm.
  set (carried := skipn h s) in *.
  set (e := final_landing b (Z.of_nat q) st) in *.
  set (b' := mkBoard (set_nth (fields b) q (stack_or_none (firstn h s)))
                     (bump (index b) carried (e - Z.of_nat q))) in *.
  assert (Hin : forall d, In d carried -> pos_of b' d = Some e).
  { intros d Hd. unfold pos_of, b'. cbn [index].
    rewrite (get_bump_in _ _ _ _ (Z.of_nat q) Hd).
    - f_equal. lia.
    - apply (lift_pos b q s Hok Hs). exact (lift_carried_in h s d Hd). }
  assert (Hout : forall d, ~ In d carried ->
                 exists pd, pos_of b' d = Some pd /\ pd < BOARD_SIZE).
  { intros d Hd. destruct (Hall d) as (pd & Hpd & Hl). exists pd. split; auto.
    unfold pos_of, b'. cbn [index]. now rewrite get_bump_out. }
  assert (Hok' : board_ok b').
  { apply (apply_move_keeps_ok b c st _ Hok Hst E). }
  assert (Hk : forall d, pos_of b' d <> None).
  { intros d. destruct (in_dec Camel_eq_dec d carried) as [I|N].
    - rewrite (Hin d I). discriminate.
    - destruct (Hout d N) as (pd & -> & _). discriminate. }
  assert (Hfin : forall d pd, pos_of b' d = Some pd -> BOARD_SIZE <= pd ->
                 exists l, Some carried = Some l /\ In d l).
  { intros d pd Hd Hpd. exists carried. split; auto.
    destruct (in_dec Camel_eq_dec d carried) as [I|N]; auto.
    destruct (Hout d N) as (pd' & Hd' & Hl). rewrite Hd in Hd'. inversion Hd'. lia. }
  destruct (get_rankings_five b' (Some carried) Hok' Hk Hfin)
    as (c1 & c2 & c3 & c4 & c5 & R & _).
  destruct (ranking_head_greatest b' (Some carried) c1 [c2; c3; c4; c5] Hok' Hfin R)
    as (Hnd & Hmem & Hmax).
  assert (Hrest : forall d, d <> c1 -> In d [c2; c3; c4; c5]).
  { intros d Hne. destruct (proj2 (Hmem d) (Hk d)); [congruence | assumption]. }
  assert (Hkey : forall d, In d carried ->
            exists i, find_index Camel_eq_dec carried d = Some i /\
                      key_of b' (Some carried) d = Some (e, i)).
  { intros d Hd. destruct (find_index_In Camel_eq_dec carried d Hd) as [i Hi].
    exists i. split; auto. apply key_of_finished; auto. }
  pose proof (lift_camel_carried c h s Hh) as Hc. fold carried in Hc.
  pose proof (lift_carried_nodup b q h s Hok Hs) as NDc. fold carried in NDc.
  assert (H1 : In c1 carried).
  { destruct (in_dec Camel_eq_dec c1 carried) as [I|N]; auto. exfalso.
    destruct (Hout c1 N) as (p1 & Hp1 & Hl1).
    destruct (on_track_stack b' c1 p1 Hok' Hp1 Hl1) as (q1 & s1 & h1 & -> & Hs1 & Hh1).
    assert (Hq1 : (q1 < 16)%nat) by (eapply lift_p_lt; eauto).
    pose proof (key_of_on_track b' (Some carried) c1 q1 s1 h1 Hp1 Hq1 Hs1 Hh1) as K1.
    destruct (Hkey c Hc) as (i & _ & Kc).
    assert (Hne : c <> c1) by (intros ->; contradiction).
    pose proof (Hmax c _ _ (Hrest c Hne) K1 Kc) as L.
    unfold key_lt in L. simpl in L. unfold BOARD_SIZE in *. lia. }
  destruct (Hkey c1 H1) as (i & Hi & K1).
  exists c1, [c2; c3; c4; c5], (firstn i carried). split; auto.
  destruct (find_index_split _ _ _ _ Hi) as (t & Et & _ & Hlt').
  destruct t as [|d t'].
  - rewrite <- Et. now rewrite firstn_skipn.
  - exfalso.
    assert (Es : carried = (firstn i carried ++ [c1]) ++ d :: t').
    { rewrite <- app_assoc. simpl. rewrite <- Et. symmetry. apply firstn_skipn. }
    assert (Hd : find_index Camel_eq_dec carried d = Some (S i)).
    { rewrite Es at 1. rewrite find_index_app.
      - rewrite length_app, length_firstn. simpl. f_equal. lia.
      - rewrite Es in NDc. apply NoDup_remove_2 in NDc. intros F. apply NDc.
        apply in_or_app. now left. }
    assert (Hdc : In d carried).
    { rewrite Es. apply in_or_app. right. now left. }
    destruct (Hkey d Hdc) as (i' & Hi' & Kd). rewrite Hd in Hi'. inversion Hi'; subst i'.
    assert (Hne : d <> c1).
    { intros ->. rewrite Hi in Hd. inversion Hd. lia. }
    pose proof (Hmax d _ _ (Hrest d Hne) K1 Kd) as L.
    unfold key_lt in L. simpl in L. lia.
Qed.

Lemma race_winner_is_top_of_finish_group_witness :
  exists c1 rest under,
    get_rankings
      (mkBoard (set_nth (fields last_field_board) 13 EmptyField)
               [(Yellow, 0); (White, 0); (Blue, 1); (Orange, 3); (Green, 16)])
      (Some [Green]) = Ok (c1 :: rest) /\
    [Green] = under ++ [c1].
Proof.
  apply (race_winner_is_top_of_finish_group last_field_board _ Green 3 None [Green]).
  - apply well_formedb_sound. vm_compute. reflexivity.
  - apply all_on_trackb_sound. vm_compute. reflexivity.
  - lia.
  - vm_compute. reflexivity.
Defined.
